(** * Hazel update server: release cache and update decision

    A shallow embedding of [src/lib/cache.js] (class [Cache]: the
    constructor, [refreshCache], [isOutdated], [loadCache]) and of the
    handlers of [src/lib/routes.js] ([update], [download],
    [downloadPlatform], [overview], and the address computed by
    [proxyPrivateDownload]), with the properties of the specification
    and further properties of the code stated over it.

    Conventions of the embedding.
    - JavaScript objects used as dictionaries are [gmap string _]; reads
      through [obj[key]] go through [js_get], which also sees the
      properties every plain object inherits from [Object.prototype].
    - A rejected promise or a thrown exception is [Throw e]; [e] carries
      the name and the message of the JavaScript error.
    - The network is an oracle [net : nat -> FetchOutcome] giving the
      outcome of the k-th request the process issues; the requests issued
      so far are recorded in the state, so that "no I/O" is "the trace did
      not grow".
    - [Date.now()] is an argument of the operation that reads it.
    - The npm packages the code calls are modelled after their
      documented behaviour: [semver] (the strict mode of its 5.x line:
      [valid], [compare], [gt]), [async-retry] with the [retry] package
      under it, [ms] and [node-fetch].  A string is the UTF-8 encoding
      of the JavaScript string, which is taken to be well-formed text;
      [Str.length16] is its length in JavaScript.  Numbers are integers
      where the code computes on integers, and doubles ([Double.t])
      where [ms] computes on fractions.
    - The repository's own [./platform] and [./aliases] modules are not
      part of the sources at hand and are parameters of the model. *)

From Stdlib Require Import ZArith NArith Lia Ascii String.
From stdpp Require Import base option list strings gmap pretty.


(** ** Exceptions *)

Inductive ErrorName := PlainError | TypeError | FetchError.

Record Error := mkError { name : ErrorName; message : string }.

Inductive result (A : Type) : Type :=
| Ok (a : A)
| Throw (e : Error).
Arguments Ok {A} a.
Arguments Throw {A} e.

(** [result] is the error monad; [x ← r; k] runs [k] unless [r] threw. *)
Global Instance result_ret : MRet result := fun _ a => Ok a.
Global Instance result_bind : MBind result := fun _ _ k r =>
  match r with
  | Ok a => k a
  | Throw e => Throw e
  end.

Global Instance ErrorName_eq_dec : EqDecision ErrorName.
Proof. solve_decision. Defined.
Global Instance Error_eq_dec : EqDecision Error.
Proof. solve_decision. Defined.

(** ** Strings *)

Module Str.

(** [s.split(c)] for a one-character separator. *)
Fixpoint split (c : ascii) (s : string) : list string :=
  match s with
  | EmptyString => [EmptyString]
  | String a s' =>
      if Ascii.eqb a c then EmptyString :: split c s'
      else match split c s' with
           | h :: t => String a h :: t
           | [] => [String a EmptyString]
           end
  end.

(** The part before the first [c], and the part after it when there is one. *)
Fixpoint break (c : ascii) (s : string) : string * option string :=
  match s with
  | EmptyString => (EmptyString, None)
  | String a s' =>
      if Ascii.eqb a c then (EmptyString, Some s')
      else let '(h, t) := break c s' in (String a h, t)
  end.

Fixpoint forallb (p : ascii -> bool) (s : string) : bool :=
  match s with
  | EmptyString => true
  | String a s' => p a && forallb p s'
  end.

Definition code (a : ascii) : N := N_of_ascii a.

Definition is_digit (a : ascii) : bool := (48 <=? code a)%N && (code a <=? 57)%N.
Definition is_letter (a : ascii) : bool :=
  ((65 <=? code a)%N && (code a <=? 90)%N) || ((97 <=? code a)%N && (code a <=? 122)%N).
(** The class [[0-9A-Za-z-]]. *)
Definition is_ident_char (a : ascii) : bool :=
  is_digit a || is_letter a || Ascii.eqb a "-".

Definition nonempty (s : string) : bool :=
  match s with EmptyString => false | _ => true end.

(** [/^[0-9]+$/] *)
Definition all_digits (s : string) : bool := nonempty s && forallb is_digit s.

(** The value of a string of decimal digits. *)
Fixpoint digits_go (acc : N) (s : string) : N :=
  match s with
  | EmptyString => acc
  | String a s' => digits_go (10 * acc + (code a - 48))%N s'
  end.
Definition digits (s : string) : N := digits_go 0 s.

(** [s.length]: the number of UTF-16 code units of the text.  A
    continuation byte adds nothing to the count of its character, and a
    character of four bytes is a surrogate pair. *)
Fixpoint length16 (s : string) : nat :=
  match s with
  | EmptyString => 0
  | String a s' =>
      (if (128 <=? code a)%N && (code a <? 192)%N then 0
       else if (240 <=? code a)%N then 2 else 1) + length16 s'
  end.

(** The white space and the line terminators of ECMAScript beyond ASCII,
    in UTF-8: U+00A0 in two bytes; U+1680, U+2000 to U+200A, U+2028,
    U+2029, U+202F, U+205F, U+3000 and U+FEFF in three. *)
Definition is_space2 (a b : ascii) : bool :=
  (code a =? 194)%N && (code b =? 160)%N.
Definition is_space3 (a b c : ascii) : bool :=
  match code a, code b with
  | 225, 154 => (code c =? 128)
  | 226, 128 => ((128 <=? code c) && (code c <=? 138)) || (code c =? 168) || (code c =? 169)
                || (code c =? 175)
  | 226, 129 => (code c =? 159)
  | 227, 128 => (code c =? 128)
  | 239, 187 => (code c =? 191)
  | _, _ => false
  end%N.

(** [s.trimStart()], and the same on the reversed string when
    [reversed] is set. *)
Fixpoint trim_left (reversed : bool) (s : string) : string :=
  match s with
  | EmptyString => EmptyString
  | String a s1 =>
      if Ascii.is_space a then trim_left reversed s1
      else
        match s1 with
        | String b s2 =>
            if (if reversed then is_space2 b a else is_space2 a b) then trim_left reversed s2
            else
              match s2 with
              | String c s3 =>
                  if (if reversed then is_space3 c b a else is_space3 a b c)
                  then trim_left reversed s3
                  else s
              | EmptyString => s
              end
        | EmptyString => s
        end
  end.

(** [s.trim()] *)
Definition trim (s : string) : string :=
  String.rev (trim_left true (String.rev (trim_left false s))).

(** The longest prefix of characters that satisfy [p], and the rest. *)
Fixpoint span (p : ascii -> bool) (s : string) : string * string :=
  match s with
  | String a s' => if p a then let '(h, t) := span p s' in (String a h, t) else (EmptyString, s)
  | EmptyString => (EmptyString, EmptyString)
  end.

(** [s.toLowerCase()], on the letters of ASCII. *)
Definition lower (a : ascii) : ascii :=
  if (65 <=? code a)%N && (code a <=? 90)%N then ascii_of_N (code a + 32) else a.
Fixpoint toLowerCase (s : string) : string :=
  match s with
  | EmptyString => EmptyString
  | String a s' => String (lower a) (toLowerCase s')
  end.
End Str.

(** JavaScript truthiness of a possibly missing string. *)
Definition truthy (o : option string) : option string :=
  match o with
  | Some s => if Str.nonempty s then Some s else None
  | None => None
  end.

(** ** The [semver] package: strict parsing and comparison *)

Module Semver.

Record SemVer := mkSemVer {
  major : N;
  minor : N;
  patch : N;
  prerelease : list string;
  build : list string
}.

Definition MAX_LENGTH : nat := 256.
Definition MAX_SAFE_INTEGER : N := 9007199254740991.

(** [0|[1-9]\d*] *)
Definition numeric_identifier (s : string) : bool :=
  Str.all_digits s &&
  match s with
  | String "0" (String _ _) => false
  | _ => true
  end.

(** [0|[1-9]\d*|\d*[a-zA-Z-][a-zA-Z0-9-]*] *)
Definition prerelease_identifier (s : string) : bool :=
  Str.nonempty s && Str.forallb Str.is_ident_char s &&
  (negb (Str.all_digits s) || numeric_identifier s).

(** [[0-9A-Za-z-]+] *)
Definition build_identifier (s : string) : bool :=
  Str.nonempty s && Str.forallb Str.is_ident_char s.

(** The groups of the regular expression [FULL]:
    [^v?MAIN(?:-PRERELEASE)?(?:\+BUILD)?$]. *)
Definition match_full (s : string)
  : option (string * string * string * list string * list string) :=
  let s := match s with String "v" s' => s' | _ => s end in
  let '(front, bld) := Str.break "+" s in
  let '(main, pre) := Str.break "-" front in
  match Str.split "." main with
  | [ma; mi; pa] =>
      let pre_ids := match pre with Some p => Str.split "." p | None => [] end in
      let bld_ids := match bld with Some b => Str.split "." b | None => [] end in
      if numeric_identifier ma && numeric_identifier mi && numeric_identifier pa
         && forallb prerelease_identifier pre_ids
         && forallb build_identifier bld_ids
      then Some (ma, mi, pa, pre_ids, bld_ids)
      else None
  | _ => None
  end.

Definition type_error {A} (msg : string) : result A :=
  Throw (mkError TypeError msg).

(** [new SemVer(version)] *)
Definition new (version : string) : result SemVer :=
  if decide (MAX_LENGTH < Str.length16 version)%nat then
    type_error ("version is longer than 256 characters")
  else
    match match_full (Str.trim version) with
    | None => type_error ("Invalid Version: " +:+ version)
    | Some (ma, mi, pa, pre, bld) =>
        if (MAX_SAFE_INTEGER <? Str.digits ma)%N then type_error "Invalid major version"
        else if (MAX_SAFE_INTEGER <? Str.digits mi)%N then type_error "Invalid minor version"
        else if (MAX_SAFE_INTEGER <? Str.digits pa)%N then type_error "Invalid patch version"
        else Ok (mkSemVer (Str.digits ma) (Str.digits mi) (Str.digits pa) pre bld)
    end.

(** [parse(version)]: the regular expression is first tried on the
    string as given, then the constructor is run. *)
Definition parse (version : string) : option SemVer :=
  if decide (MAX_LENGTH < Str.length16 version)%nat then None
  else match match_full version with
       | None => None
       | Some _ => match new version with Ok v => Some v | Throw _ => None end
       end.

(** [valid(version)], as a truth value. *)
Definition valid (version : string) : bool :=
  match parse version with Some _ => true | None => false end.

(** [+id] for a string of digits: the IEEE double nearest to the
    integer, ties to even.  Exact below 2^53. *)
Definition to_double (n : N) : N :=
  if (n <? 2 ^ 53)%N then n
  else
    let e := (N.log2 n - 52)%N in
    let q := N.shiftr n e in
    let r := N.land n (N.ones e) in
    let half := N.shiftl 1 (e - 1) in
    let q' := if (half <? r)%N || ((r =? half)%N && N.odd q) then (q + 1)%N else q in
    N.shiftl q' e.

Definition compareIdentifiers (a b : string) : comparison :=
  let anum := Str.all_digits a in
  let bnum := Str.all_digits b in
  if anum && bnum then (to_double (Str.digits a) ?= to_double (Str.digits b))%N
  else if anum then Lt
  else if bnum then Gt
  else String.compare a b.

Definition compareMain (a b : SemVer) : comparison :=
  match (major a ?= major b)%N with
  | Eq => match (minor a ?= minor b)%N with
          | Eq => (patch a ?= patch b)%N
          | c => c
          end
  | c => c
  end.

(** The [do ... while (++i)] loop of [comparePre]. *)
Fixpoint comparePre_loop (a b : list string) : comparison :=
  match a, b with
  | [], [] => Eq
  | _ :: _, [] => Gt
  | [], _ :: _ => Lt
  | x :: a', y :: b' =>
      if decide (x = y) then comparePre_loop a' b' else compareIdentifiers x y
  end.

Definition comparePre (a b : SemVer) : comparison :=
  match prerelease a, prerelease b with
  | _ :: _, [] => Lt
  | [], _ :: _ => Gt
  | [], [] => Eq
  | pa, pb => comparePre_loop pa pb
  end.

Definition compareSemVer (a b : SemVer) : comparison :=
  match compareMain a b with
  | Eq => comparePre a b
  | c => c
  end.

(** [compare(a, b)] on strings: both are parsed, either may throw. *)
Definition compare (a b : string) : result comparison :=
  va ← new a; vb ← new b; Ok (compareSemVer va vb).

(** [gt(a, b)] *)
Definition gt (a b : string) : result bool :=
  c ← compare a b; Ok (match c with Gt => true | _ => false end).

End Semver.

(** ** Numbers

    A finite IEEE 754 double is an integer of at most 53 bits times a
    power of two.  The numbers met here are those [ms] reads from at
    most 100 characters, times the length of a unit: zero, or of a size
    between 1e-99 and 1e111, in the range of the normal numbers. *)
Module Double.

Record t := mk { mantissa : Z; exponent : Z }.

(** The integer nearest to [a / b], the even one of two that are equally
    near; [0 <= a] and [0 < b]. *)
Definition round_half_even (a b : Z) : Z :=
  let q := (a / b)%Z in
  let r := (a mod b)%Z in
  if (2 * r <? b)%Z then q
  else if (b <? 2 * r)%Z then (q + 1)%Z
  else if Z.even q then q else (q + 1)%Z.

(** [a / (b * 2^e)] as a fraction of integers. *)
Definition scaled (a b e : Z) : Z * Z :=
  if (0 <=? e)%Z then (a, b * 2 ^ e)%Z else (a * 2 ^ (- e), b)%Z.

(** The double nearest to [a / b], for [0 < a] and [0 < b] and a quotient
    in the range of the normal numbers: the exponent [e] is the one for
    which [2^52 <= a / (b * 2^e) < 2^53]. *)
Definition nearest_pos (a b : Z) : t :=
  let e0 := (Z.log2 a - Z.log2 b - 53)%Z in
  let '(n0, d0) := scaled a b e0 in
  let e := if (n0 <? 2 ^ 53 * d0)%Z then e0 else (e0 + 1)%Z in
  let '(n, d) := scaled a b e in
  mk (round_half_even n d) e.

(** The double nearest to [a / b], for [0 < b]. *)
Definition nearest (a b : Z) : t :=
  if (a =? 0)%Z then mk 0 0
  else if (a <? 0)%Z then
    let d := nearest_pos (- a) b in mk (- mantissa d) (exponent d)
  else nearest_pos a b.

(** [x * k] for an integer [k] that is a double. *)
Definition mul (x : t) (k : Z) : t :=
  let '(n, d) := scaled (mantissa x * k) 1 (- exponent x) in nearest n d.

(** [z > x] for an integer [z] that is a double. *)
Definition Z_gt (z : Z) (x : t) : bool :=
  if (0 <=? exponent x)%Z then (mantissa x * 2 ^ exponent x <? z)%Z
  else (mantissa x <? z * 2 ^ (- exponent x))%Z.

End Double.

(** ** The [ms] package *)
Module Ms.

(** The units [parse] knows, with their length in milliseconds. *)
Definition units : list (list string * Z) :=
  [ (["years"; "year"; "yrs"; "yr"; "y"], 31557600000%Z);
    (["weeks"; "week"; "w"], 604800000%Z);
    (["days"; "day"; "d"], 86400000%Z);
    (["hours"; "hour"; "hrs"; "hr"; "h"], 3600000%Z);
    (["minutes"; "minute"; "mins"; "min"; "m"], 60000%Z);
    (["seconds"; "second"; "secs"; "sec"; "s"], 1000%Z);
    (["milliseconds"; "millisecond"; "msecs"; "msec"; "ms"], 1%Z) ].

Definition unit_of (name : string) : option Z :=
  snd <$> List.find (fun u => bool_decide (name ∈ u.1)) units.

(** The group [(-?(?:\d+)?\.?\d+)] on what precedes the unit: an
    optional sign, then digits, or digits (possibly none), a point and
    digits.  The result is the sign, the digits without the point and
    the number of digits after the point. *)
Definition number (s : string) : option (bool * string * nat) :=
  let '(negative, s) := match s with String "-" s' => (true, s') | _ => (false, s) end in
  match Str.break "." s with
  | (whole, None) => if Str.all_digits whole then Some (negative, whole, 0%nat) else None
  | (whole, Some fraction) =>
      if Str.forallb Str.is_digit whole && Str.all_digits fraction
      then Some (negative, whole +:+ fraction, String.length fraction)
      else None
  end.

(** [parse(str)] of version 2 of the package: the regular expression
    [/^(-?(?:\d+)?\.?\d+) *(milliseconds?|...|y)?$/i] on a string of at
    most 100 characters, then [parseFloat] of the number times the
    length of the unit.  What precedes the blanks and the unit is the
    longest prefix of digits, points and signs, as neither a blank nor a
    unit holds one.  [None] is [undefined]. *)
Definition parse (str : string) : option Double.t :=
  if decide (100 < Str.length16 str)%nat then None
  else
    let '(front, rest) :=
      Str.span (fun a => Str.is_digit a || Ascii.eqb a "." || Ascii.eqb a "-") str in
    let '(_, name) := Str.span (fun a => Ascii.eqb a " ") rest in
    '(negative, digits, places) ← number front;
    length ← (if Str.nonempty name then unit_of (Str.toLowerCase name) else Some 1%Z);
    let n := Z.of_N (Str.digits digits) in
    Some (Double.mul (Double.nearest (if negative : bool then - n else n) (10 ^ Z.of_nat places))
                     length).

End Ms.

(** ** Data *)

(** Release records as the upstream API delivers them: objects with a
    boolean [draft], strings and an array of asset objects.  A
    [tag_name] that is missing, [null] or empty is the empty string
    here: the code only ever tests it with [!tagName] before using it.
    [assets] keeps the difference between a missing list and an empty
    one, which the code tells apart. *)
Module GitHub.
Record Asset := mkAsset {
  name : string;
  browser_download_url : string;
  url : string;
  content_type : string;
  size : N                               (* bytes *)
}.
Record Release := mkRelease {
  draft : bool;
  tag_name : string;
  assets : option (list Asset);
  body : string;
  published_at : string
}.
End GitHub.

(** The records the cache keeps. *)
Module Index.
Record Asset := mkAsset {
  name : string;
  api_url : string;
  url : string;
  content_type : string;
  size : N       (* tenths of a megabyte: [Math.round(size / 1000000 * 10) / 10],
                    computed on exact numbers *)
}.
Record Release := mkRelease {
  version : string;
  notes : string;
  pub_date : string;
  platforms : gmap string Asset
}.
End Index.

Global Instance GitHub_Asset_eq_dec : EqDecision GitHub.Asset.
Proof. solve_decision. Defined.
Global Instance GitHub_Release_eq_dec : EqDecision GitHub.Release.
Proof. solve_decision. Defined.
Global Instance Index_Asset_eq_dec : EqDecision Index.Asset.
Proof. solve_decision. Defined.
Global Instance Index_Release_eq_dec : EqDecision Index.Release.
Proof. solve_decision. Defined.

Record Config := mkConfig {
  account : option string;
  repository : option string;
  token : option string;
  url : option string;
  interval : option string                 (* [process.env.INTERVAL] *)
}.

Record Cache := mkCache {
  config : Config;
  lastUpdate : option Z;
  latestReleaseByEnvironment : gmap string Index.Release
}.

(** What [loadCache] hands out: a copy of [latestReleaseByEnvironment].
    (The other field of the returned object, [latest], is a copy of an
    object that is created empty and never written.) *)
Abbreviation Snapshot := (gmap string Index.Release).

(** ** JavaScript objects as dictionaries *)

(** The properties a plain object inherits; all of them hold objects or
    functions, which are truthy and have no [tag_name] or [platforms]. *)
Definition Object_prototype : list string :=
  [ "constructor"; "__defineGetter__"; "__defineSetter__"; "hasOwnProperty";
    "__lookupGetter__"; "__lookupSetter__"; "isPrototypeOf";
    "propertyIsEnumerable"; "toString"; "valueOf"; "__proto__"; "toLocaleString" ].

Inductive Property (V : Type) : Type :=
| Own (v : V)
| Inherited
| Undefined.
Arguments Own {V} v.
Arguments Inherited {V}.
Arguments Undefined {V}.

(** [obj[key]] *)
Definition js_get {V} (obj : gmap string V) (key : string) : Property V :=
  match obj !! key with
  | Some v => Own v
  | None => if bool_decide (key ∈ Object_prototype) then Inherited else Undefined
  end.

(** [Object.fromEntries(entries)]: a later entry overwrites an earlier one. *)
Definition fromEntries {V} (entries : list (string * V)) : gmap string V :=
  foldl (fun obj kv => <[kv.1 := kv.2]> obj) ∅ entries.

(** [x.split("-")[1] || "production"], as both [refreshCache] and
    [update] compute it. *)
Definition environment_of (tagName : string) : string :=
  match Str.split "-" tagName with
  | _ :: segment :: _ => if Str.nonempty segment then segment else "production"
  | _ => "production"
  end.

(** ** The network *)

Record Request := mkRequest {
  req_url : string;
  authorization : option string
}.

Inductive JsonValue :=
| NotArray                                   (* any JSON value that is not an array *)
| Array (releases : list GitHub.Release).

Inductive Body :=
| BadJson (reason : string)                  (* the body does not parse as JSON *)
| Json (data : JsonValue).

Inductive FetchOutcome :=
| Failed (reason : string)                   (* [fetch] rejects: transport error *)
| Response (status : N) (body : Body).

(** ** [async-retry] *)

(** [RetryOperation.prototype.mainError] of the [retry] package: the
    error whose message occurred most often; among equally frequent
    ones, the one seen last. *)
Definition mainError_step (st : gmap string nat * option Error * nat) (error : Error)
  : gmap string nat * option Error * nat :=
  let '(counts, mainError, mainErrorCount) := st in
  let count := (default 0 (counts !! message error) + 1)%nat in
  let counts := <[message error := count]> counts in
  if (mainErrorCount <=? count)%nat then (counts, Some error, count)
  else (counts, mainError, mainErrorCount).

Definition mainError (errors : list Error) : option Error :=
  (foldl mainError_step (∅, None, 0%nat) errors).1.2.

(** ** The cache ([src/lib/cache.js]) and the update handler ([src/lib/routes.js]) *)

(** The process: the cache object and the requests issued so far. *)
Record State := mkState {
  cache : Cache;
  requests : list Request
}.

(** A value interpolated in a template string. *)
Definition interpolate (o : option string) : string := default "undefined" o.

(** [token && typeof token === "string" && token.length > 0] *)
Definition has_token (cfg : Config) : bool :=
  match truthy (token cfg) with Some _ => true | None => false end.

Definition releases_url (cfg : Config) : string :=
  "https://api.github.com/repos/" +:+ interpolate (account cfg) +:+ "/"
    +:+ interpolate (repository cfg) +:+ "/releases?per_page=100".

Definition releases_request (cfg : Config) : Request :=
  {| req_url := releases_url cfg;
     authorization := (fun t => "token " +:+ t) <$> truthy (token cfg) |}.

Definition missing_configuration (msg : string) : Error := mkError PlainError msg.

(** [new Cache(config)] *)
Definition new_Cache (cfg : Config) : result Cache :=
  match truthy (account cfg), truthy (repository cfg) with
  | Some _, Some _ =>
      match truthy (token cfg), truthy (url cfg) with
      | Some _, None =>
          Throw (missing_configuration
            "Neither VERCEL_URL, nor URL are defined, which are mandatory for private repo mode")
      | _, _ => Ok {| config := cfg; lastUpdate := None; latestReleaseByEnvironment := ∅ |}
      end
  | _, _ => Throw (missing_configuration "Neither ACCOUNT, nor REPOSITORY are defined")
  end.

(** [ms(`${interval}m`)], with the default of 15 for an interval that is
    not configured. *)
Definition interval_ms (cfg : Config) : option Double.t :=
  Ms.parse (default "15" (interval cfg) +:+ "m").

(** Truthiness of [lastUpdate]: [null] and [0] are falsy. *)
Definition is_set (lastUpdate : option Z) : bool :=
  match lastUpdate with
  | Some t => negb (t =? 0)%Z
  | None => false
  end.

(** [isOutdated()], at time [now]:
    [lastUpdate && Date.now() - lastUpdate > ms(...)]; a comparison with
    [undefined] is false. *)
Definition isOutdated (c : Cache) (now : Z) : bool :=
  is_set (lastUpdate c) &&
  match lastUpdate c, interval_ms (config c) with
  | Some t, Some limit => Double.Z_gt (now - t) limit
  | _, _ => false
  end.

(** The test of [loadCache]: [!lastUpdate || isOutdated()]. *)
Definition must_refresh (c : Cache) (now : Z) : bool :=
  negb (is_set (lastUpdate c)) || isOutdated c now.

Section Model.

(** [./platform]: the platform key of an asset file name, or nothing. *)
Variable checkPlatform : string -> option string.
(** [./aliases]: the platform key of a client-supplied name, or nothing. *)
Variable checkAlias : string -> option string.
(** The outcome of the k-th request issued by the process. *)
Variable net : nat -> FetchOutcome.

(** *** Fetching, with retries *)

(** One run of the function handed to [retry]. *)
Definition attempt (cfg : Config) (outcome : FetchOutcome) : result Body :=
  match outcome with
  | Failed reason =>
      Throw (mkError FetchError
               ("request to " +:+ releases_url cfg +:+ " failed, reason: " +:+ reason))
  | Response status body =>
      if decide (status = 200%N) then Ok body
      else Throw (mkError PlainError
                    ("GitHub API responded with " +:+ pretty status +:+ " for url "
                       +:+ releases_url cfg))
  end.

(** What [retry] rejects with once no retry is left. *)
Definition give_up_with (errors : list Error) (last : Error) : Error :=
  default last (mainError errors).

(** [retry(fn, { retries })]: [fn] is run, and run again after each
    failure until [retries] further runs have been made ([retries] is
    "the maximum amount of times to retry the operation": the [retry]
    package holds one timeout per retry, and a failure that finds no
    timeout left rejects with [mainError()]).  Every run issues one
    request; the waiting between runs is not modelled. *)
Fixpoint retry (cfg : Config) (retries : nat) (errors : list Error)
         (reqs : list Request) : result Body * list Request :=
  let reqs' := reqs ++ [releases_request cfg] in
  match attempt cfg (net (List.length reqs)) with
  | Ok response => (Ok response, reqs')
  | Throw e =>
      match retries with
      | O => (Throw (give_up_with (errors ++ [e]) e), reqs')
      | S n => retry cfg n (errors ++ [e]) reqs'
      end
  end.

(** [response.json()] *)
Definition json (cfg : Config) (body : Body) : result JsonValue :=
  match body with
  | BadJson reason =>
      Throw (mkError FetchError
               ("invalid json response body at " +:+ releases_url cfg +:+ " reason: " +:+ reason))
  | Json data => Ok data
  end.

(** *** Indexing *)

(** [semver.gt(tagName, current.tag_name)], [current] being whatever
    the lookup found. *)
Definition gt_current (tagName : string) (current : Property GitHub.Release) : result bool :=
  match current with
  | Own current => Semver.gt tagName (GitHub.tag_name current)
  | _ => _ ← Semver.new tagName; Semver.type_error "Invalid Version: undefined"
  end.

(** The body of the [forEach] over the releases that are not drafts. *)
Definition select_release (latest : gmap string GitHub.Release) (release : GitHub.Release)
  : result (gmap string GitHub.Release) :=
  let tagName := GitHub.tag_name release in
  if negb (Str.nonempty tagName) || negb (bool_decide (is_Some (GitHub.assets release)))
  then Ok latest
  else
    let environmentName := environment_of tagName in
    match js_get latest environmentName with
    | Undefined => Ok (<[environmentName := release]> latest)
    | current =>
        newer ← gt_current tagName current;
        Ok (if newer : bool then <[environmentName := release]> latest else latest)
    end.

Fixpoint forEach {S A} (f : S -> A -> result S) (acc : S) (l : list A) : result S :=
  match l with
  | [] => Ok acc
  | x :: l' => acc' ← f acc x; forEach f acc' l'
  end.

Definition select_latest (data : list GitHub.Release) : result (gmap string GitHub.Release) :=
  forEach select_release ∅ (filter (fun release => GitHub.draft release = false) data).

(** The callback of [release.assets.map]. *)
Definition platform_entry (asset : GitHub.Asset) : option (string * Index.Asset) :=
  platform ← truthy (checkPlatform (GitHub.name asset));
  Some (platform,
        {| Index.name := GitHub.name asset;
           Index.api_url := GitHub.url asset;
           Index.url := GitHub.browser_download_url asset;
           Index.content_type := GitHub.content_type asset;
           Index.size := ((GitHub.size asset + 50000) / 100000)%N |}).

(** The callback of [Object.entries(latestReleaseByEnvironment).map]. *)
Definition environment_entry (release : GitHub.Release) : option Index.Release :=
  let platforms := fromEntries (omap platform_entry (default [] (GitHub.assets release))) in
  if decide (size platforms = 0%nat) then None
  else Some {| Index.version := GitHub.tag_name release;
               Index.notes := GitHub.body release;
               Index.pub_date := GitHub.published_at release;
               Index.platforms := platforms |}.

(** Lines 125-165; [release.assets.map] throws on a release without
    an asset list. *)
Definition build_index (latest : gmap string GitHub.Release) : result Snapshot :=
  if decide (map_Forall (fun _ release => is_Some (GitHub.assets release)) latest)
  then Ok (omap environment_entry latest)
  else Throw (mkError TypeError "Cannot read properties of undefined (reading 'map')").

(** Lines 106-165. *)
Definition index_releases (data : list GitHub.Release) : result Snapshot :=
  latest ← select_latest data; build_index latest.

(** *** [refreshCache], [loadCache] *)

Definition with_requests (s : State) (reqs : list Request) : State :=
  {| cache := cache s; requests := reqs |}.

(** The two assignments at the end of [refreshCache]. *)
Definition install (c : Cache) (index : Snapshot) (now : Z) : Cache :=
  {| config := config c; lastUpdate := Some now; latestReleaseByEnvironment := index |}.

(** What [refreshCache] does with the parsed body; [now] is the
    reading of [Date.now()] at line 167. *)
Definition process (now : Z) (data : JsonValue) (c : Cache) : result Cache :=
  match data with
  | NotArray | Array [] => Ok c
  | Array data => index ← index_releases data; Ok (install c index now)
  end.

Definition refreshCache (now : Z) (s : State) : result unit * State :=
  let '(response, reqs) := retry (config (cache s)) 3 [] (requests s) in
  match (body ← response; data ← json (config (cache s)) body; process now data (cache s)) with
  | Ok c => (Ok tt, {| cache := c; requests := reqs |})
  | Throw e => (Throw e, with_requests s reqs)
  end.

(** [loadCache()]: [now] is the time of the staleness test, [later]
    the time at which a refresh, if any, completes. *)
Definition loadCache (now later : Z) (s : State) : result Snapshot * State :=
  if must_refresh (cache s) now then
    match refreshCache later s with
    | (Ok _, s') => (Ok (latestReleaseByEnvironment (cache s')), s')
    | (Throw e, s') => (Throw e, s')
    end
  else (Ok (latestReleaseByEnvironment (cache s)), s).

(** *** The [update] handler *)

Record Payload := mkPayload {
  payload_name : string;
  payload_notes : string;
  payload_pub_date : string;
  payload_url : option string
}.

Inductive Reply :=
| ErrorReply (error message : string)      (* [send(res, 500, { error, message })] *)
| NoContent                                (* status 204 *)
| UpdateAvailable (payload : Payload).     (* [send(res, 200, payload)] *)

(** The handler from line 155 on, given the snapshot [loadCache] returned. *)
Definition decide_update (cfg : Config) (snapshot : Snapshot)
           (environmentName platformName platform version : string) : result Reply :=
  match js_get snapshot environmentName with
  | Undefined => Ok NoContent
  | Inherited =>
      Throw (mkError TypeError "Cannot read properties of undefined")
  | Own latestEnvironmentRelease =>
      match js_get (Index.platforms latestEnvironmentRelease) platform with
      | Undefined => Ok NoContent
      | asset =>
          c ← Semver.compare (Index.version latestEnvironmentRelease) version;
          match c with
          | Gt =>
              Ok (UpdateAvailable
                {| payload_name := Index.version latestEnvironmentRelease;
                   payload_notes := Index.notes latestEnvironmentRelease;
                   payload_pub_date := Index.pub_date latestEnvironmentRelease;
                   payload_url :=
                     if has_token cfg
                     then Some (interpolate (url cfg) +:+ "/download/" +:+ platformName
                                  +:+ "?update=true&environment=" +:+ environmentName)
                     else match asset with Own a => Some (Index.url a) | _ => None end |})
          | _ => Ok NoContent
          end
      end
  end.

Definition update (cfg : Config) (now later : Z) (platformName version : string) (s : State)
  : result Reply * State :=
  let environmentName := environment_of version in
  if negb (Semver.valid version) then
    (Ok (ErrorReply "version_invalid" "The specified version is not SemVer-compatible"), s)
  else
    match truthy (checkAlias platformName) with
    | None => (Ok (ErrorReply "invalid_platform" "The specified platform is not valid"), s)
    | Some platform =>
        match loadCache now later s with
        | (Throw e, s') => (Throw e, s')
        | (Ok snapshot, s') =>
            (decide_update cfg snapshot environmentName platformName platform version, s')
        end
    end.

(** *** Calls in flight

    A call of [loadCache] runs until it awaits, and other calls run in
    between.  [Task] is where one call stands; [step] runs it from one
    await to the next. *)
Inductive Task :=
| Called                                   (* the call has not started to run *)
| Fetching (k : nat) (errors : list Error) (retries : nat)
                                           (* awaiting the reply to request [k] *)
| Backoff (errors : list Error) (retries : nat)
                                           (* awaiting the timer before the next try *)
| Parsing (body : Body)                    (* awaiting [response.json()] *)
| Returning                                (* [refreshCache] resolved, [loadCache] not resumed yet *)
| Done (outcome : result Snapshot).

Definition issue (s : State) : State :=
  with_requests s (requests s ++ [releases_request (config (cache s))]).

Definition step (now : Z) (t : Task) (s : State) : Task * State :=
  match t with
  | Called =>
      if must_refresh (cache s) now
      then (Fetching (List.length (requests s)) [] 3, issue s)
      else (Done (Ok (latestReleaseByEnvironment (cache s))), s)
  | Fetching k errors retries =>
      match attempt (config (cache s)) (net k) with
      | Ok response => (Parsing response, s)
      | Throw e =>
          match retries with
          | O => (Done (Throw (give_up_with (errors ++ [e]) e)), s)
          | S n => (Backoff (errors ++ [e]) n, s)
          end
      end
  | Backoff errors retries => (Fetching (List.length (requests s)) errors retries, issue s)
  | Parsing body =>
      match (data ← json (config (cache s)) body; process now data (cache s)) with
      | Ok c => (Returning, {| cache := c; requests := requests s |})
      | Throw e => (Done (Throw e), s)
      end
  | Returning => (Done (Ok (latestReleaseByEnvironment (cache s))), s)
  | Done outcome => (Done outcome, s)
  end.

(** A schedule names, turn by turn, the call that runs next and the time. *)
Fixpoint run (schedule : list (nat * Z)) (tasks : list Task) (s : State)
  : list Task * State :=
  match schedule with
  | [] => (tasks, s)
  | (i, now) :: schedule' =>
      match tasks !! i with
      | Some t => let '(t', s') := step now t s in run schedule' (<[i := t']> tasks) s'
      | None => run schedule' tasks s
      end
  end.

End Model.

(** ** The download handlers ([src/lib/routes.js]) *)

(** [String.prototype.replace] with a string as pattern: the first
    occurrence is replaced, and [$$], [$&], [$`] and [$'] in the
    replacement stand for a dollar, the match, what precedes it and what
    follows it (there are no groups for [$1] ... to name, so these stay
    as written). *)
Module JsString.

(** [s] without the prefix [p], when it starts with it. *)
Fixpoint strip_prefix (p s : string) : option string :=
  match p, s with
  | EmptyString, _ => Some s
  | String a p', String b s' => if Ascii.eqb a b then strip_prefix p' s' else None
  | String _ _, EmptyString => None
  end.

(** What precedes and what follows the first occurrence of [pattern]. *)
Fixpoint find (pattern s : string) : option (string * string) :=
  match strip_prefix pattern s with
  | Some rest => Some (EmptyString, rest)
  | None =>
      match s with
      | EmptyString => None
      | String a s' =>
          match find pattern s' with
          | Some (before, after) => Some (String a before, after)
          | None => None
          end
      end
  end.

Fixpoint substitute (matched before after replacement : string) : string :=
  match replacement with
  | EmptyString => EmptyString
  | String "$" (String c r as rest) =>
      if Ascii.eqb c "$" then String "$" (substitute matched before after r)
      else if Ascii.eqb c "&" then matched +:+ substitute matched before after r
      else if Ascii.eqb c "`" then before +:+ substitute matched before after r
      else if Ascii.eqb c "'" then after +:+ substitute matched before after r
      else String "$" (substitute matched before after rest)
  | String a r => String a (substitute matched before after r)
  end.

Definition replace (s pattern replacement : string) : string :=
  match find pattern s with
  | Some (before, after) =>
      before +:+ substitute pattern before after replacement +:+ after
  | None => s
  end.

End JsString.

(** What [express-useragent] makes of the [user-agent] header, as far as
    the handlers read it. *)
Record UserAgent := mkUserAgent {
  isMac : bool;
  isWindows : bool
}.

(** The query of the request URL, as far as the handlers read it; every
    parameter is absent or given once. *)
Record Query := mkQuery {
  q_update : option string;
  q_environmentName : option string;
  q_environment : option string
}.

(** What a download handler does with the response. *)
Inductive Download :=
| NotFound (message : string)              (* [send(res, 404, message)] *)
| ServerError (message : string)           (* [send(res, 500, message)] *)
| Redirect (location : string)             (* [res.writeHead(302, { Location })] *)
| Proxied (finalUrl : string).             (* [proxyPrivateDownload]: fetches [finalUrl]
                                              and relays the [Location] it answers *)

(** The address [proxyPrivateDownload] fetches for an asset. *)
Definition proxy_url (cfg : Config) (asset : Index.Asset) : string :=
  JsString.replace (Index.api_url asset) "https://api.github.com/"
    ("https://" +:+ interpolate (token cfg) +:+ "@api.github.com/").

(** [s] between double quotes. *)
Definition quoted (s : string) : string := String "034" (s +:+ String "034" EmptyString).

(** The end of both download handlers, once [platforms[platform]] was
    found truthy: hand over to the proxy in private mode, or redirect.
    A member inherited from [Object.prototype] has neither [api_url] nor
    [url]: [rawUrl.replace] throws on the first, and [res.writeHead]
    rejects a header whose value is [undefined]. *)
Definition serve (cfg : Config) (asset : Property Index.Asset) : result Download :=
  if has_token cfg then
    match asset with
    | Own a => Ok (Proxied (proxy_url cfg a))
    | _ => Throw (mkError TypeError "Cannot read properties of undefined (reading 'replace')")
    end
  else
    match asset with
    | Own a => Ok (Redirect (Index.url a))
    | _ =>
        Throw (mkError TypeError
                 ("Invalid value " +:+ quoted "undefined" +:+ " for header "
                    +:+ quoted "Location"))
    end.

(** The platform [download] picks from the user agent. *)
Definition sniffed_platform (userAgent : UserAgent) (isUpdate : bool) : option string :=
  if isMac userAgent && isUpdate then Some "darwin"
  else if isMac userAgent && negb isUpdate then Some "dmg"
  else if isWindows userAgent then Some "exe"
  else None.

(** [download], from line 58 on. *)
Definition download_reply (cfg : Config) (snapshot : Snapshot) (environmentName : string)
           (platform : option string) : result Download :=
  match js_get snapshot environmentName, platform with
  | Undefined, _ | _, None => Ok (NotFound "No download available for your platform!")
  | Own latestEnvironmentRelease, Some platform =>
      match js_get (Index.platforms latestEnvironmentRelease) platform with
      | Undefined => Ok (NotFound "No download available for your platform!")
      | asset => serve cfg asset
      end
  | Inherited, Some _ => Throw (mkError TypeError "Cannot read properties of undefined")
  end.

(** [downloadPlatform], from line 101 on; [platform] is what
    [checkAlias] returned. *)
Definition downloadPlatform_reply (cfg : Config) (snapshot : Snapshot)
           (environmentName : string) (platform : option string) : result Download :=
  match truthy platform with
  | None => Ok (ServerError "The specified platform is not valid")
  | Some platform =>
      match js_get snapshot environmentName with
      | Own latestEnvironmentRelease =>
          match js_get (Index.platforms latestEnvironmentRelease) platform with
          | Undefined => Ok (NotFound "No download available for your platform")
          | asset => serve cfg asset
          end
      | _ => Ok (NotFound "No download available for your platform")
      end
  end.

Section Handlers.

Variable checkPlatform : string -> option string.
Variable checkAlias : string -> option string.
Variable net : nat -> FetchOutcome.

(** [exports.download] *)
Definition download (cfg : Config) (now later : Z) (userAgent : UserAgent) (params : Query)
           (s : State) : result Download * State :=
  let isUpdate := bool_decide (is_Some (truthy (q_update params))) in
  match truthy (q_environmentName params) with
  | None => (Ok (NotFound "No download available for your platform!"), s)
  | Some environmentName =>
      let platform := sniffed_platform userAgent isUpdate in
      match loadCache checkPlatform net now later s with
      | (Throw e, s') => (Throw e, s')
      | (Ok latestReleaseByEnvironment, s') =>
          (download_reply cfg latestReleaseByEnvironment environmentName platform, s')
      end
  end.

(** The two renamings at the head of [downloadPlatform]. *)
Definition installer_platform (platform : string) (isUpdate : bool) : string :=
  let platform :=
    if bool_decide (platform = "mac") && negb isUpdate then "dmg" else platform in
  if bool_decide (platform = "mac_arm64") && negb isUpdate then "dmg_arm64" else platform.

(** [exports.downloadPlatform]; [platform] is [req.params.platform]. *)
Definition downloadPlatform (cfg : Config) (now later : Z) (platform : string)
           (params : Query) (s : State) : result Download * State :=
  let isUpdate := bool_decide (is_Some (truthy (q_update params))) in
  match truthy (q_environment params) with
  | None => (Ok (NotFound "No download available for your platform!"), s)
  | Some environmentName =>
      let platform := installer_platform platform isUpdate in
      match loadCache checkPlatform net now later s with
      | (Throw e, s') => (Throw e, s')
      | (Ok latestReleaseByEnvironment, s') =>
          (downloadPlatform_reply cfg latestReleaseByEnvironment environmentName
             (checkAlias platform), s')
      end
  end.

(** [exports.overview]: the snapshot is sent as it is, with status 200. *)
Definition overview (now later : Z) (s : State) : result Snapshot * State :=
  loadCache checkPlatform net now later s.

End Handlers.

(** ** Sample collaborators and data, for the concrete runs *)

Module Sample.

Fixpoint ends_with (suffix s : string) : bool :=
  bool_decide (s = suffix) ||
  match s with
  | EmptyString => false
  | String _ s' => ends_with suffix s'
  end.

(** Modelled from the spec: [./platform] is not among the sources; the
    specification's scenarios resolve "app-win.exe" to "exe" and
    "app-mac.dmg" to "dmg", and an unrecognised file name to nothing. *)
Definition checkPlatform (fileName : string) : option string :=
  if ends_with ".exe" fileName then Some "exe"
  else if ends_with ".dmg" fileName then Some "dmg"
  else None.

(** Modelled from the spec: [./aliases] is not among the sources; the
    specification's scenarios resolve the alias "win" to the key "exe"
    and reject "bogus-platform". *)
Definition checkAlias (platform : string) : option string :=
  if bool_decide (platform ∈ ["exe"; "win"]) then Some "exe"
  else if bool_decide (platform = "dmg") then Some "dmg"
  else None.

Definition cfg : Config :=
  {| account := Some "belay-labs"; repository := Some "app";
     token := None; url := None; interval := None |}.

(** The address the releases of [cfg] are fetched from. *)
Definition releases : string :=
  "https://api.github.com/repos/belay-labs/app/releases?per_page=100".

Definition asset (fileName : string) : GitHub.Asset :=
  {| GitHub.name := fileName;
     GitHub.browser_download_url := "https://dl.example/" +:+ fileName;
     GitHub.url := "https://api.github.com/assets/" +:+ fileName;
     GitHub.content_type := "application/octet-stream";
     GitHub.size := 52428800 |}.

Definition release (tag notes : string) (files : list string) : GitHub.Release :=
  {| GitHub.draft := false; GitHub.tag_name := tag;
     GitHub.assets := Some (asset <$> files);
     GitHub.body := notes; GitHub.published_at := "2021-03-01T00:00:00Z" |}.

Definition draft_of (r : GitHub.Release) : GitHub.Release :=
  {| GitHub.draft := true; GitHub.tag_name := GitHub.tag_name r;
     GitHub.assets := GitHub.assets r;
     GitHub.body := GitHub.body r; GitHub.published_at := GitHub.published_at r |}.

Definition indexed (fileName : string) : Index.Asset :=
  {| Index.name := fileName;
     Index.api_url := "https://api.github.com/assets/" +:+ fileName;
     Index.url := "https://dl.example/" +:+ fileName;
     Index.content_type := "application/octet-stream";
     Index.size := 524 |}.

Definition entry (tag notes : string) (platforms : list (string * string)) : Index.Release :=
  {| Index.version := tag; Index.notes := notes;
     Index.pub_date := "2021-03-01T00:00:00Z";
     Index.platforms := fromEntries (prod_map id indexed <$> platforms) |}.

(** The releases of the specification's scenario. *)
Definition scenario : list GitHub.Release :=
  [ release "v1.2.0" "stable" ["app-win.exe"];
    release "v1.1.0-beta" "preview" ["app-mac.dmg"] ].

Definition empty_cache : Cache :=
  {| config := cfg; lastUpdate := None; latestReleaseByEnvironment := ∅ |}.

Definition start : State := {| cache := empty_cache; requests := [] |}.

(** A network on which every request is answered alike. *)
Definition always (outcome : FetchOutcome) : nat -> FetchOutcome := fun _ => outcome.

(** A network that answers the first requests from a list, then [rest]. *)
Definition replies (l : list FetchOutcome) (rest : FetchOutcome) : nat -> FetchOutcome :=
  fun k => default rest (l !! k).

Definition ok (data : list GitHub.Release) : FetchOutcome := Response 200 (Json (Array data)).
Definition status (code : N) : FetchOutcome := Response code (Json NotArray).

(** A longer history: an old release, a draft ahead of everything, the
    current release with a file that is no installer, a beta, the
    current version published a second time, and a channel whose only
    file is no installer. *)
Definition history : list GitHub.Release :=
  [ release "v1.0.0" "old" ["app-win.exe"];
    draft_of (release "v9.0.0" "draft" ["app-win.exe"]);
    release "v1.2.0" "stable" ["app-win.exe"; "notes.txt"];
    release "v1.1.0-beta" "preview" ["app-mac.dmg"];
    release "v1.2.0" "again" ["app-win.exe"];
    release "v0.9.0-docs" "docs" ["README.md"] ].

Definition production : Index.Release := entry "v1.2.0" "stable" [("exe", "app-win.exe")].
Definition beta : Index.Release := entry "v1.1.0-beta" "preview" [("dmg", "app-mac.dmg")].

Definition history_index : Snapshot :=
  fromEntries [("production", production); ("beta", beta)].

(** A cache filled at time 1000000, and the process holding it. *)
Definition filled_cache : Cache :=
  {| config := cfg; lastUpdate := Some 1000000%Z; latestReleaseByEnvironment := history_index |}.
Definition filled : State := {| cache := filled_cache; requests := [] |}.

(** Times at which [filled_cache] is fresh, and stale. *)
Definition soon : Z := 1000001.
Definition late : Z := 1900001.

Definition after_requests (s : State) (k : nat) : State :=
  {| cache := cache s; requests := requests s ++ replicate k (releases_request cfg) |}.

(** Networks. *)
Definition offline : nat -> FetchOutcome := always (Failed "ECONNREFUSED").
Definition down : nat -> FetchOutcome := always (status 500).
Definition up_at_fourth : nat -> FetchOutcome :=
  replies [status 500; status 500; status 500] (ok scenario).
Definition mixed_failures : nat -> FetchOutcome :=
  replies [status 500; status 500; status 404] (status 503).
Definition empty_array : nat -> FetchOutcome :=
  replies [status 502] (ok []).
Definition first_only : nat -> FetchOutcome :=
  replies [ok scenario] (status 500).

(** A private repository: the server knows a token and its own address. *)
Definition private_cfg : Config :=
  {| account := Some "belay-labs"; repository := Some "app";
     token := Some "s3cret"; url := Some "https://updates.example"; interval := None |}.

Definition mac : UserAgent := {| isMac := true; isWindows := false |}.
Definition windows : UserAgent := {| isMac := false; isWindows := true |}.

(** The query [?environmentName=e] of [download], and [?environment=e]
    of [downloadPlatform]. *)
Definition for_download (e : string) : Query :=
  {| q_update := None; q_environmentName := Some e; q_environment := None |}.
Definition for_platform (e : string) : Query :=
  {| q_update := None; q_environmentName := None; q_environment := Some e |}.

(** A cache whose only release carries a tag that is no version. *)
Definition nightly : Index.Release := entry "nightly" "built at night" [("exe", "app-win.exe")].
Definition nightly_state : State :=
  {| cache := {| config := cfg; lastUpdate := Some 1000000%Z;
                 latestReleaseByEnvironment := fromEntries [("production", nightly)] |};
     requests := [] |}.

(** Two installers for one platform in one release. *)
Definition twice : GitHub.Release := release "v2.0.0" "" ["old.exe"; "new.exe"].

(** A cache filled at time 1000000 under an interval configured as
    [text]. *)
Definition every (text : string) : Cache :=
  {| config := {| account := Some "belay-labs"; repository := Some "app";
                  token := None; url := None; interval := Some text |};
     lastUpdate := Some 1000000%Z; latestReleaseByEnvironment := history_index |}.

End Sample.

(** ** Vocabulary of the statements *)

(** A release the [forEach] of [refreshCache] considers for environment
    [e]: not a draft, with a tag and an asset list, and the tag names [e]. *)
Definition candidate (e : string) (r : GitHub.Release) : Prop :=
  GitHub.draft r = false /\ GitHub.tag_name r <> "" /\
  is_Some (GitHub.assets r) /\ environment_of (GitHub.tag_name r) = e.

(** Two tags carry the same version: both parse, to the same numbers and
    the same prerelease identifiers (build metadata does not count). *)
Definition same_version (a b : string) : Prop :=
  exists va vb, Semver.new a = Ok va /\ Semver.new b = Ok vb /\
    Semver.major va = Semver.major vb /\ Semver.minor va = Semver.minor vb /\
    Semver.patch va = Semver.patch vb /\ Semver.prerelease va = Semver.prerelease vb.

(** [r] is at least [c] in the order of versions: both tags parse and
    [compare(r, c)] is not [-1]. *)
Definition version_ge (r c : string) : Prop :=
  exists vr vc, Semver.new r = Ok vr /\ Semver.new c = Ok vc /\
    Semver.compareSemVer vr vc <> Lt.

(** [r], found at position [i] of [data], is the choice for [e]: no other
    candidate of [e] is greater, and none before it carries its version. *)
Definition selected_at (data : list GitHub.Release) (e : string)
           (i : nat) (r : GitHub.Release) : Prop :=
  data !! i = Some r /\ candidate e r /\
  forall j c, data !! j = Some c -> candidate e c -> j <> i ->
    Semver.gt (GitHub.tag_name c) (GitHub.tag_name r) = Ok false /\
    (j < i -> ~ same_version (GitHub.tag_name c) (GitHub.tag_name r)).

(** An asset file name that [checkPlatform] resolves to platform [p]. *)
Definition resolves (checkPlatform : string -> option string) (fileName p : string) : Prop :=
  truthy (checkPlatform fileName) = Some p.

(** The invariant of the platform tables of an index. *)
Definition platforms_resolved (checkPlatform : string -> option string)
           (index : Snapshot) : Prop :=
  forall e rel, index !! e = Some rel ->
    Index.platforms rel <> ∅ /\
    forall p a, Index.platforms rel !! p = Some a -> resolves checkPlatform (Index.name a) p.

(** How many of the errors carry the message [m]. *)
Definition count_message (m : string) (errors : list Error) : nat :=
  List.length (filter (fun e => message e = m) errors).

(** The error a reply other than 200 is turned into. *)
Definition status_error (cfg : Config) (status : N) : Error :=
  mkError PlainError
    ("GitHub API responded with " +:+ pretty status +:+ " for url " +:+ releases_url cfg).

(** The k-th run of the fetch function in a refresh started in state [s]. *)
Definition nth_attempt (net : nat -> FetchOutcome) (s : State) (k : nat) : result Body :=
  attempt (config (cache s)) (net (List.length (requests s) + k)%nat).

(** The requests a call issued, going from state [s] to state [s']. *)
Definition issued (s s' : State) (k : nat) : Prop :=
  requests s' = requests s ++ replicate k (releases_request (config (cache s))).

(** The payload of an available update. *)
Definition update_payload (cfg : Config) (rel : Index.Release) (asset : Index.Asset)
           (platformName environmentName : string) : Payload :=
  {| payload_name := Index.version rel;
     payload_notes := Index.notes rel;
     payload_pub_date := Index.pub_date rel;
     payload_url :=
       if has_token cfg
       then Some (interpolate (url cfg) +:+ "/download/" +:+ platformName
                    +:+ "?update=true&environment=" +:+ environmentName)
       else Some (Index.url asset) |}.

(** No hyphen occurs in the string. *)
Definition hyphen_free (s : string) : Prop :=
  Str.forallb (fun a => negb (Ascii.eqb a "-")) s = true.

(** The part of a string before its first hyphen. *)
Definition first_segment (s : string) : string := (Str.break "-" s).1.

(** The schedule on which the calls, one per time in [times], each run
    once in turn, before any of them is resumed. *)
Definition call_all (times : list Z) : list (nat * Z) := imap (fun i t => (i, t)) times.

(** One call run alone: its first turn at [now], the following ones at [later]. *)
Definition alone (now later : Z) : list (nat * Z) := (0%nat, now) :: replicate 10 (0%nat, later).

(** The [filter] and the [forEach] as one pass over the data. *)
Definition consider (m : gmap string GitHub.Release) (release : GitHub.Release)
  : result (gmap string GitHub.Release) :=
  if GitHub.draft release then Ok m else select_release m release.

(** The state of the loop after the releases [l]. *)
Definition chosen (l : list GitHub.Release) (m : gmap string GitHub.Release) : Prop :=
  forall e,
    match m !! e with
    | Some r => exists i, selected_at l e i r
    | None => forall c, c ∈ l -> ~ candidate e c
    end.

(** The loop of [mainError] after the errors [l]. *)
Definition counted (l : list Error) (st : gmap string nat * option Error * nat) : Prop :=
  let '(counts, main, n) := st in
  (forall m, default 0%nat (counts !! m) = count_message m l) /\
  (forall e, main = Some e -> e ∈ l) /\
  (l <> [] -> is_Some main) /\
  (n = 0%nat \/ exists e, e ∈ l /\ n <= count_message (message e) l).

(** The number of characters of a string, as a number. *)
Definition len (s : string) : N := N.of_nat (String.length s).

(** Every numeric prerelease identifier of the version is one that a
    double holds exactly. *)
Definition exact_identifiers (v : Semver.SemVer) : Prop :=
  Forall (fun id => Str.all_digits id = true -> (Str.digits id < 2 ^ 53)%N)
         (Semver.prerelease v).

(** A release that the selection looks at: published, tagged, with an
    asset list. *)
Definition relevant (r : GitHub.Release) : Prop :=
  GitHub.draft r = false /\ GitHub.tag_name r <> "" /\ is_Some (GitHub.assets r).

Global Instance relevant_dec r : Decision (relevant r).
Proof. unfold relevant. apply _. Defined.

(** The releases of one environment. *)
Definition of_environment (e : string) (data : list GitHub.Release) : list GitHub.Release :=
  filter (fun r => environment_of (GitHub.tag_name r) = e) data.

(** Every key of an index is the environment of the version under it, and
    no name of a member of [Object.prototype]. *)
Definition well_keyed (index : Snapshot) : Prop :=
  forall e rel, index !! e = Some rel ->
    environment_of (Index.version rel) = e /\ e ∉ Object_prototype.

(** The selection restricted to one environment. *)
Definition only (e : string) (m : gmap string GitHub.Release) : gmap string GitHub.Release :=
  filter (fun kv => kv.1 = e) m.

(** The invariant of the cache: platform tables are resolved from file
    names, keys are environments, and a cache that was never updated is
    empty. *)
Definition cache_ok (checkPlatform : string -> option string) (c : Cache) : Prop :=
  platforms_resolved checkPlatform (latestReleaseByEnvironment c) /\
  well_keyed (latestReleaseByEnvironment c) /\
  (lastUpdate c = None -> latestReleaseByEnvironment c = ∅).

(** A string without a dollar sign, which [String.prototype.replace]
    copies as it is when it is the replacement. *)
Definition dollar_free (s : string) : Prop :=
  Str.forallb (fun a => negb (Ascii.eqb a "$")) s = true.

(** The turns of a run at which a call starts and finds the cache stale. *)
Fixpoint stale_calls (checkPlatform : string -> option string) (net : nat -> FetchOutcome)
         (schedule : list (nat * Z)) (tasks : list Task) (s : State) : nat :=
  match schedule with
  | [] => 0
  | (i, now) :: schedule' =>
      match tasks !! i with
      | Some t =>
          (match t with
           | Called => if must_refresh (cache s) now then 1 else 0
           | _ => 0
           end)
          + stale_calls checkPlatform net schedule'
              (<[i := (step checkPlatform net now t s).1]> tasks)
              (step checkPlatform net now t s).2
      | None => stale_calls checkPlatform net schedule' tasks s
      end
  end.

(** No request is awaited by two calls, and every request awaited has
    been issued. *)
Definition unshared (tasks : list Task) (s : State) : Prop :=
  forall i k errors retries,
    tasks !! i = Some (Fetching k errors retries) ->
    k < List.length (requests s) /\
    forall j errors' retries', tasks !! j = Some (Fetching k errors' retries') -> j = i.

(** [e], the error at position [i], is the main one of [errors]: no
    message occurred more often than its own, and the message of every
    error after it occurred less often. *)
Definition main_at (errors : list Error) (i : nat) (e : Error) : Prop :=
  errors !! i = Some e /\
  (forall e', e' ∈ errors ->
     count_message (message e') errors <= count_message (message e) errors) /\
  (forall j e', i < j -> errors !! j = Some e' ->
     count_message (message e') errors < count_message (message e) errors).

(** The loop of [mainError] after the errors [l], with the place of the
    error it holds. *)
Definition counted_main (l : list Error) (st : gmap string nat * option Error * nat) : Prop :=
  let '(counts, main, n) := st in
  (forall m, default 0%nat (counts !! m) = count_message m l) /\
  match main with
  | None => l = [] /\ n = 0%nat
  | Some e => n = count_message (message e) l /\ exists i, main_at l i e
  end.

(** The interval of [cfg] has not passed after [elapsed] milliseconds:
    [elapsed > ms(...)] is false, as it is for every [elapsed] when [ms]
    reads no number. *)
Definition within_interval (cfg : Config) (elapsed : Z) : Prop :=
  forall limit, interval_ms cfg = Some limit -> Double.Z_gt elapsed limit = false.

(** * Properties *)

(** ** The order on versions *)

Module SemverFacts.
Import Semver.

Lemma ascii_compare_lt_trans a b c :
  Ascii.compare a b = Lt -> Ascii.compare b c = Lt -> Ascii.compare a c = Lt.
Proof.
  unfold Ascii.compare. rewrite !N.compare_lt_iff. lia.
Qed.

Lemma string_compare_lt_trans s1 : forall s2 s3,
  String.compare s1 s2 = Lt -> String.compare s2 s3 = Lt -> String.compare s1 s3 = Lt.
Proof.
  induction s1 as [|a1 s1 IH]; intros [|a2 s2] [|a3 s3]; simpl; try done.
  destruct (Ascii.compare a1 a2) eqn:H12; try done.
  - apply Ascii.compare_eq_iff in H12 as ->.
    destruct (Ascii.compare a2 a3); try done. apply IH.
  - intros _. destruct (Ascii.compare a2 a3) eqn:H23; try done.
    + apply Ascii.compare_eq_iff in H23 as <-. by rewrite H12.
    + by rewrite (ascii_compare_lt_trans _ _ _ H12 H23).
Qed.

Lemma string_compare_gt_trans s1 s2 s3 :
  String.compare s1 s2 = Gt -> String.compare s2 s3 = Gt -> String.compare s1 s3 = Gt.
Proof.
  rewrite (String.compare_antisym s1 s2), (String.compare_antisym s2 s3),
    (String.compare_antisym s1 s3).
  intros H12 H23.
  assert (String.compare s2 s1 = Lt) by (by destruct (String.compare s2 s1)).
  assert (String.compare s3 s2 = Lt) by (by destruct (String.compare s3 s2)).
  by rewrite (string_compare_lt_trans s3 s2 s1).
Qed.

Lemma string_compare_refl s : String.compare s s = Eq.
Proof.
  induction s as [|a s IH]; simpl; [done|].
  unfold Ascii.compare. by rewrite N.compare_refl.
Qed.

Lemma compareIdentifiers_antisym a b :
  compareIdentifiers b a = CompOpp (compareIdentifiers a b).
Proof.
  unfold compareIdentifiers.
  destruct (Str.all_digits a), (Str.all_digits b); simpl; try done.
  - apply N.compare_antisym.
  - apply String.compare_antisym.
Qed.

Lemma compareIdentifiers_gt_trans a b c :
  compareIdentifiers a b = Gt -> compareIdentifiers b c = Gt ->
  compareIdentifiers a c = Gt.
Proof.
  unfold compareIdentifiers.
  destruct (Str.all_digits a), (Str.all_digits b), (Str.all_digits c); simpl; try done.
  - rewrite !N.compare_gt_iff. lia.
  - apply string_compare_gt_trans.
Qed.

Lemma compareIdentifiers_refl a : compareIdentifiers a a = Eq.
Proof.
  unfold compareIdentifiers. destruct (Str.all_digits a); simpl.
  - apply N.compare_refl.
  - apply string_compare_refl.
Qed.

Lemma comparePre_loop_antisym a : forall b,
  comparePre_loop b a = CompOpp (comparePre_loop a b).
Proof.
  induction a as [|x a IH]; intros [|y b]; simpl; try done.
  destruct (decide (x = y)) as [->|Hxy].
  - rewrite decide_True by done. apply IH.
  - rewrite decide_False by done. apply compareIdentifiers_antisym.
Qed.

Lemma comparePre_loop_refl a : comparePre_loop a a = Eq.
Proof. induction a as [|x a IH]; simpl; [done|]. by rewrite decide_True. Qed.

(** The first position at which two lists differ decides, so [Gt]
    chains even though a [0] from [compareIdentifiers] on two distinct
    identifiers ends the loop early. *)
Lemma comparePre_loop_gt_trans a : forall b c,
  comparePre_loop a b = Gt -> comparePre_loop b c = Gt -> comparePre_loop a c = Gt.
Proof.
  induction a as [|x a IH]; intros [|y b] [|z c]; simpl; try done.
  destruct (decide (x = y)) as [Hxy|Hxy], (decide (y = z)) as [Hyz|Hyz];
    destruct (decide (x = z)) as [Hxz|Hxz]; subst; try done.
  - apply IH.
  - intros Hab Hbc.
    pose proof (compareIdentifiers_gt_trans _ _ _ Hab Hbc) as Hac.
    by rewrite compareIdentifiers_refl in Hac.
  - apply compareIdentifiers_gt_trans.
Qed.

Lemma comparePre_antisym a b : comparePre b a = CompOpp (comparePre a b).
Proof.
  unfold comparePre.
  destruct (prerelease a) as [|x pa] eqn:Ha, (prerelease b) as [|y pb] eqn:Hb; try done.
  apply comparePre_loop_antisym.
Qed.

Lemma comparePre_gt_trans a b c :
  comparePre a b = Gt -> comparePre b c = Gt -> comparePre a c = Gt.
Proof.
  unfold comparePre.
  destruct (prerelease a) as [|x pa], (prerelease b) as [|y pb],
    (prerelease c) as [|z pc]; try done.
  apply comparePre_loop_gt_trans.
Qed.

Lemma comparePre_refl a : comparePre a a = Eq.
Proof.
  unfold comparePre. destruct (prerelease a); [done|]. apply comparePre_loop_refl.
Qed.

Lemma compareMain_antisym a b : compareMain b a = CompOpp (compareMain a b).
Proof.
  unfold compareMain.
  rewrite (N.compare_antisym (major a)), (N.compare_antisym (minor a)),
    (N.compare_antisym (patch a)).
  by destruct (major a ?= major b)%N, (minor a ?= minor b)%N, (patch a ?= patch b)%N.
Qed.

Lemma compareMain_eq a b :
  compareMain a b = Eq <-> major a = major b /\ minor a = minor b /\ patch a = patch b.
Proof.
  unfold compareMain.
  destruct (N.compare_spec (major a) (major b)), (N.compare_spec (minor a) (minor b)),
    (N.compare_spec (patch a) (patch b)); split; intros; try done; lia.
Qed.

Lemma compareMain_gt a b :
  compareMain a b = Gt <->
  (major b < major a \/
   major a = major b /\ (minor b < minor a \/ minor a = minor b /\ patch b < patch a))%N.
Proof.
  unfold compareMain.
  destruct (N.compare_spec (major a) (major b)), (N.compare_spec (minor a) (minor b)),
    (N.compare_spec (patch a) (patch b)); split; intros; try done; lia.
Qed.

Lemma compareSemVer_antisym a b : compareSemVer b a = CompOpp (compareSemVer a b).
Proof.
  unfold compareSemVer. rewrite (compareMain_antisym a b).
  destruct (compareMain a b); simpl; try done. apply comparePre_antisym.
Qed.

Lemma compareSemVer_refl a : compareSemVer a a = Eq.
Proof.
  unfold compareSemVer.
  assert (compareMain a a = Eq) as -> by (by apply compareMain_eq).
  apply comparePre_refl.
Qed.

Lemma compareSemVer_gt_trans a b c :
  compareSemVer a b = Gt -> compareSemVer b c = Gt -> compareSemVer a c = Gt.
Proof.
  unfold compareSemVer.
  destruct (compareMain a b) eqn:Hab; try done;
    destruct (compareMain b c) eqn:Hbc; try done; intros H1 H2.
  - assert (compareMain a c = Eq) as ->; [|by eapply comparePre_gt_trans].
    apply compareMain_eq in Hab, Hbc. apply compareMain_eq. lia.
  - assert (compareMain a c = Gt) as ->; [|done].
    apply compareMain_eq in Hab. apply compareMain_gt in Hbc. apply compareMain_gt. lia.
  - assert (compareMain a c = Gt) as ->; [|done].
    apply compareMain_eq in Hbc. apply compareMain_gt in Hab. apply compareMain_gt. lia.
  - assert (compareMain a c = Gt) as ->; [|done].
    apply compareMain_gt in Hab, Hbc. apply compareMain_gt. lia.
Qed.

(** [gt] on strings, when it does not throw. *)
Lemma gt_Ok a b r :
  gt a b = Ok r <->
  exists va vb, new a = Ok va /\ new b = Ok vb /\
                r = match compareSemVer va vb with Gt => true | _ => false end.
Proof.
  unfold gt, compare. destruct (new a) as [va|]; simpl.
  - destruct (new b) as [vb|]; simpl.
    + split; [intros [= <-]; eauto|]. by intros (? & ? & [= <-] & [= <-] & ->).
    + split; [done|]. by intros (? & ? & _ & ? & _).
  - split; [done|]. by intros (? & ? & ? & _).
Qed.

Lemma gt_irrefl a r : gt a a = Ok r -> r = false.
Proof.
  intros (va & vb & Ha & Hb & ->)%gt_Ok. rewrite Ha in Hb. injection Hb as <-.
  by rewrite compareSemVer_refl.
Qed.

Lemma gt_trans a b c :
  gt a b = Ok true -> gt b c = Ok true -> gt a c = Ok true.
Proof.
  intros (va & vb & Ha & Hb & H1)%gt_Ok (vb' & vc & Hb' & Hc & H2)%gt_Ok.
  rewrite Hb in Hb'. injection Hb' as <-.
  apply gt_Ok. exists va, vc. repeat split; try done.
  rewrite (compareSemVer_gt_trans va vb vc); [done|..].
  - by destruct (compareSemVer va vb).
  - by destruct (compareSemVer vb vc).
Qed.

Lemma gt_asym a b : gt a b = Ok true -> gt b a = Ok false.
Proof.
  intros (va & vb & Ha & Hb & H1)%gt_Ok.
  apply gt_Ok. exists vb, va. repeat split; try done.
  rewrite compareSemVer_antisym. by destruct (compareSemVer va vb).
Qed.

(** A version that is valid for [valid] is accepted by the constructor. *)
Lemma valid_new v : valid v = true -> exists sv, new v = Ok sv.
Proof.
  unfold valid, parse. case_decide; [done|].
  destruct (match_full v); [|done]. destruct (new v); [eauto|done].
Qed.

(** Numeric identifiers too large for a double are compared after
    rounding. *)
Lemma to_double_small n : (n < 2 ^ 53)%N -> to_double n = n.
Proof. unfold to_double. intros H. apply N.ltb_lt in H. by rewrite H. Qed.

Lemma to_double_large n : (2 ^ 53 <= n)%N -> (2 ^ 53 <= to_double n)%N.
Proof.
  intros Hn. unfold to_double.
  destruct (N.ltb_spec n (2 ^ 53)) as [|_]; [lia|].
  set (e := (N.log2 n - 52)%N).
  assert (53 <= N.log2 n)%N as Hlog.
  { apply N.log2_le_pow2; lia. }
  assert (1 <= e)%N as He by (subst e; lia).
  assert (2 ^ 52 <= N.shiftr n e)%N as Hq.
  { rewrite N.shiftr_div_pow2.
    apply N.div_le_lower_bound; [apply N.pow_nonzero; lia|].
    rewrite <-N.pow_add_r. replace (e + 52)%N with (N.log2 n) by (subst e; lia).
    apply N.log2_spec. lia. }
  match goal with |- context [N.shiftl (if ?b then _ else _) _] => destruct b end;
    rewrite N.shiftl_mul_pow2.
  all: assert (2 ^ 1 <= 2 ^ e)%N by (apply N.pow_le_mono_r; lia).
  all: change (2 ^ 53)%N with (2 ^ 52 * 2 ^ 1)%N; nia.
Qed.

Lemma digit_value c : Str.is_digit c = true -> (48 <= Str.code c <= 57)%N.
Proof. unfold Str.is_digit. rewrite andb_true_iff, !N.leb_le. lia. Qed.

Lemma code_inj c d : Str.code c = Str.code d -> c = d.
Proof.
  unfold Str.code. intros H.
  by rewrite <-(ascii_N_embedding c), <-(ascii_N_embedding d), H.
Qed.

Lemma digits_go_bounds s : forall a,
  Str.forallb Str.is_digit s = true ->
  (Str.digits_go a s = a * 10 ^ len s + Str.digits_go 0 s /\
   Str.digits_go 0 s < 10 ^ len s)%N.
Proof.
  induction s as [|c s IH]; intros a Hs.
  - unfold len. simpl. lia.
  - simpl in Hs. apply andb_true_iff in Hs as [Hc%digit_value Hs].
    unfold len. cbn [Str.digits_go String.length]. rewrite Nat2N.inj_succ, N.pow_succ_r'.
    destruct (IH (10 * a + (Str.code c - 48))%N Hs) as [-> Hlt].
    destruct (IH (10 * 0 + (Str.code c - 48))%N Hs) as [-> _].
    fold (len s) in *. nia.
Qed.

Lemma digits_go_inj s : forall t a b,
  String.length s = String.length t ->
  Str.forallb Str.is_digit s = true -> Str.forallb Str.is_digit t = true ->
  Str.digits_go a s = Str.digits_go b t -> a = b /\ s = t.
Proof.
  induction s as [|c s IH]; intros [|d t] a b Hlen Hs Ht Heq; try done.
  simpl in *. apply andb_true_iff in Hs as [Hc%digit_value Hs].
  apply andb_true_iff in Ht as [Hd%digit_value Ht].
  destruct (IH t _ _ ltac:(lia) Hs Ht Heq) as [Hab ->].
  assert (Str.code c = Str.code d) as ->%code_inj by lia.
  split; [lia|done].
Qed.

Lemma numeric_identifier_bounds x :
  numeric_identifier x = true ->
  x = "0" \/ (10 ^ (len x - 1) <= Str.digits x < 10 ^ len x)%N.
Proof.
  unfold numeric_identifier, Str.all_digits.
  destruct x as [|c x]; [done|]. simpl.
  rewrite !andb_true_iff. intros [[Hc Hx] Hzero].
  destruct (decide (c = "0"%char)) as [->|Hne].
  { destruct x; [by left|done]. }
  right. pose proof (digit_value _ Hc) as Hcv.
  assert (Str.code c <> 48%N) as Hc48.
  { intros H. apply Hne. by apply code_inj. }
  unfold Str.digits, len. cbn [Str.digits_go String.length].
  rewrite Nat2N.inj_succ, N.pow_succ_r'.
  replace (N.succ (N.of_nat (String.length x)) - 1)%N with (N.of_nat (String.length x)) by lia.
  destruct (digits_go_bounds x (10 * 0 + (Str.code c - 48))%N Hx) as [-> Hlt].
  fold (len x) in *. nia.
Qed.

Lemma digits_inj x y :
  numeric_identifier x = true -> numeric_identifier y = true ->
  Str.digits x = Str.digits y -> x = y.
Proof.
  intros Hx Hy Heq.
  assert (Str.forallb Str.is_digit x = true /\ Str.forallb Str.is_digit y = true) as [Hdx Hdy].
  { unfold numeric_identifier, Str.all_digits in Hx, Hy.
    rewrite !andb_true_iff in Hx, Hy. by destruct Hx as [[_ ?] _], Hy as [[_ ?] _]. }
  assert (forall s, numeric_identifier s = true -> (1 <= len s)%N) as Hpos.
  { intros [|c s]; [done|]. unfold len. simpl. lia. }
  destruct (numeric_identifier_bounds x Hx) as [->|Hbx],
    (numeric_identifier_bounds y Hy) as [->|Hby]; try done.
  - pose proof (Hpos y Hy). assert (1 <= 10 ^ (len y - 1))%N by (apply N.pow_lower_bound; lia).
    change (Str.digits "0") with 0%N in Heq. lia.
  - pose proof (Hpos x Hx). assert (1 <= 10 ^ (len x - 1))%N by (apply N.pow_lower_bound; lia).
    change (Str.digits "0") with 0%N in Heq. lia.
  - assert (len x = len y) as Hlen.
    { pose proof (Hpos x Hx). pose proof (Hpos y Hy).
      destruct (N.lt_trichotomy (len x) (len y)) as [Hlt|[?|Hlt]]; [|done|].
      - assert (10 ^ len x <= 10 ^ (len y - 1))%N by (apply N.pow_le_mono_r; lia). lia.
      - assert (10 ^ len y <= 10 ^ (len x - 1))%N by (apply N.pow_le_mono_r; lia). lia. }
    unfold len in Hlen. apply Nat2N.inj in Hlen.
    by destruct (digits_go_inj x y 0%N 0%N Hlen Hdx Hdy Heq).
Qed.

Lemma match_full_prerelease s ma mi pa pre bld :
  match_full s = Some (ma, mi, pa, pre, bld) ->
  Forall (fun id => prerelease_identifier id = true) pre.
Proof.
  unfold match_full.
  destruct (Str.break "+" _) as [front b].
  destruct (Str.break "-" front) as [main p].
  destruct (Str.split "." main) as [|x1 [|x2 [|x3 [|]]]]; try done.
  destruct (_ && _) eqn:Hcond; [|done]. intros [= <- <- <- <- <-].
  rewrite !andb_true_iff in Hcond. destruct Hcond as [[_ Hpre] _].
  apply Forall_forall. intros id Hin. rewrite forallb_forall in Hpre.
  apply Hpre. by apply list_elem_of_In.
Qed.

Lemma new_prerelease a va :
  new a = Ok va -> Forall (fun id => prerelease_identifier id = true) (prerelease va).
Proof.
  unfold new. case_decide; [done|].
  destruct (match_full (Str.trim a)) as [[[[[ma mi] pa] pre] bld]|] eqn:Hm; [|done].
  repeat (destruct (_ <? _)%N; [done|]). intros [= <-]. simpl.
  by eapply match_full_prerelease.
Qed.

Lemma compareIdentifiers_Eq x y :
  prerelease_identifier x = true -> prerelease_identifier y = true ->
  (Str.all_digits x = true -> (Str.digits x < 2 ^ 53)%N) ->
  compareIdentifiers x y = Eq -> x = y.
Proof.
  unfold prerelease_identifier, compareIdentifiers. rewrite !andb_true_iff.
  intros [_ Hx] [_ Hy] Hsmall.
  destruct (Str.all_digits x) eqn:Hdx, (Str.all_digits y) eqn:Hdy; simpl in *; try done.
  - intros Heq%N.compare_eq_iff. specialize (Hsmall eq_refl).
    rewrite (to_double_small _ Hsmall) in Heq.
    destruct (N.lt_ge_cases (Str.digits y) (2 ^ 53)) as [Hlt|Hge].
    + rewrite (to_double_small _ Hlt) in Heq. by apply digits_inj.
    + pose proof (to_double_large _ Hge). lia.
  - apply String.compare_eq_iff.
Qed.

Lemma comparePre_loop_Eq pa : forall pb,
  Forall (fun id => prerelease_identifier id = true) pa ->
  Forall (fun id => prerelease_identifier id = true) pb ->
  Forall (fun id => Str.all_digits id = true -> (Str.digits id < 2 ^ 53)%N) pa ->
  comparePre_loop pa pb = Eq -> pa = pb.
Proof.
  induction pa as [|x pa IH]; intros [|y pb] Ha Hb Hs; simpl; try done.
  apply Forall_cons in Ha as [Hx Ha]. apply Forall_cons in Hb as [Hy Hb].
  apply Forall_cons in Hs as [Hsx Hs].
  case_decide as Hxy.
  - subst y. intros H. f_equal. by apply IH.
  - intros H. by destruct Hxy; apply compareIdentifiers_Eq.
Qed.

(** Away from the numeric identifiers that a double cannot hold exactly,
    two versions compare equal exactly when they are the same but for
    build metadata. *)
Lemma compareSemVer_Eq va vb a b :
  new a = Ok va -> new b = Ok vb -> exact_identifiers va ->
  compareSemVer va vb = Eq <->
  major va = major vb /\ minor va = minor vb /\ patch va = patch vb /\
  prerelease va = prerelease vb.
Proof.
  intros Ha%new_prerelease Hb%new_prerelease Hexact. unfold compareSemVer. split.
  - destruct (compareMain va vb) eqn:Hmain; try done.
    apply compareMain_eq in Hmain as (? & ? & ?). intros Hpre.
    repeat split; try done. unfold comparePre in Hpre.
    unfold exact_identifiers in Hexact.
    destruct (prerelease va) as [|x pa] eqn:Hva, (prerelease vb) as [|y pb] eqn:Hvb; try done.
    by apply comparePre_loop_Eq.
  - intros (H1 & H2 & H3 & H4).
    assert (compareMain va vb = Eq) as -> by (by apply compareMain_eq).
    unfold comparePre. rewrite H4. destruct (prerelease vb); [done|].
    apply comparePre_loop_refl.
Qed.

Lemma compare_Eq_same_version a b va :
  new a = Ok va -> exact_identifiers va ->
  compare a b = Ok Eq <-> same_version a b.
Proof.
  intros Ha Hexact. unfold Semver.compare, same_version. rewrite Ha. simpl. split.
  - destruct (new b) as [vb|] eqn:Hb; simpl; [|done]. intros [= Heq].
    exists va, vb. repeat split; try done; by eapply (compareSemVer_Eq va vb).
  - intros (va' & vb & [= <-] & Hb & Hsame). rewrite Hb. simpl. f_equal.
    by eapply (compareSemVer_Eq va vb).
Qed.

End SemverFacts.

(** ** Doubles, and the intervals [ms] reads *)

Module DoubleFacts.
Import Double.
Local Open Scope Z_scope.

Lemma round_half_even_exact q b : 0 < b -> round_half_even (q * b) b = q.
Proof.
  intros Hb. unfold round_half_even.
  rewrite Z.div_mul, Z.mod_mul by lia. rewrite Z.mul_0_r.
  destruct (Z.ltb_spec 0 b); [done|lia].
Qed.

(** An integer below 2^53 is a double, whatever power of two it is
    written over. *)
Lemma nearest_pos_exact T j :
  0 < T < 2 ^ 53 -> 0 <= j ->
  nearest_pos (T * 2 ^ j) (2 ^ j) = mk (T * 2 ^ (52 - Z.log2 T)) (Z.log2 T - 52).
Proof.
  intros [HT0 HT] Hj. unfold nearest_pos.
  assert (0 <= Z.log2 T < 53) as [Hl0 Hl].
  { split; [apply Z.log2_nonneg|]. by apply Z.log2_lt_pow2. }
  pose proof (Z.log2_spec T HT0) as [Hlow Hhigh].
  assert (0 < 2 ^ j) as Hpj by (by apply Z.pow_pos_nonneg).
  rewrite Z.log2_mul_pow2, Z.log2_pow2 by lia.
  replace (j + Z.log2 T - j - 53) with (Z.log2 T - 53) by lia.
  unfold scaled at 1. destruct (Z.leb_spec 0 (Z.log2 T - 53)) as [|_]; [lia|].
  replace (- (Z.log2 T - 53)) with (53 - Z.log2 T) by lia.
  assert (2 ^ 53 * 2 ^ j <= T * 2 ^ j * 2 ^ (53 - Z.log2 T)) as Hge.
  { assert (2 ^ 53 = 2 ^ Z.log2 T * 2 ^ (53 - Z.log2 T)) as ->.
    { rewrite <- Z.pow_add_r by lia. f_equal. lia. }
    assert (0 < 2 ^ (53 - Z.log2 T)) by (apply Z.pow_pos_nonneg; lia). nia. }
  destruct (Z.ltb_spec (T * 2 ^ j * 2 ^ (53 - Z.log2 T)) (2 ^ 53 * 2 ^ j)) as [|_]; [lia|].
  replace (Z.log2 T - 53 + 1) with (Z.log2 T - 52) by lia.
  unfold scaled. destruct (Z.leb_spec 0 (Z.log2 T - 52)) as [Hz|Hneg].
  - assert (Z.log2 T = 52) as Heq by lia. rewrite Heq. simpl (52 - 52). simpl (2 ^ 0).
    rewrite !Z.mul_1_r. by rewrite round_half_even_exact.
  - replace (- (Z.log2 T - 52)) with (52 - Z.log2 T) by lia.
    replace (T * 2 ^ j * 2 ^ (52 - Z.log2 T)) with (T * 2 ^ (52 - Z.log2 T) * 2 ^ j) by lia.
    by rewrite round_half_even_exact.
Qed.

Lemma nearest_exact T : 0 < T < 2 ^ 53 -> nearest T 1 = mk (T * 2 ^ (52 - Z.log2 T)) (Z.log2 T - 52).
Proof.
  intros HT. unfold nearest.
  destruct (Z.eqb_spec T 0); [lia|]. destruct (Z.ltb_spec T 0); [lia|].
  pose proof (nearest_pos_exact T 0 HT) as Hexact. simpl (2 ^ 0) in Hexact.
  rewrite Z.mul_1_r in Hexact. apply Hexact. lia.
Qed.

(** The product of two integers, when it is below 2^53, is computed
    exactly. *)
Lemma mul_exact a k :
  0 < a -> 0 < k -> a * k < 2 ^ 53 ->
  mul (nearest a 1) k = mk (a * k * 2 ^ (52 - Z.log2 (a * k))) (Z.log2 (a * k) - 52).
Proof.
  intros Ha Hk HT.
  assert (0 < a < 2 ^ 53) as Ha' by nia.
  rewrite nearest_exact by done. unfold mul. cbn [mantissa exponent].
  assert (0 <= Z.log2 a < 53) as [Hl0 Hl].
  { split; [apply Z.log2_nonneg|]. apply Z.log2_lt_pow2; lia. }
  unfold scaled. destruct (Z.leb_spec 0 (- (Z.log2 a - 52))) as [_|]; [|lia].
  replace (- (Z.log2 a - 52)) with (52 - Z.log2 a) by lia. rewrite Z.mul_1_l.
  unfold nearest.
  assert (0 < 2 ^ (52 - Z.log2 a)) by (apply Z.pow_pos_nonneg; lia).
  destruct (Z.eqb_spec (a * 2 ^ (52 - Z.log2 a) * k) 0); [nia|].
  destruct (Z.ltb_spec (a * 2 ^ (52 - Z.log2 a) * k) 0); [nia|].
  replace (a * 2 ^ (52 - Z.log2 a) * k) with (a * k * 2 ^ (52 - Z.log2 a)) by lia.
  apply nearest_pos_exact; lia.
Qed.

Lemma Z_gt_exact T z :
  0 < T < 2 ^ 53 ->
  Z_gt z (mk (T * 2 ^ (52 - Z.log2 T)) (Z.log2 T - 52)) = (T <? z).
Proof.
  intros [HT0 HT]. unfold Z_gt. cbn [mantissa exponent].
  assert (0 <= Z.log2 T < 53) as [Hl0 Hl].
  { split; [apply Z.log2_nonneg|]. by apply Z.log2_lt_pow2. }
  destruct (Z.leb_spec 0 (Z.log2 T - 52)) as [Hz|Hneg].
  - assert (Z.log2 T = 52) as -> by lia. simpl (52 - 52). simpl (2 ^ 0). by rewrite !Z.mul_1_r.
  - replace (- (Z.log2 T - 52)) with (52 - Z.log2 T) by lia.
    assert (0 < 2 ^ (52 - Z.log2 T)) by (apply Z.pow_pos_nonneg; lia).
    destruct (Z.ltb_spec T z), (Z.ltb_spec (T * 2 ^ (52 - Z.log2 T)) (z * 2 ^ (52 - Z.log2 T)));
      try done; nia.
Qed.

(** [z > x] once true stays true as [z] grows. *)
Lemma Z_gt_mono z z' x : z <= z' -> Z_gt z x = true -> Z_gt z' x = true.
Proof.
  unfold Z_gt. intros Hle.
  destruct (Z.leb_spec 0 (exponent x)).
  - rewrite !Z.ltb_lt. lia.
  - assert (0 < 2 ^ (- exponent x)) by (apply Z.pow_pos_nonneg; lia).
    rewrite !Z.ltb_lt. nia.
Qed.

End DoubleFacts.

Module MsFacts.

Lemma is_digit_code a : Str.is_digit a = true -> (48 <= Str.code a <= 57)%N.
Proof. unfold Str.is_digit. rewrite andb_true_iff, !N.leb_le. lia. Qed.

Lemma length16_digits s : Str.forallb Str.is_digit s = true -> Str.length16 s = String.length s.
Proof.
  induction s as [|a s IH]; [done|]. simpl. intros [Ha Hs]%andb_true_iff.
  apply is_digit_code in Ha. rewrite IH by done.
  destruct (N.leb_spec 128 (Str.code a)); [lia|]. simpl.
  by destruct (N.leb_spec 240 (Str.code a)); [lia|].
Qed.

Lemma length16_app s t : Str.length16 (s +:+ t) = (Str.length16 s + Str.length16 t)%nat.
Proof.
  induction s as [|a s IH]; [done|].
  change (String a s +:+ t) with (String a (s +:+ t)). cbn [Str.length16]. rewrite IH. lia.
Qed.

Lemma span_digits (p : ascii -> bool) s rest :
  (forall a, Str.is_digit a = true -> p a = true) ->
  Str.forallb Str.is_digit s = true ->
  Str.span p (s +:+ rest) = (s +:+ (Str.span p rest).1, (Str.span p rest).2).
Proof.
  intros Hp. induction s as [|a s IH]; intros Hs.
  - change ("" +:+ rest) with rest. change ("" +:+ (Str.span p rest).1) with (Str.span p rest).1.
    by destruct (Str.span p rest).
  - simpl in Hs. apply andb_true_iff in Hs as [Ha Hs].
    change (String a s +:+ rest) with (String a (s +:+ rest)). cbn [Str.span].
    rewrite (Hp a Ha), (IH Hs). done.
Qed.

Lemma break_digits s : Str.forallb Str.is_digit s = true -> Str.break "." s = (s, None).
Proof.
  induction s as [|a s IH]; [done|]. simpl. intros [Ha Hs]%andb_true_iff.
  rewrite (IH Hs). apply is_digit_code in Ha.
  destruct (Ascii.eqb_spec a ".") as [->|_]; [|done].
  change (Str.code ".") with 46%N in Ha. lia.
Qed.

Lemma number_digits s :
  Str.all_digits s = true -> Ms.number s = Some (false, s, 0%nat).
Proof.
  intros Hs. unfold Ms.number.
  assert ((match s with String "-" s' => (true, s') | _ => (false, s) end) = (false, s)) as ->.
  { destruct s as [|a s]; [done|]. unfold Str.all_digits in Hs. simpl in Hs.
    apply andb_true_iff in Hs as [Ha _]. apply is_digit_code in Ha.
    destruct (Ascii.eqb_spec a "-") as [->|Hne];
      [change (Str.code "-") with 45%N in Ha; lia|].
    destruct a as [[] [] [] [] [] [] [] []]; try done. }
  unfold Str.all_digits in Hs. apply andb_true_iff in Hs as [Hne Hs].
  rewrite (break_digits s Hs). unfold Str.all_digits. by rewrite Hne, Hs.
Qed.

(** [ms] of a whole number of minutes, written in digits: the limit is
    that many times 60000, exactly. *)
Lemma parse_minutes s z :
  Str.all_digits s = true ->
  (String.length s < 100)%nat ->
  (Z.of_N (Str.digits s) * 60000 < 2 ^ 53)%Z ->
  exists limit, Ms.parse (s +:+ "m") = Some limit /\
                Double.Z_gt z limit = (Z.of_N (Str.digits s) * 60000 <? z)%Z.
Proof.
  intros Hs Hlen Hsmall. unfold Ms.parse.
  pose proof Hs as Hall. unfold Str.all_digits in Hall. apply andb_true_iff in Hall as [_ Hdigits].
  rewrite length16_app, (length16_digits s Hdigits). cbn [Str.length16].
  rewrite decide_False by (vm_compute (Str.code "m"); simpl; lia).
  rewrite span_digits; [|by intros a ->|done].
  change (Str.span _ "m") with ("", "m"). cbn [fst snd].
  change (Str.span (fun a => Ascii.eqb a " ") "m") with ("", "m"). cbn iota.
  assert (s +:+ "" = s) as -> by (clear; induction s as [|a s IH]; [done|];
                                  change (String a s +:+ "") with (String a (s +:+ ""));
                                  by rewrite IH).
  rewrite (number_digits s Hs). cbn [mbind option_bind Str.nonempty Str.toLowerCase].
  change (Ms.unit_of (String (Str.lower "m") "")) with (Some 60000%Z). cbn [mbind option_bind].
  simpl (10 ^ Z.of_nat 0)%Z.
  destruct (Z.eqb_spec (Z.of_N (Str.digits s)) 0) as [H0|Hne].
  - rewrite H0. eexists. split; [reflexivity|]. vm_compute Double.mul.
    unfold Double.Z_gt. simpl. by rewrite Z.mul_1_r.
  - eexists. split; [reflexivity|].
    rewrite DoubleFacts.mul_exact by lia. apply DoubleFacts.Z_gt_exact. lia.
Qed.

End MsFacts.

(** ** Selecting the latest release of each environment *)

Section Selection.

Implicit Types (data l : list GitHub.Release) (latest m : gmap string GitHub.Release).

Lemma forEach_snoc {S A} (f : S -> A -> result S) (l : list A) : forall acc x,
  forEach f acc (l ++ [x]) = (acc' ← forEach f acc l; f acc' x).
Proof.
  induction l as [|y l IH]; intros acc x; simpl.
  - by destruct (f acc x).
  - destruct (f acc y) as [acc'|]; simpl; [apply IH|done].
Qed.

Lemma select_latest_consider data : select_latest data = forEach consider ∅ data.
Proof.
  unfold select_latest. generalize (∅ : gmap string GitHub.Release).
  induction data as [|r data IH]; intros m; [done|].
  rewrite filter_cons. unfold consider at 1. simpl.
  destruct (GitHub.draft r) eqn:Hd.
  - rewrite decide_False by done. apply IH.
  - rewrite decide_True by done. simpl.
    destruct (select_release m r); simpl; [apply IH|done].
Qed.

Lemma consider_not_candidate m r m' :
  consider m r = Ok m' -> (forall e, ~ candidate e r) -> m' = m.
Proof.
  unfold consider, select_release, candidate. intros H Hn.
  destruct (GitHub.draft r) eqn:Hd; [by injection H|].
  destruct (Str.nonempty (GitHub.tag_name r)) eqn:Ht; simpl in H; [|by injection H].
  case_bool_decide as Ha; simpl in H; [|by injection H].
  exfalso. apply (Hn (environment_of (GitHub.tag_name r))).
  repeat split; try done. by intros Heq; rewrite Heq in Ht.
Qed.

Lemma consider_candidate m r e :
  candidate e r ->
  consider m r =
    match js_get m e with
    | Undefined => Ok (<[e := r]> m)
    | current =>
        newer ← gt_current (GitHub.tag_name r) current;
        Ok (if newer : bool then <[e := r]> m else m)
    end.
Proof.
  intros (Hd & Ht & Ha & <-). unfold consider, select_release. rewrite Hd.
  destruct (GitHub.tag_name r) eqn:Htag; [done|]. simpl.
  by rewrite bool_decide_true.
Qed.

(** Versions that are the same compare alike against any third. *)
Lemma same_version_gt a b c r :
  same_version a b -> Semver.gt a c = Ok r -> Semver.gt b c = Ok r.
Proof.
  intros (va & vb & Ha & Hb & H1 & H2 & H3 & H4) (va' & vc & Ha' & Hc & ->)%SemverFacts.gt_Ok.
  rewrite Ha in Ha'. injection Ha' as <-.
  apply SemverFacts.gt_Ok. exists vb, vc. repeat split; try done.
  unfold Semver.compareSemVer, Semver.compareMain, Semver.comparePre.
  by rewrite H1, H2, H3, H4.
Qed.

Lemma same_version_not_gt a b : same_version a b -> Semver.gt b a = Ok false.
Proof.
  intros Hs. apply (same_version_gt a b a); [done|].
  destruct Hs as (va & vb & Ha & _).
  apply SemverFacts.gt_Ok. exists va, va. by rewrite SemverFacts.compareSemVer_refl.
Qed.

Lemma gt_false_trans a b c :
  Semver.gt c b = Ok false -> Semver.gt a b = Ok true -> Semver.gt c a = Ok false.
Proof.
  intros Hcb Hab.
  pose proof Hcb as (vc & vb & Hc & Hb & _)%SemverFacts.gt_Ok.
  pose proof Hab as (va & vb' & Ha & _)%SemverFacts.gt_Ok.
  destruct (Semver.gt c a) as [[]|] eqn:Hca; [|done|].
  - by rewrite (SemverFacts.gt_trans _ _ _ Hca Hab) in Hcb.
  - unfold Semver.gt, Semver.compare in Hca. by rewrite Hc, Ha in Hca.
Qed.

Lemma selected_at_snoc_skip l e i r x :
  selected_at l e i r ->
  (candidate e x -> Semver.gt (GitHub.tag_name x) (GitHub.tag_name r) = Ok false) ->
  selected_at (l ++ [x]) e i r.
Proof.
  intros (Hi & Hc & Hmax) Hx. split; [by apply lookup_app_l_Some|]. split; [done|].
  intros j c [[Hj Hjc]|[-> <-]]%lookup_snoc_Some Hcand Hne; [by apply Hmax|].
  split; [by apply Hx|]. apply lookup_lt_Some in Hi. lia.
Qed.

Lemma selected_at_snoc_replace l e i r x :
  selected_at l e i r -> candidate e x ->
  Semver.gt (GitHub.tag_name x) (GitHub.tag_name r) = Ok true ->
  selected_at (l ++ [x]) e (length l) x.
Proof.
  intros (Hi & Hc & Hmax) Hx Hgt.
  split; [by apply list_lookup_middle|]. split; [done|].
  intros j c [[Hj Hjc]|[-> <-]]%lookup_snoc_Some Hcand Hne; [|done].
  destruct (decide (j = i)) as [->|Hji].
  - rewrite Hi in Hjc. injection Hjc as <-. split.
    + by apply SemverFacts.gt_asym.
    + intros _ Hs. by rewrite (same_version_not_gt _ _ Hs) in Hgt.
  - destruct (Hmax j c Hjc Hcand Hji) as [Hcr _]. split.
    + by eapply gt_false_trans.
    + intros _ Hs. apply (same_version_gt _ _ _ _ Hs) in Hcr.
      by rewrite Hcr in Hgt.
Qed.

Lemma selected_at_snoc_first l e x :
  (forall c, c ∈ l -> ~ candidate e c) -> candidate e x ->
  selected_at (l ++ [x]) e (length l) x.
Proof.
  intros Hnone Hx. split; [by apply list_lookup_middle|]. split; [done|].
  intros j c [[Hj Hjc]|[-> <-]]%lookup_snoc_Some Hcand Hne; [|done].
  destruct (Hnone c); [by eapply list_elem_of_lookup_2|done].
Qed.

Lemma candidate_environment e e' r : candidate e r -> candidate e' r -> e = e'.
Proof. intros (_ & _ & _ & <-) (_ & _ & _ & <-). done. Qed.

Lemma chosen_step l m x m' :
  chosen l m -> consider m x = Ok m' -> chosen (l ++ [x]) m'.
Proof.
  intros Hinv Hstep.
  destruct (decide (GitHub.draft x = false /\ GitHub.tag_name x <> ""
                    /\ is_Some (GitHub.assets x))) as [Hc|Hn].
  - set (ex := environment_of (GitHub.tag_name x)).
    assert (candidate ex x) as Hx by (by destruct Hc as (? & ? & ?)).
    rewrite (consider_candidate _ _ _ Hx) in Hstep.
    assert (forall e, e <> ex -> ~ candidate e x) as Hother.
    { intros e Hne Hcand. by destruct Hne; eapply candidate_environment. }
    pose proof (Hinv ex) as Hex. unfold js_get in Hstep.
    destruct (m !! ex) as [cur|] eqn:Hm.
    + destruct Hex as [i Hsel]. simpl in Hstep.
      destruct (Semver.gt (GitHub.tag_name x) (GitHub.tag_name cur)) as [newer|] eqn:Hgt;
        [|done]. injection Hstep as <-.
      intros e. destruct (decide (e = ex)) as [->|Hne].
      * destruct newer.
        -- rewrite lookup_insert_eq. eexists. by eapply selected_at_snoc_replace.
        -- rewrite Hm. exists i. by apply selected_at_snoc_skip.
      * assert (match (if newer then <[ex:=x]> m else m) !! e with
                | Some r => m !! e = Some r | None => m !! e = None end) as Hlook.
        { destruct newer; [rewrite lookup_insert_ne by done|]; by destruct (m !! e). }
        specialize (Hinv e).
        destruct ((if newer then <[ex:=x]> m else m) !! e) as [r|]; rewrite Hlook in Hinv.
        -- destruct Hinv as [k Hk]. exists k. apply selected_at_snoc_skip; [done|].
           intros Hcand. by destruct (Hother e).
        -- intros c [Hin| ->%list_elem_of_singleton]%elem_of_app; [by apply Hinv|].
           by apply Hother.
    + destruct (bool_decide (ex ∈ Object_prototype)).
      { simpl in Hstep. by destruct (Semver.new (GitHub.tag_name x)). }
      injection Hstep as <-.
      intros e. destruct (decide (e = ex)) as [->|Hne].
      * rewrite lookup_insert_eq. eexists. by apply selected_at_snoc_first.
      * rewrite lookup_insert_ne by done. specialize (Hinv e).
        destruct (m !! e) as [r|].
        -- destruct Hinv as [k Hk]. exists k. apply selected_at_snoc_skip; [done|].
           intros Hcand. by destruct (Hother e).
        -- intros c [Hin| ->%list_elem_of_singleton]%elem_of_app; [by apply Hinv|].
           by apply Hother.
  - assert (forall e, ~ candidate e x) as Hno.
    { intros e (? & ? & ? & _). by apply Hn. }
    rewrite (consider_not_candidate _ _ _ Hstep Hno).
    intros e. specialize (Hinv e). destruct (m !! e) as [r|].
    + destruct Hinv as [k Hk]. exists k. apply selected_at_snoc_skip; [done|].
      intros Hcand. by destruct (Hno e).
    + intros c [Hin| ->%list_elem_of_singleton]%elem_of_app; [by apply Hinv|done].
Qed.

Lemma forEach_chosen l : forall m, forEach consider ∅ l = Ok m -> chosen l m.
Proof.
  induction l as [|x l IH] using rev_ind; intros m.
  - intros [= <-] e. rewrite lookup_empty. by intros c ?%elem_of_nil.
  - rewrite forEach_snoc. destruct (forEach consider ∅ l) as [m0|]; [|done].
    simpl. intros Hstep. by eapply chosen_step; [apply IH|].
Qed.

(** What [select_latest] holds for an environment, when it returns. *)
Lemma select_latest_selected data latest e r :
  select_latest data = Ok latest -> latest !! e = Some r ->
  exists i, selected_at data e i r.
Proof.
  rewrite select_latest_consider. intros H%forEach_chosen Hr.
  specialize (H e). by rewrite Hr in H.
Qed.

Lemma select_latest_none data latest e c :
  select_latest data = Ok latest -> latest !! e = None -> c ∈ data -> ~ candidate e c.
Proof.
  rewrite select_latest_consider. intros H%forEach_chosen Hr.
  specialize (H e). rewrite Hr in H. apply H.
Qed.

End Selection.

(** ** Building the index *)

Section Indexing.

Variable checkPlatform : string -> option string.

Lemma fromEntries_snoc {V} (l : list (string * V)) k v :
  fromEntries (l ++ [(k, v)]) = <[k := v]> (fromEntries l).
Proof. unfold fromEntries. by rewrite foldl_snoc. Qed.

Lemma fromEntries_lookup {V} (l : list (string * V)) k v :
  fromEntries l !! k = Some v -> (k, v) ∈ l.
Proof.
  induction l as [|[k' v'] l IH] using rev_ind.
  - unfold fromEntries. simpl. by rewrite lookup_empty.
  - rewrite fromEntries_snoc, elem_of_app, list_elem_of_singleton.
    destruct (decide (k' = k)) as [->|Hne].
    + rewrite lookup_insert_eq. intros [= ->]. by right.
    + rewrite lookup_insert_ne by done. auto.
Qed.

Lemma fromEntries_empty {V} (l : list (string * V)) : fromEntries l = ∅ <-> l = [].
Proof.
  split; [|by intros ->].
  destruct l as [|[k v] l _] using rev_ind; [done|].
  rewrite fromEntries_snoc. intros H. by destruct (insert_non_empty _ _ _ H).
Qed.

Lemma platform_entry_Some asset p a :
  platform_entry checkPlatform asset = Some (p, a) ->
  resolves checkPlatform (GitHub.name asset) p /\ Index.name a = GitHub.name asset.
Proof.
  unfold platform_entry, resolves.
  destruct (truthy (checkPlatform (GitHub.name asset))) as [q|]; simpl; [|done].
  by intros [= <- <-].
Qed.

Lemma environment_entry_Some r rel :
  environment_entry checkPlatform r = Some rel ->
  Index.version rel = GitHub.tag_name r /\ Index.notes rel = GitHub.body r /\
  Index.pub_date rel = GitHub.published_at r /\
  Index.platforms rel <> ∅ /\
  forall p a, Index.platforms rel !! p = Some a ->
    resolves checkPlatform (Index.name a) p /\
    exists asset, asset ∈ default [] (GitHub.assets r) /\ Index.name a = GitHub.name asset.
Proof.
  unfold environment_entry. case_decide as Hsize; [done|]. intros [= <-]. simpl.
  repeat split; try done.
  - by rewrite <-map_size_empty_iff.
  - apply fromEntries_lookup, list_elem_of_omap in H as (asset & Hin & Hentry).
    apply platform_entry_Some in Hentry as [Hres ->]. done.
  - apply fromEntries_lookup, list_elem_of_omap in H as (asset & Hin & Hentry).
    apply platform_entry_Some in Hentry as [_ Hname]. eauto.
Qed.

Lemma environment_entry_None r :
  (forall asset, asset ∈ default [] (GitHub.assets r) ->
                 truthy (checkPlatform (GitHub.name asset)) = None) ->
  environment_entry checkPlatform r = None.
Proof.
  intros Hnone. unfold environment_entry.
  assert (omap (platform_entry checkPlatform) (default [] (GitHub.assets r)) = []) as ->.
  { induction (default [] (GitHub.assets r)) as [|a l IH]; [done|]. simpl.
    unfold platform_entry at 1. rewrite Hnone by apply list_elem_of_here. simpl.
    apply IH. intros asset Hin. apply Hnone. by apply list_elem_of_further. }
  done.
Qed.

(** [release.assets.map] never meets a release without an asset list:
    the loop before it only keeps releases that have one. *)
Lemma index_releases_Ok data index :
  index_releases checkPlatform data = Ok index <->
  exists latest, select_latest data = Ok latest /\
                 index = omap (environment_entry checkPlatform) latest.
Proof.
  unfold index_releases. destruct (select_latest data) as [latest|] eqn:Hsel; simpl.
  - unfold build_index. rewrite decide_True.
    + split; [intros [= <-]; eauto|]. by intros (? & [= <-] & ->).
    + intros e r Hr. destruct (select_latest_selected _ _ _ _ Hsel Hr) as (i & _ & Hc & _).
      by destruct Hc as (_ & _ & ? & _).
  - split; [done|]. by intros (? & ? & _).
Qed.

Lemma index_releases_lookup data index e rel :
  index_releases checkPlatform data = Ok index -> index !! e = Some rel ->
  exists i r, selected_at data e i r /\ environment_entry checkPlatform r = Some rel.
Proof.
  intros (latest & Hsel & ->)%index_releases_Ok (r & Hentry & Hr)%lookup_omap_Some.
  destruct (select_latest_selected _ _ _ _ Hsel Hr) as [i Hi]. eauto.
Qed.

Lemma environment_entry_is_Some r :
  is_Some (environment_entry checkPlatform r) <->
  exists asset, asset ∈ default [] (GitHub.assets r) /\
                is_Some (truthy (checkPlatform (GitHub.name asset))).
Proof.
  split.
  - intros [rel Hrel]. apply environment_entry_Some in Hrel as (_ & _ & _ & Hne & Hres).
    apply map_choose in Hne as (p & a & Hp).
    destruct (Hres p a Hp) as (Hr & asset & Hin & Hname).
    exists asset. split; [done|]. rewrite <- Hname. by rewrite Hr.
  - intros (asset & Hin & [p Hp]). unfold environment_entry.
    case_decide as Hsize; [|by eexists]. exfalso.
    apply map_size_empty_iff, fromEntries_empty in Hsize.
    assert ((p, {| Index.name := GitHub.name asset;
                   Index.api_url := GitHub.url asset;
                   Index.url := GitHub.browser_download_url asset;
                   Index.content_type := GitHub.content_type asset;
                   Index.size := ((GitHub.size asset + 50000) / 100000)%N |})
            ∈ omap (platform_entry checkPlatform) (default [] (GitHub.assets r))) as Helem.
    { apply list_elem_of_omap. exists asset. split; [done|].
      unfold platform_entry. by rewrite Hp. }
    rewrite Hsize in Helem. by apply elem_of_nil in Helem.
Qed.

(** The entry of an environment is the one built from the release the
    selection chose for it, if it chose one. *)
Lemma index_releases_entry data index e :
  index_releases checkPlatform data = Ok index ->
  ((forall c, c ∈ data -> ~ candidate e c) /\ index !! e = None) \/
  (exists i r, selected_at data e i r /\ index !! e = environment_entry checkPlatform r).
Proof.
  intros (latest & Hsel & ->)%index_releases_Ok. rewrite lookup_omap.
  destruct (latest !! e) as [r|] eqn:Hr.
  - right. destruct (select_latest_selected _ _ _ _ Hsel Hr) as [i Hi]. by exists i, r.
  - left. split; [|done]. intros c. by eapply select_latest_none.
Qed.

Lemma selected_at_maximum data e i r j c :
  selected_at data e i r -> data !! j = Some c -> candidate e c -> j <> i ->
  version_ge (GitHub.tag_name r) (GitHub.tag_name c).
Proof.
  intros (_ & _ & Hmax) Hj Hcand Hne.
  destruct (Hmax j c Hj Hcand Hne) as [(vc & vr & Hvc & Hvr & Hcmp)%SemverFacts.gt_Ok _].
  exists vr, vc. repeat split; try done.
  rewrite SemverFacts.compareSemVer_antisym.
  by destruct (Semver.compareSemVer vc vr).
Qed.

(** C1, as the code has it.  When the releases index without an
    exception, the entry of an environment is the one built from a
    release of the data that is not a draft, has a tag and an asset list
    and names that environment, and whose version is at least that of
    every other such release of the environment: the maximum in the
    order of versions.  An environment is without an entry only when the
    data holds no such release for it, or when none of the assets of the
    release chosen for it resolves to a platform.  Tags are not
    validated: a release that is the only such release of its
    environment is the one chosen whatever its tag, and the environment
    then has an entry exactly when one of its assets resolves. *)
Theorem latest_is_maximum data index e :
  index_releases checkPlatform data = Ok index ->
  (forall rel, index !! e = Some rel ->
     exists i r,
       data !! i = Some r /\ GitHub.draft r = false /\ candidate e r /\
       environment_entry checkPlatform r = Some rel /\
       Index.version rel = GitHub.tag_name r /\ Index.notes rel = GitHub.body r /\
       Index.pub_date rel = GitHub.published_at r /\
       forall j c, data !! j = Some c -> candidate e c -> j <> i ->
         version_ge (GitHub.tag_name r) (GitHub.tag_name c)) /\
  (index !! e = None ->
     (forall c, c ∈ data -> ~ candidate e c) \/
     exists i r,
       data !! i = Some r /\ GitHub.draft r = false /\ candidate e r /\
       (forall j c, data !! j = Some c -> candidate e c -> j <> i ->
          version_ge (GitHub.tag_name r) (GitHub.tag_name c)) /\
       forall asset, asset ∈ default [] (GitHub.assets r) ->
         truthy (checkPlatform (GitHub.name asset)) = None) /\
  (forall i r,
     data !! i = Some r -> candidate e r ->
     (forall j c, data !! j = Some c -> candidate e c -> j = i) ->
     index !! e = environment_entry checkPlatform r /\
     (is_Some (index !! e) <->
      exists asset, asset ∈ default [] (GitHub.assets r) /\
                    is_Some (truthy (checkPlatform (GitHub.name asset))))).
Proof.
  intros Hidx.
  destruct (index_releases_entry data index e Hidx) as [[Hno Hnone]|(i & r & Hsel & Hentry)].
  - split; [by rewrite Hnone|]. split; [by left|].
    intros i r Hi Hc _. destruct (Hno r); [by eapply list_elem_of_lookup_2|done].
  - pose proof Hsel as (Hi & Hc & _). split; [|split].
    + intros rel Hrel. exists i, r. rewrite Hentry in Hrel.
      destruct (environment_entry_Some _ _ Hrel) as (Hversion & Hnotes & Hdate & _).
      repeat split; try done; try apply Hc. intros j c. by apply selected_at_maximum.
    + intros Hnone. right. exists i, r.
      repeat split; try done; try apply Hc; [intros j c; by apply selected_at_maximum|].
      intros asset Hin. destruct (truthy (checkPlatform (GitHub.name asset))) eqn:Hp; [|done].
      assert (is_Some (environment_entry checkPlatform r)) as [rel Hrel].
      { apply environment_entry_is_Some. exists asset. by rewrite Hp. }
      congruence.
    + intros i' r' Hi' Hc' Honly. rewrite (Honly i r Hi Hc) in Hi. rewrite Hi' in Hi.
      injection Hi as ->. split; [done|]. rewrite Hentry. apply environment_entry_is_Some.
Qed.

(** C4, as the code has it.  A release replaces the one held for its
    environment only when it is strictly greater, so of two releases of
    an environment that carry the same version the later one is never
    the one retained: the entry of the environment is the one built from
    a release that sits at another position than the later one's, and
    that comes first in the data among all the releases of the
    environment that carry its version. *)
Theorem tie_keeps_earlier data index e i j a b :
  index_releases checkPlatform data = Ok index ->
  data !! i = Some a -> data !! j = Some b -> i < j ->
  candidate e a -> candidate e b ->
  same_version (GitHub.tag_name a) (GitHub.tag_name b) ->
  exists k r,
    data !! k = Some r /\ candidate e r /\
    index !! e = environment_entry checkPlatform r /\
    (forall rel, index !! e = Some rel ->
       Index.version rel = GitHub.tag_name r /\ Index.notes rel = GitHub.body r /\
       Index.pub_date rel = GitHub.published_at r) /\
    k <> j /\
    (forall m c, data !! m = Some c -> candidate e c ->
       same_version (GitHub.tag_name c) (GitHub.tag_name r) -> k <= m).
Proof.
  intros Hidx Ha Hb Hij Hca Hcb Hsame.
  destruct (index_releases_entry data index e Hidx) as [[Hno _]|(k & r & Hsel & Hentry)].
  { destruct (Hno a); [by eapply list_elem_of_lookup_2|done]. }
  pose proof Hsel as (Hk & Hc & Hmax).
  exists k, r. split; [done|]. split; [done|]. split; [done|]. split; [|split].
  - intros rel Hrel. rewrite Hentry in Hrel.
    by destruct (environment_entry_Some _ _ Hrel) as (? & ? & ? & _).
  - intros ->. rewrite Hb in Hk. injection Hk as <-.
    destruct (Hmax i a Ha Hca) as [_ Hfirst]; [lia|]. by apply Hfirst.
  - intros m c Hm Hcm Hsame'. destruct (decide (k <= m)) as [|Hlt]; [done|].
    destruct (Hmax m c Hm Hcm) as [_ Hfirst]; [lia|]. destruct Hfirst; [lia|done].
Qed.

Lemma index_releases_resolved data index :
  index_releases checkPlatform data = Ok index -> platforms_resolved checkPlatform index.
Proof.
  intros (latest & Hsel & ->)%index_releases_Ok e rel (r & Hentry & Hr)%lookup_omap_Some.
  apply environment_entry_Some in Hentry as (_ & _ & _ & Hne & Hres).
  split; [done|]. intros p a Hp. by destruct (Hres p a Hp).
Qed.

(** C8.  In an index built from upstream data, every platform table is
    non-empty and holds only assets whose file name resolves, under the
    key it resolves to; an environment whose retained release has no
    asset that resolves has no entry at all. *)
Theorem platform_filtering data index :
  index_releases checkPlatform data = Ok index ->
  platforms_resolved checkPlatform index /\
  forall latest e r,
    select_latest data = Ok latest -> latest !! e = Some r ->
    (forall asset, asset ∈ default [] (GitHub.assets r) ->
                   truthy (checkPlatform (GitHub.name asset)) = None) ->
    index !! e = None.
Proof.
  intros Hidx. split; [by eapply index_releases_resolved|].
  apply index_releases_Ok in Hidx as (latest & Hsel & ->).
  intros latest' e r Hsel' Hr Hnone. rewrite Hsel in Hsel'. injection Hsel' as <-.
  rewrite lookup_omap, Hr. simpl. by apply environment_entry_None.
Qed.

End Indexing.

(** ** Retrying *)

Section MainError.

Lemma count_message_snoc m errors e :
  count_message m (errors ++ [e]) =
  (count_message m errors + if decide (message e = m) then 1 else 0)%nat.
Proof.
  unfold count_message. rewrite filter_app, length_app. f_equal.
  rewrite filter_cons, filter_nil. by case_decide.
Qed.

Lemma counted_foldl l : counted l (foldl mainError_step (∅, None, 0%nat) l).
Proof.
  induction l as [|x l IH] using rev_ind.
  - simpl. split; [intros m; by rewrite lookup_empty|].
    split; [done|]. split; [done|]. by left.
  - rewrite foldl_snoc.
    destruct (foldl mainError_step (∅, None, 0%nat) l) as [[counts main] n].
    destruct IH as (Hcounts & Hmain & Hsome & Hn). unfold mainError_step.
    assert (forall m, default 0%nat (<[message x := (default 0 (counts !! message x) + 1)%nat]>
                                       counts !! m) = count_message m (l ++ [x])) as Hcounts'.
    { intros m. rewrite count_message_snoc. case_decide as Hm.
      - subst m. by rewrite lookup_insert_eq, Hcounts.
      - rewrite lookup_insert_ne by done. rewrite Hcounts. lia. }
    destruct (n <=? default 0%nat (counts !! message x) + 1)%nat eqn:Hle.
    + split; [done|]. split; [|split].
      * intros e [= <-]. apply elem_of_app. right. apply list_elem_of_here.
      * by intros _; eexists.
      * right. exists x. split; [apply elem_of_app; right; apply list_elem_of_here|].
        rewrite count_message_snoc, decide_True, Hcounts by done. lia.
    + split; [done|]. apply Nat.leb_gt in Hle. split; [|split].
      * intros e He. apply elem_of_app. left. by apply Hmain.
      * intros _. apply Hsome. intros ->. simpl in *. destruct Hn as [->|(e & []%elem_of_nil & _)].
        lia.
      * destruct Hn as [->|(e & He & Hn)]; [by left|]. right. exists e.
        split; [apply elem_of_app; by left|]. rewrite count_message_snoc. lia.
Qed.

Lemma mainError_elem_of errors e : mainError errors = Some e -> e ∈ errors.
Proof.
  unfold mainError. pose proof (counted_foldl errors) as H.
  destruct (foldl mainError_step (∅, None, 0%nat) errors) as [[counts main] n].
  simpl. by apply H.
Qed.

Lemma mainError_is_Some errors : errors <> [] -> is_Some (mainError errors).
Proof.
  unfold mainError. pose proof (counted_foldl errors) as H.
  destruct (foldl mainError_step (∅, None, 0%nat) errors) as [[counts main] n].
  simpl. by apply H.
Qed.

(** The last error is the main one when no message was seen more often
    than its own. *)
Lemma mainError_last errors e :
  (forall e', e' ∈ errors ->
     count_message (message e') (errors ++ [e]) <= count_message (message e) (errors ++ [e])) ->
  mainError (errors ++ [e]) = Some e.
Proof.
  intros Hmost. unfold mainError. rewrite foldl_snoc.
  pose proof (counted_foldl errors) as H.
  destruct (foldl mainError_step (∅, None, 0%nat) errors) as [[counts main] n].
  destruct H as (Hcounts & _ & _ & Hn). unfold mainError_step.
  assert (n <= default 0%nat (counts !! message e) + 1) as Hle.
  { destruct Hn as [->|(e' & He' & Hn)]; [lia|].
    specialize (Hmost e' He'). rewrite !count_message_snoc in Hmost.
    rewrite (decide_True (P := message e = message e)) in Hmost by done.
    rewrite Hcounts. case_decide; lia. }
  apply Nat.leb_le in Hle. by rewrite Hle.
Qed.

Lemma counted_main_foldl l : counted_main l (foldl mainError_step (∅, None, 0%nat) l).
Proof.
  induction l as [|x l IH] using rev_ind.
  - simpl. split; [intros m; by rewrite lookup_empty|done].
  - rewrite foldl_snoc.
    destruct (foldl mainError_step (∅, None, 0%nat) l) as [[counts main] n].
    destruct IH as (Hcounts & Hmain). unfold mainError_step.
    assert (forall m, default 0%nat (<[message x := (default 0 (counts !! message x) + 1)%nat]>
                                       counts !! m) = count_message m (l ++ [x])) as Hcounts'.
    { intros m. rewrite count_message_snoc. case_decide as Hm.
      - subst m. by rewrite lookup_insert_eq, Hcounts.
      - rewrite lookup_insert_ne by done. rewrite Hcounts. lia. }
    assert (count_message (message x) (l ++ [x]) = default 0%nat (counts !! message x) + 1)
      as Hx by (rewrite count_message_snoc, decide_True, Hcounts by done; lia).
    assert (forall m, count_message m l <= n) as Hbound.
    { intros m. destruct main as [e|]; [|destruct Hmain as [-> ->]; done].
      destruct Hmain as (-> & i & _ & Hmost & _).
      destruct (decide (count_message m l = 0)) as [->|Hpos]; [lia|].
      assert (exists e', e' ∈ l /\ message e' = m) as (e' & Hin & <-).
      { unfold count_message in Hpos.
        destruct (filter (fun e => message e = m) l) as [|e' t] eqn:Hf; [done|].
        assert (e' ∈ filter (fun e => message e = m) l) as Hin
          by (rewrite Hf; apply list_elem_of_here).
        apply list_elem_of_filter in Hin as [? ?]. by exists e'. }
      by apply Hmost. }
    destruct (n <=? default 0%nat (counts !! message x) + 1)%nat eqn:Hle.
    + apply Nat.leb_le in Hle. split; [done|]. split; [done|].
      exists (List.length l). split; [|split].
      * by rewrite list_lookup_middle.
      * intros e' _. rewrite Hx, count_message_snoc. specialize (Hbound (message e')).
        case_decide as Heq; [rewrite <- Heq, Hcounts|]; lia.
      * intros j e' Hj Hlookup. apply lookup_lt_Some in Hlookup.
        rewrite length_app in Hlookup. simpl in Hlookup. lia.
    + apply Nat.leb_gt in Hle. split; [done|].
      destruct main as [e|]; [|destruct Hmain as [_ ->]; lia].
      destruct Hmain as (-> & i & Hi & Hmost & Hafter).
      assert (message x <> message e) as Hne.
      { intros Heq. rewrite Heq, Hcounts in Hle. lia. }
      assert (count_message (message e) (l ++ [x]) = count_message (message e) l) as He
        by (rewrite count_message_snoc, decide_False by done; lia).
      rewrite He. split; [done|]. exists i. split; [|split].
      * by apply lookup_app_l_Some.
      * intros e' [Hin| ->%list_elem_of_singleton]%elem_of_app.
        -- rewrite count_message_snoc. specialize (Hmost e' Hin).
           case_decide as Heq; [rewrite <- Heq, Hcounts in *|]; lia.
        -- rewrite Hx. lia.
      * intros j e' Hj Hlookup.
        destruct (decide (j < List.length l)) as [Hlt|Hge].
        -- rewrite lookup_app_l in Hlookup by done. specialize (Hafter j e' Hj Hlookup).
           rewrite count_message_snoc.
           case_decide as Heq; [rewrite <- Heq, Hcounts in *|]; lia.
        -- assert (j = List.length l) as ->.
           { apply lookup_lt_Some in Hlookup. rewrite length_app in Hlookup.
             simpl in Hlookup. lia. }
           rewrite list_lookup_middle in Hlookup by done. injection Hlookup as <-.
           rewrite Hx. lia.
Qed.

(** The main error is the last of the errors whose message occurred
    most often. *)
Lemma mainError_main_at errors e : mainError errors = Some e -> exists i, main_at errors i e.
Proof.
  unfold mainError. pose proof (counted_main_foldl errors) as H.
  destruct (foldl mainError_step (∅, None, 0%nat) errors) as [[counts main] n].
  simpl. intros ->. by destruct H as (_ & _ & H).
Qed.

Lemma give_up_with_main_at errors last :
  errors <> [] -> exists i, main_at errors i (give_up_with errors last).
Proof.
  intros Hne. unfold give_up_with.
  destruct (mainError_is_Some errors Hne) as [e He]. rewrite He. simpl.
  by apply mainError_main_at.
Qed.

Lemma give_up_with_elem_of errors last :
  last ∈ errors -> give_up_with errors last ∈ errors.
Proof.
  intros Hin. unfold give_up_with.
  destruct (mainError errors) as [e|] eqn:He; simpl; [by apply mainError_elem_of|done].
Qed.

Lemma give_up_with_last errors e :
  (forall e', e' ∈ errors ->
     count_message (message e') (errors ++ [e]) <= count_message (message e) (errors ++ [e])) ->
  give_up_with (errors ++ [e]) e = e.
Proof. intros H. unfold give_up_with. by rewrite (mainError_last _ _ H). Qed.

End MainError.

(** ** Refreshing and reading the cache *)

Section Refresh.

Variable checkPlatform : string -> option string.
Variable net : nat -> FetchOutcome.

Local Abbreviation retry := (retry net).
Local Abbreviation refreshCache := (refreshCache checkPlatform net).
Local Abbreviation loadCache := (loadCache checkPlatform net).
Local Abbreviation nth_attempt := (nth_attempt net).

(** [retry] with three retries, attempt by attempt. *)
Lemma retry_3 cfg reqs :
  let rq := releases_request cfg in
  let n := List.length reqs in
  retry cfg 3 [] reqs =
    match attempt cfg (net n) with
    | Ok b => (Ok b, reqs ++ replicate 1 rq)
    | Throw e0 =>
        match attempt cfg (net (n + 1)) with
        | Ok b => (Ok b, reqs ++ replicate 2 rq)
        | Throw e1 =>
            match attempt cfg (net (n + 2)) with
            | Ok b => (Ok b, reqs ++ replicate 3 rq)
            | Throw e2 =>
                match attempt cfg (net (n + 3)) with
                | Ok b => (Ok b, reqs ++ replicate 4 rq)
                | Throw e3 =>
                    (Throw (give_up_with [e0; e1; e2; e3] e3), reqs ++ replicate 4 rq)
                end
            end
        end
    end.
Proof.
  intros rq n. subst n. simpl. rewrite !length_app. simpl.
  replace (List.length reqs + 1 + 1 + 1) with (List.length reqs + 3) by lia.
  replace (List.length reqs + 1 + 1) with (List.length reqs + 2) by lia.
  rewrite <-!(assoc_L (++)). simpl.
  repeat match goal with |- context [attempt cfg ?o] => destruct (attempt cfg o) end; done.
Qed.

(** The shape of every run of [retry]: between one and four requests,
    every attempt but the last a failure, and a failure of the whole
    only after four. *)
Lemma retry_run s :
  exists k, 1 <= k <= 4 /\
    (retry (config (cache s)) 3 [] (requests s)).2
      = requests s ++ replicate k (releases_request (config (cache s))) /\
    (forall i, i < k - 1 -> exists e, nth_attempt s i = Throw e) /\
    match (retry (config (cache s)) 3 [] (requests s)).1 with
    | Ok b => nth_attempt s (k - 1) = Ok b
    | Throw e =>
        k = 4 /\ exists e0 e1 e2 e3,
          nth_attempt s 0 = Throw e0 /\ nth_attempt s 1 = Throw e1 /\
          nth_attempt s 2 = Throw e2 /\ nth_attempt s 3 = Throw e3 /\
          e = give_up_with [e0; e1; e2; e3] e3
    end.
Proof.
  rewrite retry_3. unfold nth_attempt. rewrite Nat.add_0_r.
  destruct (attempt _ (net (List.length (requests s)))) as [b|e0] eqn:H0.
  { exists 1. simpl. repeat split; try done; try lia. by rewrite Nat.add_0_r. }
  destruct (attempt _ (net (List.length (requests s) + 1))) as [b|e1] eqn:H1.
  { exists 2. simpl. repeat split; try done; try lia.
    intros i Hi. assert (i = 0) as -> by lia. rewrite Nat.add_0_r. eauto. }
  destruct (attempt _ (net (List.length (requests s) + 2))) as [b|e2] eqn:H2.
  { exists 3. simpl. repeat split; try done; try lia.
    intros i Hi. assert (i = 0 \/ i = 1) as [-> | ->] by lia;
      [rewrite Nat.add_0_r|]; eauto. }
  assert (forall i, i < 3 -> exists e,
            attempt (config (cache s)) (net (List.length (requests s) + i)) = Throw e) as Hfail.
  { intros i Hi. assert (i = 0 \/ i = 1 \/ i = 2) as [-> | [-> | ->]] by lia;
      [rewrite Nat.add_0_r| |]; eauto. }
  destruct (attempt _ (net (List.length (requests s) + 3))) as [b|e3] eqn:H3.
  { exists 4. simpl. repeat split; try done; try lia. }
  exists 4. simpl. repeat split; try done; try lia.
  by exists e0, e1, e2, e3.
Qed.

Lemma refreshCache_unfold later s :
  refreshCache later s =
    match (retry (config (cache s)) 3 [] (requests s)).1 with
    | Ok body =>
        match (data ← json (config (cache s)) body; process checkPlatform later data (cache s)) with
        | Ok c => (Ok tt, {| cache := c;
                             requests := (retry (config (cache s)) 3 [] (requests s)).2 |})
        | Throw e => (Throw e, with_requests s (retry (config (cache s)) 3 [] (requests s)).2)
        end
    | Throw e => (Throw e, with_requests s (retry (config (cache s)) 3 [] (requests s)).2)
    end.
Proof.
  unfold refreshCache.
  destruct (retry (config (cache s)) 3 [] (requests s)) as [[body|e] reqs]; simpl; done.
Qed.

Lemma process_config later data c c' :
  process checkPlatform later data c = Ok c' -> config c' = config c.
Proof.
  destruct data as [|[|r data]]; simpl; try by intros [= <-].
  destruct (index_releases checkPlatform (r :: data)); simpl; [|done]. by intros [= <-].
Qed.

(** A refresh issues between one and four requests, and never touches
    the configuration. *)
Lemma refreshCache_issued later s :
  exists k, 1 <= k <= 4 /\ issued s (refreshCache later s).2 k /\
            config (cache (refreshCache later s).2) = config (cache s).
Proof.
  destruct (retry_run s) as (k & Hk & Hreqs & _). exists k. split; [done|].
  rewrite refreshCache_unfold. unfold issued.
  destruct ((retry (config (cache s)) 3 [] (requests s)).1) as [body|e]; [|done].
  destruct (json (config (cache s)) body) as [data|]; simpl; [|done].
  destruct (process checkPlatform later data (cache s)) as [c|] eqn:Hp; simpl; [|done].
  split; [done|]. by eapply process_config.
Qed.

(** A refresh that throws leaves the cache as it was. *)
Lemma refreshCache_Throw later s e s' :
  refreshCache later s = (Throw e, s') -> cache s' = cache s.
Proof.
  rewrite refreshCache_unfold.
  destruct ((retry (config (cache s)) 3 [] (requests s)).1) as [body|e']; [|by intros [= _ <-]].
  destruct (data ← json (config (cache s)) body; process checkPlatform later data (cache s)); [done|].
  by intros [= _ <-].
Qed.

(** A refresh that returns either leaves the cache as it was (an empty
    array or no array at all came back) or installs the index of the
    releases it received, with the time. *)
Lemma refreshCache_Ok later s s' :
  refreshCache later s = (Ok tt, s') ->
  cache s' = cache s \/
  exists data index,
    index_releases checkPlatform data = Ok index /\ cache s' = install (cache s) index later.
Proof.
  rewrite refreshCache_unfold.
  destruct ((retry (config (cache s)) 3 [] (requests s)).1) as [body|e]; [|done].
  destruct (json (config (cache s)) body) as [[|data]|]; simpl; [by intros [= <-]; left| |done].
  destruct data as [|r data]; simpl; [by intros [= <-]; left|].
  destruct (index_releases checkPlatform (r :: data)) as [index|] eqn:Hidx; simpl; [|done].
  intros [= <-]. right. by exists (r :: data), index.
Qed.

(** The invariant of the platform tables holds of the cache from its
    creation on, whatever the calls and their outcomes. *)
Lemma new_Cache_resolved cfg c :
  new_Cache cfg = Ok c -> platforms_resolved checkPlatform (latestReleaseByEnvironment c).
Proof.
  unfold new_Cache. intros H.
  assert (latestReleaseByEnvironment c = ∅) as ->.
  { by repeat (case_match; simplify_eq). }
  intros e rel. by rewrite lookup_empty.
Qed.

Lemma refreshCache_resolved later s :
  platforms_resolved checkPlatform (latestReleaseByEnvironment (cache s)) ->
  platforms_resolved checkPlatform
    (latestReleaseByEnvironment (cache (refreshCache later s).2)).
Proof.
  intros Hinv. destruct (refreshCache later s) as [[[]|e] s'] eqn:Hr; simpl.
  - destruct (refreshCache_Ok _ _ _ Hr) as [->|(data & index & Hidx & ->)]; [done|].
    simpl. by eapply index_releases_resolved.
  - by rewrite (refreshCache_Throw _ _ _ _ Hr).
Qed.

Lemma loadCache_fresh now later s :
  must_refresh (cache s) now = false ->
  loadCache now later s = (Ok (latestReleaseByEnvironment (cache s)), s).
Proof. unfold loadCache. by intros ->. Qed.

Lemma loadCache_stale now later s :
  must_refresh (cache s) now = true ->
  loadCache now later s =
    (match (refreshCache later s).1 with
     | Ok _ => Ok (latestReleaseByEnvironment (cache (refreshCache later s).2))
     | Throw e => Throw e
     end, (refreshCache later s).2).
Proof.
  unfold loadCache. intros ->. by destruct (refreshCache later s) as [[[]|e] s'].
Qed.

Lemma loadCache_resolved now later s :
  platforms_resolved checkPlatform (latestReleaseByEnvironment (cache s)) ->
  platforms_resolved checkPlatform
    (latestReleaseByEnvironment (cache (loadCache now later s).2)).
Proof.
  intros Hinv. destruct (must_refresh (cache s) now) eqn:Hm.
  - rewrite loadCache_stale by done. by apply refreshCache_resolved.
  - by rewrite loadCache_fresh.
Qed.

Lemma must_refresh_spec c now :
  must_refresh c now = true <->
  lastUpdate c = None \/ lastUpdate c = Some 0%Z \/ isOutdated c now = true.
Proof.
  unfold must_refresh, isOutdated, is_set.
  destruct (lastUpdate c) as [t|]; [|by split; auto].
  destruct (Z.eqb_spec t 0) as [->|Ht]; simpl; [by split; auto|].
  split; [by auto|]. intros [?|[[= ?]|?]]; done.
Qed.

Lemma must_refresh_later c now now' :
  must_refresh c now = true -> (now <= now')%Z -> must_refresh c now' = true.
Proof.
  unfold must_refresh, isOutdated, is_set. destruct (lastUpdate c) as [t|]; [|done].
  destruct (Z.eqb_spec t 0); simpl; [done|].
  destruct (interval_ms (config c)) as [limit|]; [|done].
  intros H Hle. apply (DoubleFacts.Z_gt_mono (now - t)); [lia|done].
Qed.

Lemma isOutdated_limit c now t :
  lastUpdate c = Some t -> t <> 0%Z ->
  (isOutdated c now = true <->
   exists limit, interval_ms (config c) = Some limit /\ Double.Z_gt (now - t) limit = true).
Proof.
  intros Ht Hne. unfold isOutdated, is_set. rewrite Ht.
  destruct (Z.eqb_spec t 0); [done|]. simpl.
  destruct (interval_ms (config c)) as [limit|].
  - split; [by eauto|]. by intros (? & [= <-] & ?).
  - split; [done|]. by intros (? & [=] & _).
Qed.

Lemma interval_ms_minutes cfg minutes z :
  interval cfg = Some minutes ->
  Str.all_digits minutes = true -> (String.length minutes < 100)%nat ->
  (Z.of_N (Str.digits minutes) * 60000 < 2 ^ 53)%Z ->
  exists limit, interval_ms cfg = Some limit /\
                Double.Z_gt z limit = (Z.of_N (Str.digits minutes) * 60000 <? z)%Z.
Proof. intros Hi. unfold interval_ms. rewrite Hi. apply MsFacts.parse_minutes. Qed.

Lemma interval_ms_default cfg z :
  interval cfg = None ->
  exists limit, interval_ms cfg = Some limit /\ Double.Z_gt z limit = (15 * 60000 <? z)%Z.
Proof.
  intros Hi. unfold interval_ms. rewrite Hi.
  destruct (MsFacts.parse_minutes "15" z) as (limit & Hp & Hgt); [done|simpl; lia|done|].
  by exists limit.
Qed.

Lemma within_interval_default cfg elapsed :
  interval cfg = None -> (elapsed <= 15 * 60 * 1000)%Z -> within_interval cfg elapsed.
Proof.
  intros Hi Hle limit Hl.
  destruct (interval_ms_default cfg elapsed Hi) as (limit' & Hl' & Hgt).
  rewrite Hl in Hl'. injection Hl' as <-. rewrite Hgt. apply Z.ltb_ge. lia.
Qed.

Lemma within_interval_minutes cfg minutes elapsed :
  interval cfg = Some minutes ->
  Str.all_digits minutes = true -> (String.length minutes < 100)%nat ->
  (Z.of_N (Str.digits minutes) * 60000 < 2 ^ 53)%Z ->
  (elapsed <= Z.of_N (Str.digits minutes) * 60 * 1000)%Z -> within_interval cfg elapsed.
Proof.
  intros Hi Hdigits Hlen Hsmall Hle limit Hl.
  destruct (interval_ms_minutes cfg minutes elapsed Hi Hdigits Hlen Hsmall)
    as (limit' & Hl' & Hgt).
  rewrite Hl in Hl'. injection Hl' as <-. rewrite Hgt. apply Z.ltb_ge. lia.
Qed.

Lemma within_interval_unreadable cfg elapsed :
  interval_ms cfg = None -> within_interval cfg elapsed.
Proof. intros Hnone limit Hl. congruence. Qed.

Lemma within_interval_fresh c now t :
  lastUpdate c = Some t -> t <> 0%Z ->
  within_interval (config c) (now - t) -> must_refresh c now = false.
Proof.
  intros Ht Hne Hwithin. unfold must_refresh, isOutdated, is_set. rewrite Ht.
  destruct (Z.eqb_spec t 0); [done|]. simpl.
  destruct (interval_ms (config c)) as [limit|] eqn:Hl; [|done]. by apply Hwithin.
Qed.

Lemma issued_none s k : issued s s k -> k = 0.
Proof.
  unfold issued. intros H. apply (f_equal List.length) in H.
  rewrite length_app, length_replicate in H. lia.
Qed.

Lemma issued_trans s s1 s2 k1 k2 :
  config (cache s1) = config (cache s) ->
  issued s s1 k1 -> issued s1 s2 k2 -> issued s s2 (k1 + k2).
Proof.
  unfold issued. intros Hc H1 H2. rewrite H2, H1, Hc, <-(assoc_L (++)).
  by rewrite replicate_add.
Qed.

(** C7, as the code has it.  With [lastUpdate] set, and not 0,
    [isOutdated()] is true exactly when the time passed since exceeds
    the number of milliseconds that [ms] reads from the configured
    interval followed by "m": 15 minutes when no interval is configured,
    that many minutes when it is configured as a whole number in digits,
    and never when [ms] reads no number.  With [lastUpdate] unset, or 0,
    [isOutdated()] itself answers false, and [loadCache] refreshes all
    the same, as its test is [!lastUpdate || isOutdated()].  [loadCache]
    issues requests exactly when that test holds: it then runs
    [refreshCache] and returns what is installed after it, and otherwise
    returns the current index with the state, the request trace
    included, untouched. *)
Theorem staleness s now later :
  (forall t, lastUpdate (cache s) = Some t -> t <> 0%Z ->
     (interval (config (cache s)) = None ->
        (isOutdated (cache s) now = true <-> (now - t > 15 * 60 * 1000)%Z)) /\
     (forall minutes,
        interval (config (cache s)) = Some minutes ->
        Str.all_digits minutes = true -> (String.length minutes < 100)%nat ->
        (Z.of_N (Str.digits minutes) * 60000 < 2 ^ 53)%Z ->
        (isOutdated (cache s) now = true <->
         (now - t > Z.of_N (Str.digits minutes) * 60 * 1000)%Z)) /\
     (forall text,
        interval (config (cache s)) = Some text ->
        (isOutdated (cache s) now = true <->
         exists limit, Ms.parse (text +:+ "m") = Some limit /\
                       Double.Z_gt (now - t) limit = true))) /\
  (forall text,
     interval (config (cache s)) = Some text -> Ms.parse (text +:+ "m") = None ->
     isOutdated (cache s) now = false) /\
  (lastUpdate (cache s) = None \/ lastUpdate (cache s) = Some 0%Z ->
     isOutdated (cache s) now = false /\ must_refresh (cache s) now = true) /\
  (must_refresh (cache s) now = true <->
     lastUpdate (cache s) = None \/ lastUpdate (cache s) = Some 0%Z \/
     isOutdated (cache s) now = true) /\
  ((exists k, 1 <= k /\ issued s (loadCache now later s).2 k) <->
     must_refresh (cache s) now = true) /\
  (must_refresh (cache s) now = true ->
     loadCache now later s =
       (match (refreshCache later s).1 with
        | Ok _ => Ok (latestReleaseByEnvironment (cache (refreshCache later s).2))
        | Throw e => Throw e
        end, (refreshCache later s).2)) /\
  (must_refresh (cache s) now = false ->
     loadCache now later s = (Ok (latestReleaseByEnvironment (cache s)), s)).
Proof.
  split; [|split; [|split; [|split; [|split; [|split]]]]].
  - intros t Ht Hne. pose proof (isOutdated_limit _ now t Ht Hne) as Hout.
    split; [|split].
    + intros Hi. rewrite Hout.
      destruct (interval_ms_default _ (now - t) Hi) as (limit & Hl & Hgt). rewrite Hl.
      split.
      * intros (? & [= <-] & H). rewrite Hgt in H. apply Z.ltb_lt in H. lia.
      * intros H. exists limit. split; [done|]. rewrite Hgt. apply Z.ltb_lt. lia.
    + intros minutes Hi Hdigits Hlen Hsmall. rewrite Hout.
      destruct (interval_ms_minutes _ _ (now - t) Hi Hdigits Hlen Hsmall) as (limit & Hl & Hgt).
      rewrite Hl. split.
      * intros (? & [= <-] & H). rewrite Hgt in H. apply Z.ltb_lt in H. lia.
      * intros H. exists limit. split; [done|]. rewrite Hgt. apply Z.ltb_lt. lia.
    + intros text Hi. rewrite Hout. unfold interval_ms. by rewrite Hi.
  - intros text Hi Hnone. unfold isOutdated, interval_ms. rewrite Hi. simpl. rewrite Hnone.
    by destruct (is_set _), (lastUpdate _).
  - intros [Hnone|Hzero]; (split; [unfold isOutdated|unfold must_refresh]);
      by rewrite ?Hnone, ?Hzero.
  - apply must_refresh_spec.
  - split.
    + intros (k & Hk & Hissued).
      destruct (must_refresh (cache s) now) eqn:Hm; [done|].
      rewrite loadCache_fresh in Hissued by done. apply issued_none in Hissued. lia.
    + intros Hm. rewrite loadCache_stale by done. simpl.
      destruct (refreshCache_issued later s) as (k & Hk & Hissued & _).
      exists k. split; [lia|done].
  - apply loadCache_stale.
  - apply loadCache_fresh.
Qed.

Lemma loadCache_Throw now later s e s' :
  loadCache now later s = (Throw e, s') ->
  must_refresh (cache s) now = true /\ refreshCache later s = (Throw e, s').
Proof.
  destruct (must_refresh (cache s) now) eqn:Hm.
  - rewrite loadCache_stale by done.
    destruct (refreshCache later s) as [[[]|e'] s'']; simpl; [done|]. by intros [= -> ->].
  - by rewrite loadCache_fresh.
Qed.

(** C2, as the code has it.  A refresh that fails makes the call of
    [loadCache] that started it fail with the same error, whatever the
    cache holds from earlier refreshes; the cache keeps what it held. *)
Theorem failed_refresh_propagates s now later e s' :
  must_refresh (cache s) now = true ->
  refreshCache later s = (Throw e, s') ->
  loadCache now later s = (Throw e, s') /\ cache s' = cache s.
Proof.
  intros Hm Hr. rewrite loadCache_stale, Hr by done. split; [done|].
  by eapply refreshCache_Throw.
Qed.

(** C5.  When the fetch of a refresh fails after its retries, the call
    of [loadCache] fails with that error and the cache, index and
    [lastUpdate], is what it was; and as long as the cache is that one,
    every later call of [loadCache] issues requests again. *)
Theorem failed_fetch_is_retried s now later e reqs :
  must_refresh (cache s) now = true ->
  retry (config (cache s)) 3 [] (requests s) = (Throw e, reqs) ->
  loadCache now later s = (Throw e, {| cache := cache s; requests := reqs |}) /\
  forall s2 now2 later2,
    cache s2 = cache s -> (now <= now2)%Z ->
    must_refresh (cache s2) now2 = true /\
    exists k, 1 <= k /\ issued s2 (loadCache now2 later2 s2).2 k.
Proof.
  intros Hm Hretry. split.
  - rewrite loadCache_stale, refreshCache_unfold, Hretry by done. done.
  - intros s2 now2 later2 Hc Hle.
    assert (must_refresh (cache s2) now2 = true) as Hm2.
    { rewrite Hc. by eapply must_refresh_later. }
    split; [done|]. rewrite loadCache_stale by done. simpl.
    destruct (refreshCache_issued later2 s2) as (k & Hk & Hissued & _).
    exists k. split; [lia|done].
Qed.

(** C6, as the code has it.  A refresh makes at most four attempts, the
    first and three retries, one request each, and stops at the first
    reply with status 200.  When all four fail, the refresh fails with
    the error of one of them and the cache is unchanged: the last of
    the errors whose message occurred most often among the four, which
    is the final attempt's unless another message occurred more often
    than its own.  The error of a reply with
    another status than 200 carries that status in its message.  A 200
    reply is not retried; when its body is JSON for an empty array or
    for something that is not an array, the refresh ends without an
    error and without a change to the cache. *)
Theorem fetch_retries s later r s' :
  refreshCache later s = (r, s') ->
  (exists k, 1 <= k <= 4 /\ issued s s' k /\
     (forall i, i < k - 1 -> exists e, nth_attempt s i = Throw e) /\
     (k < 4 -> exists b, nth_attempt s (k - 1) = Ok b)) /\
  (forall e0 e1 e2 e3,
     nth_attempt s 0 = Throw e0 -> nth_attempt s 1 = Throw e1 ->
     nth_attempt s 2 = Throw e2 -> nth_attempt s 3 = Throw e3 ->
     cache s' = cache s /\ issued s s' 4 /\
     exists e i, r = Throw e /\ main_at [e0; e1; e2; e3] i e /\
       ((forall e', e' ∈ [e0; e1; e2] ->
           count_message (message e') [e0; e1; e2; e3]
           <= count_message (message e3) [e0; e1; e2; e3]) -> e = e3)) /\
  (forall k status body,
     net (List.length (requests s) + k) = Response status body -> status <> 200%N ->
     nth_attempt s k = Throw (status_error (config (cache s)) status)) /\
  (forall k data,
     k < 4 -> (forall i, i < k -> exists e, nth_attempt s i = Throw e) ->
     net (List.length (requests s) + k) = Response 200 (Json data) ->
     data = NotArray \/ data = Array [] ->
     r = Ok tt /\ cache s' = cache s /\ issued s s' (S k)).
Proof.
  intros Hr. rewrite refreshCache_unfold in Hr.
  destruct (retry_run s) as (k & Hk & Hreqs & Hfail & Hlast).
  destruct (retry (config (cache s)) 3 [] (requests s)) as [res reqs].
  cbn [fst snd] in Hr, Hreqs, Hlast. subst reqs.
  split; [|split; [|split]].
  - exists k. split; [done|]. split; [|split; [done|]].
    + unfold issued. destruct res as [body|e]; [|by injection Hr as <- <-].
      destruct (data ← json (config (cache s)) body; process checkPlatform later data (cache s));
        by injection Hr as <- <-.
    + intros Hk4. destruct res as [body|e]; [eauto|]. destruct Hlast as [-> _]. lia.
  - intros e0 e1 e2 e3 H0 H1 H2 H3. destruct res as [body|e].
    { revert Hlast.
      assert (k - 1 = 0 \/ k - 1 = 1 \/ k - 1 = 2 \/ k - 1 = 3) as [->|[->|[->| ->]]] by lia;
        congruence. }
    destruct Hlast as (Hk4 & e0' & e1' & e2' & e3' & H0' & H1' & H2' & H3' & ->).
    subst k.
    rewrite H0 in H0'. rewrite H1 in H1'. rewrite H2 in H2'. rewrite H3 in H3'.
    injection H0' as <-. injection H1' as <-. injection H2' as <-. injection H3' as <-.
    injection Hr as <- <-. split; [done|]. split; [done|].
    destruct (give_up_with_main_at [e0; e1; e2; e3] e3) as [i Hi]; [done|].
    eexists _, i. split; [done|]. split; [done|].
    apply (give_up_with_last [e0; e1; e2] e3).
  - intros j status body Hnet Hstatus. unfold nth_attempt, attempt. rewrite Hnet.
    by rewrite decide_False.
  - intros j data Hj Hbefore Hnet Hdata.
    assert (nth_attempt s j = Ok (Json data)) as Hok.
    { unfold nth_attempt, attempt. by rewrite Hnet, decide_True. }
    destruct res as [body|e].
    + assert (k - 1 = j) as Hkj.
      { destruct (decide (k - 1 < j)) as [Hlt|Hge].
        - destruct (Hbefore _ Hlt) as [e He]. congruence.
        - destruct (decide (j < k - 1)) as [Hlt|Hge'].
          + destruct (Hfail _ Hlt) as [e He]. congruence.
          + lia. }
      rewrite Hkj, Hok in Hlast. injection Hlast as <-.
      assert ((data ← json (config (cache s)) (Json data); process checkPlatform later data (cache s))
              = Ok (cache s)) as Hp by (by destruct Hdata as [-> | ->]).
      rewrite Hp in Hr. injection Hr as <- <-. split; [done|]. split; [done|].
      unfold issued. cbn [requests cache]. by replace (S j) with k by lia.
    + destruct Hlast as (Hk4 & e0 & e1 & e2 & e3 & H0 & H1 & H2 & H3 & _).
      assert (j = 0 \/ j = 1 \/ j = 2 \/ j = 3) as [->|[->|[->| ->]]] by lia; congruence.
Qed.

End Refresh.

(** ** The update decision *)

Section Update.

Variable checkPlatform : string -> option string.
Variable checkAlias : string -> option string.
Variable net : nat -> FetchOutcome.

Local Abbreviation loadCache := (loadCache checkPlatform net).
Local Abbreviation update := (update checkPlatform checkAlias net).

Lemma split_hyphen_free s : hyphen_free s -> Str.split "-" s = [s].
Proof.
  unfold hyphen_free. induction s as [|a s IH]; simpl; [done|].
  destruct (Ascii.eqb a "-"); simpl; [done|]. intros H. by rewrite IH.
Qed.

Lemma split_first core rest :
  hyphen_free core ->
  Str.split "-" (core +:+ String "-" rest) = core :: Str.split "-" rest.
Proof.
  unfold hyphen_free. induction core as [|a core IH]; simpl; [done|].
  destruct (Ascii.eqb a "-"); simpl; [done|]. intros H. by rewrite IH.
Qed.

Lemma split_head s : exists t, Str.split "-" s = first_segment s :: t.
Proof.
  unfold first_segment. induction s as [|a s [t IH]]; simpl; [by eexists|].
  destruct (Ascii.eqb a "-"); simpl; [by eexists|].
  rewrite IH. destruct (Str.break "-" s). simpl. by eexists.
Qed.

Lemma environment_of_hyphen_free s : hyphen_free s -> environment_of s = "production".
Proof. intros H. unfold environment_of. by rewrite split_hyphen_free. Qed.

Lemma environment_of_first core rest :
  hyphen_free core ->
  environment_of (core +:+ String "-" rest) =
    if Str.nonempty (first_segment rest) then first_segment rest else "production".
Proof.
  intros H. unfold environment_of. rewrite split_first by done.
  by destruct (split_head rest) as [t ->].
Qed.

Lemma update_unfold cfg now later platformName version s snapshot s' platform :
  Semver.valid version = true ->
  truthy (checkAlias platformName) = Some platform ->
  loadCache now later s = (Ok snapshot, s') ->
  update cfg now later platformName version s =
    (decide_update cfg snapshot (environment_of version) platformName platform version, s').
Proof. unfold update. by intros -> -> ->. Qed.

Lemma decide_update_found cfg snapshot e platformName platform version rel asset :
  snapshot !! e = Some rel ->
  Index.platforms rel !! platform = Some asset ->
  decide_update cfg snapshot e platformName platform version =
    (c ← Semver.compare (Index.version rel) version;
     Ok (match c with
         | Gt => UpdateAvailable (update_payload cfg rel asset platformName e)
         | _ => NoContent
         end)).
Proof.
  intros Hrel Hasset. unfold decide_update, js_get. rewrite Hrel, Hasset.
  destruct (Semver.compare (Index.version rel) version) as [[]|]; done.
Qed.

Lemma decide_update_local cfg snapshot snapshot' e platformName platform version :
  snapshot !! e = snapshot' !! e ->
  decide_update cfg snapshot e platformName platform version
  = decide_update cfg snapshot' e platformName platform version.
Proof. intros H. unfold decide_update, js_get. by rewrite H. Qed.

Lemma compare_same v sv : Semver.new v = Ok sv -> Semver.compare v v = Ok Eq.
Proof.
  intros H. unfold Semver.compare. rewrite H. simpl.
  by rewrite SemverFacts.compareSemVer_refl.
Qed.

(** C3.  When the environment of the request has an entry in the cache
    and the entry has an asset for the resolved platform, then, for a
    valid current version, the reply is that an update is available
    exactly when the cached version is strictly greater than the
    current one; a cached version that is not greater gives no content,
    and so does a current version that is the cached version itself. *)
Theorem update_iff_newer cfg now later platformName version s snapshot s' platform rel asset :
  Semver.valid version = true ->
  truthy (checkAlias platformName) = Some platform ->
  loadCache now later s = (Ok snapshot, s') ->
  snapshot !! environment_of version = Some rel ->
  Index.platforms rel !! platform = Some asset ->
  let reply := (update cfg now later platformName version s).1 in
  ((exists payload, reply = Ok (UpdateAvailable payload)) <->
     Semver.gt (Index.version rel) version = Ok true) /\
  (Semver.gt (Index.version rel) version = Ok true ->
     reply = Ok (UpdateAvailable
                   (update_payload cfg rel asset platformName (environment_of version)))) /\
  (Semver.gt (Index.version rel) version = Ok false -> reply = Ok NoContent) /\
  (Index.version rel = version -> reply = Ok NoContent).
Proof.
  intros Hvalid Halias Hload Hrel Hasset reply. subst reply.
  rewrite (update_unfold _ _ _ _ _ _ _ _ _ Hvalid Halias Hload). cbn [fst].
  rewrite (decide_update_found _ _ _ _ _ _ _ _ Hrel Hasset).
  unfold Semver.gt.
  destruct (Semver.compare (Index.version rel) version) as [c|e] eqn:Hc; simpl.
  - repeat split.
    + intros [payload Hp]. by destruct c.
    + intros [= Hgt]. destruct c; try done. eauto.
    + intros [= Hgt]. by destruct c.
    + intros [= Hgt]. by destruct c.
    + intros Heq. rewrite Heq in Hc.
      destruct (SemverFacts.valid_new _ Hvalid) as [sv Hsv].
      rewrite (compare_same _ _ Hsv) in Hc. by injection Hc as <-.
  - repeat split; try done.
    + by intros [payload Hp].
    + intros Heq. rewrite Heq in Hc.
      destruct (SemverFacts.valid_new _ Hvalid) as [sv Hsv].
      by rewrite (compare_same _ _ Hsv) in Hc.
Qed.

Lemma first_segment_first x rest :
  hyphen_free x -> first_segment (x +:+ String "-" rest) = x.
Proof.
  unfold hyphen_free, first_segment. induction x as [|a x IH]; [done|]. simpl.
  destruct (Ascii.eqb a "-"); simpl; [done|]. intros H.
  change (String a x +:+ String "-" rest) with (String a (x +:+ String "-" rest)).
  simpl. specialize (IH H). destruct (Str.break "-" (x +:+ String "-" rest)).
  simpl in *. by rewrite IH.
Qed.

Lemma first_segment_hyphen_free x : hyphen_free x -> first_segment x = x.
Proof.
  unfold hyphen_free, first_segment. induction x as [|a x IH]; [done|]. simpl.
  destruct (Ascii.eqb a "-"); simpl; [done|]. intros H.
  specialize (IH H). destruct (Str.break "-" x). simpl in *. by rewrite IH.
Qed.

(** C10, as the code has it.  The handler takes no environment from the
    request: it computes it from the version, as the part between the
    first hyphen and the next (or "production" when there is no hyphen
    or that part is empty), and its reply depends on the cache through
    the entry of that environment only: that entry's release is the one
    the version is compared with.  A version that is a part without
    hyphens followed by "-beta", or by "-beta-" and more, is looked up
    under "beta", never under "production"; a version that ends in
    "-beta" after an earlier hyphen is looked up under what follows its
    first hyphen, and under "production" when that hyphen is followed by
    another at once. *)
Theorem environment_from_version :
  (forall version, hyphen_free version -> environment_of version = "production") /\
  (forall core rest, hyphen_free core ->
     environment_of (core +:+ String "-" rest) =
       if Str.nonempty (first_segment rest) then first_segment rest else "production") /\
  (forall core, hyphen_free core ->
     environment_of (core +:+ "-beta") = "beta" /\
     forall more, environment_of (core +:+ "-beta-" +:+ more) = "beta") /\
  (forall core channel, hyphen_free core -> hyphen_free channel -> channel <> "" ->
     environment_of (core +:+ "-" +:+ channel +:+ "-beta") = channel) /\
  (forall core, hyphen_free core -> environment_of (core +:+ "--beta") = "production") /\
  (forall cfg now later platformName version s1 s2,
     must_refresh (cache s1) now = false -> must_refresh (cache s2) now = false ->
     latestReleaseByEnvironment (cache s1) !! environment_of version
     = latestReleaseByEnvironment (cache s2) !! environment_of version ->
     (update cfg now later platformName version s1).1
     = (update cfg now later platformName version s2).1) /\
  (forall cfg now later platformName version s snapshot s' platform rel asset,
     Semver.valid version = true ->
     truthy (checkAlias platformName) = Some platform ->
     loadCache now later s = (Ok snapshot, s') ->
     snapshot !! environment_of version = Some rel ->
     Index.platforms rel !! platform = Some asset ->
     (update cfg now later platformName version s).1 =
       (c ← Semver.compare (Index.version rel) version;
        Ok (match c with
            | Gt => UpdateAvailable
                      (update_payload cfg rel asset platformName (environment_of version))
            | _ => NoContent
            end))).
Proof.
  split; [apply environment_of_hyphen_free|]. split; [apply environment_of_first|].
  split; [|split; [|split; [|split]]].
  - intros core H. split; [by rewrite (environment_of_first core "beta" H)|].
    intros more. change (core +:+ "-beta-" +:+ more)
      with (core +:+ String "-" ("beta" +:+ String "-" more)).
    rewrite (environment_of_first _ _ H).
    by rewrite (first_segment_first "beta" more).
  - intros core channel Hcore Hchannel Hne.
    change (core +:+ "-" +:+ channel +:+ "-beta")
      with (core +:+ String "-" (channel +:+ String "-" "beta")).
    rewrite (environment_of_first _ _ Hcore), (first_segment_first _ _ Hchannel).
    by destruct channel.
  - intros core H. by rewrite (environment_of_first core "-beta" H).
  - intros cfg now later platformName version s1 s2 H1 H2 Hsame. unfold update.
    destruct (Semver.valid version); simpl; [|done].
    destruct (truthy (checkAlias platformName)) as [platform|]; [|done].
    rewrite !loadCache_fresh by done. cbn [fst]. by apply decide_update_local.
  - intros cfg now later platformName version s snapshot s' platform rel asset
      Hvalid Halias Hload Hrel Hasset.
    rewrite (update_unfold _ _ _ _ _ _ _ _ _ Hvalid Halias Hload). cbn [fst].
    by apply decide_update_found.
Qed.

End Update.

(** ** Calls in flight *)

Section Concurrency.

Variable checkPlatform : string -> option string.
Variable net : nat -> FetchOutcome.

Local Abbreviation step := (step checkPlatform net).
Local Abbreviation run := (run checkPlatform net).
Local Abbreviation loadCache := (loadCache checkPlatform net).

Lemma step_issued now t s :
  config (cache (step now t s).2) = config (cache s) /\
  exists k, k <= 1 /\ issued s (step now t s).2 k.
Proof.
  assert (issued s s 0) as H0 by (unfold issued; simpl; by rewrite app_nil_r).
  assert (issued s (issue s) 1) as H1 by done.
  destruct t as [|k errors retries|errors retries|body| |outcome]; simpl.
  - destruct (must_refresh (cache s) now); simpl; eauto.
  - destruct (attempt _ _); [|destruct retries]; simpl; eauto.
  - eauto.
  - destruct (json (config (cache s)) body) as [data|]; simpl; [|by eauto].
    destruct (process checkPlatform now data (cache s)) as [c|] eqn:Hp; simpl; [|by eauto].
    split; [by eapply process_config|].
    exists 0. split; [lia|]. unfold issued. simpl. by rewrite app_nil_r.
  - eauto.
  - eauto.
Qed.

Lemma run_issued schedule : forall tasks s,
  config (cache (run schedule tasks s).2) = config (cache s) /\
  exists k, k <= List.length schedule /\ issued s (run schedule tasks s).2 k.
Proof.
  induction schedule as [|[i now] schedule IH]; intros tasks s.
  - simpl. split; [done|]. exists 0. split; [lia|].
    unfold issued. simpl. by rewrite app_nil_r.
  - cbn [run]. destruct (tasks !! i) as [t|].
    + destruct (step_issued now t s) as (Hc1 & k1 & Hk1 & Hi1).
      destruct (step now t s) as [t' s1]. simpl in *.
      destruct (IH (<[i:=t']> tasks) s1) as (Hc2 & k2 & Hk2 & Hi2).
      split; [congruence|]. exists (k1 + k2). split; [lia|].
      by eapply issued_trans.
    + destruct (IH tasks s) as (Hc2 & k2 & Hk2 & Hi2).
      split; [done|]. exists k2. split; [simpl; lia|done].
Qed.

(** Every call that finds the cache stale issues a request. *)
Lemma run_stale_calls schedule : forall tasks s,
  exists k, stale_calls checkPlatform net schedule tasks s <= k /\
            issued s (run schedule tasks s).2 k.
Proof.
  induction schedule as [|[i now] schedule IH]; intros tasks s.
  - exists 0. split; [done|]. unfold issued. simpl. by rewrite app_nil_r.
  - cbn [run stale_calls]. destruct (tasks !! i) as [t|]; [|apply IH].
    destruct (step_issued now t s) as (Hc1 & k1 & Hk1 & Hi1).
    assert (match t with
            | Called => if must_refresh (cache s) now then 1 else 0
            | _ => 0
            end <= k1) as Hfirst.
    { destruct t; try lia. simpl in Hi1.
      destruct (must_refresh (cache s) now); [|lia].
      destruct k1 as [|k1]; [|lia]. simpl in Hi1.
      unfold issued, issue, with_requests in Hi1. simpl in Hi1.
      apply (f_equal List.length) in Hi1. rewrite !length_app in Hi1. simpl in Hi1. lia. }
    destruct (step now t s) as [t' s1]. simpl in *.
    destruct (IH (<[i:=t']> tasks) s1) as (k2 & Hk2 & Hi2).
    exists (k1 + k2). split; [lia|]. by eapply issued_trans.
Qed.

Lemma run_app a : forall b tasks s,
  run (a ++ b) tasks s = run b (run a tasks s).1 (run a tasks s).2.
Proof.
  induction a as [|[i now] a IH]; intros b tasks s; [done|].
  cbn [app run]. destruct (tasks !! i) as [t|]; [|apply IH].
  destruct (step now t s) as [t' s']. apply IH.
Qed.

(** A call that moves to something else than a fetch frees its request. *)
Lemma unshared_insert_other i t' tasks s s' :
  (forall k errors retries, t' <> Fetching k errors retries) ->
  List.length (requests s) <= List.length (requests s') ->
  unshared tasks s -> unshared (<[i := t']> tasks) s'.
Proof.
  intros Hother Hlen Hun i0 k errors retries Hi0.
  destruct (decide (i0 = i)) as [->|Hne].
  { apply list_lookup_insert_Some in Hi0 as [(_ & Heq & _)|[? _]]; [|done].
    by destruct (Hother k errors retries). }
  rewrite list_lookup_insert_ne in Hi0 by done.
  destruct (Hun i0 k errors retries Hi0) as [Hk Huniq]. split; [lia|].
  intros j errors' retries' Hj. destruct (decide (j = i)) as [->|Hne'].
  { apply list_lookup_insert_Some in Hj as [(_ & Heq & _)|[? _]]; [|done].
    by destruct (Hother k errors' retries'). }
  rewrite list_lookup_insert_ne in Hj by done. by eapply Huniq.
Qed.

(** A call that issues a request is the only one to await it. *)
Lemma unshared_insert_issue i errors retries tasks s :
  unshared tasks s ->
  unshared (<[i := Fetching (List.length (requests s)) errors retries]> tasks) (issue s).
Proof.
  intros Hun i0 k errors0 retries0 Hi0.
  unfold issue, with_requests. cbn [requests]. rewrite length_app. simpl.
  destruct (decide (i0 = i)) as [->|Hne].
  - apply list_lookup_insert_Some in Hi0 as [(Hlen & [= <- <- <-] & _)|[? _]]; [|done].
    split; [lia|]. intros j errors' retries' Hj.
    destruct (decide (j = i)) as [|Hne]; [done|].
    rewrite list_lookup_insert_ne in Hj by done.
    destruct (Hun j _ _ _ Hj) as [Hk _]. lia.
  - rewrite list_lookup_insert_ne in Hi0 by done.
    destruct (Hun i0 k errors0 retries0 Hi0) as [Hk Huniq]. split; [lia|].
    intros j errors' retries' Hj. destruct (decide (j = i)) as [->|Hne'].
    + apply list_lookup_insert_Some in Hj as [(_ & [= Hk' _ _] & _)|[? _]]; [lia|done].
    + rewrite list_lookup_insert_ne in Hj by done. by eapply Huniq.
Qed.

Lemma step_unshared now i t tasks s :
  unshared tasks s -> unshared (<[i := (step now t s).1]> tasks) (step now t s).2.
Proof.
  intros Hun.
  assert (forall t' c,
            (forall k errors retries, t' <> Fetching k errors retries) ->
            unshared (<[i := t']> tasks) {| cache := c; requests := requests s |}) as Hother.
  { intros t' c Ht'. by apply (unshared_insert_other _ _ _ s). }
  assert (forall t',
            (forall k errors retries, t' <> Fetching k errors retries) ->
            unshared (<[i := t']> tasks) s) as Hsame.
  { intros t' Ht'. by apply (unshared_insert_other _ _ _ s). }
  destruct t as [|k errors retries|errors retries|body| |outcome]; simpl.
  - destruct (must_refresh (cache s) now); simpl;
      [by apply unshared_insert_issue|by apply Hsame].
  - destruct (attempt _ _); [|destruct retries]; simpl; by apply Hsame.
  - by apply unshared_insert_issue.
  - destruct (json (config (cache s)) body) as [data|]; simpl; [|by apply Hsame].
    destruct (process checkPlatform now data (cache s)) as [c|]; simpl;
      [by apply Hother|by apply Hsame].
  - by apply Hsame.
  - by apply Hsame.
Qed.

Lemma run_unshared schedule : forall tasks s,
  unshared tasks s -> unshared (run schedule tasks s).1 (run schedule tasks s).2.
Proof.
  induction schedule as [|[i now] schedule IH]; intros tasks s Hun; [done|].
  cbn [run]. destruct (tasks !! i) as [t|]; [|by apply IH].
  pose proof (step_unshared now i t tasks s Hun) as Hstep.
  destruct (step now t s) as [t' s']. by apply IH.
Qed.

Lemma run_call_all times : forall before s,
  Forall (fun t => must_refresh (cache s) t = true) times ->
  run (imap (fun i t => (List.length before + i, t)) times)
      (before ++ replicate (List.length times) Called) s =
    (before ++ imap (fun i _ => Fetching (List.length (requests s) + i) [] 3) times,
     with_requests s
       (requests s ++ replicate (List.length times) (releases_request (config (cache s))))).
Proof.
  induction times as [|t times IH]; intros before s Hstale.
  - simpl. rewrite !app_nil_r. by destruct s.
  - apply Forall_cons in Hstale as [Ht Hstale].
    rewrite !imap_cons. cbn [run List.length replicate].
    rewrite Nat.add_0_r, list_lookup_middle by done. cbn [step]. rewrite Ht.
    replace (<[List.length before:=Fetching (List.length (requests s)) [] 3]>
               (before ++ Called :: replicate (List.length times) Called))
      with ((before ++ [Fetching (List.length (requests s)) [] 3])
              ++ replicate (List.length times) Called).
    2:{ rewrite <-(Nat.add_0_r (List.length before)), insert_app_r. simpl.
        by rewrite <-(assoc_L (++)). }
    rewrite (imap_ext _ (fun i t =>
             (List.length (before ++ [Fetching (List.length (requests s)) [] 3]) + i, t))).
    2:{ intros i x _. simpl. rewrite length_app. simpl. f_equal. lia. }
    rewrite IH by done. unfold issue, with_requests. cbn [cache requests].
    rewrite <-!(assoc_L (++)). cbn [app]. rewrite Nat.add_0_r. do 3 f_equal.
    apply imap_ext. intros i x _. simpl. rewrite length_app. simpl. f_equal. lia.
Qed.

(** C9, as the code has it.  Calls of [loadCache] that each find the
    cache stale each start a refresh of their own: when N calls run
    their first turn before any is resumed, N requests are issued, one
    per call, and each call awaits the reply to its own request, so that
    N refreshes are in flight together.  However the calls are resumed
    afterwards, no request is ever awaited by two calls, and at least N
    requests have been issued in all.  And in every run, whatever the
    order of the turns, at least as many requests are issued as calls
    found the cache stale at their first turn, and none of them is
    awaited by two calls. *)
Theorem every_stale_call_fetches times rest s :
  Forall (fun t => must_refresh (cache s) t = true) times ->
  run (call_all times) (replicate (List.length times) Called) s =
    (imap (fun i _ => Fetching (List.length (requests s) + i) [] 3) times,
     with_requests s
       (requests s ++ replicate (List.length times) (releases_request (config (cache s))))) /\
  (exists k, List.length times <= k /\
     issued s (run (call_all times ++ rest) (replicate (List.length times) Called) s).2 k) /\
  unshared (run (call_all times ++ rest) (replicate (List.length times) Called) s).1
           (run (call_all times ++ rest) (replicate (List.length times) Called) s).2 /\
  (forall schedule calls,
     (exists k, stale_calls checkPlatform net schedule (replicate calls Called) s <= k /\
                issued s (run schedule (replicate calls Called) s).2 k) /\
     unshared (run schedule (replicate calls Called) s).1
              (run schedule (replicate calls Called) s).2).
Proof.
  intros Hstale.
  assert (forall calls, unshared (replicate calls Called) s) as Hstart.
  { intros calls i k errors retries Hi. apply lookup_replicate in Hi as [? _]. done. }
  pose proof (run_call_all times [] s Hstale) as Hfirst. simpl in Hfirst.
  fold (call_all times) in Hfirst. split; [done|]. split; [|split].
  - rewrite run_app, Hfirst. cbn [fst snd].
    destruct (run_issued rest
                (imap (fun i _ => Fetching (List.length (requests s) + i) [] 3) times)
                (with_requests s
                   (requests s ++ replicate (List.length times)
                                    (releases_request (config (cache s))))))
      as (_ & k & _ & Hk).
    exists (List.length times + k). split; [lia|].
    eapply issued_trans; [| |apply Hk]; done.
  - apply run_unshared, Hstart.
  - intros schedule calls. split; [apply run_stale_calls|apply run_unshared, Hstart].
Qed.

Lemma run_turn now schedule t s :
  run ((0, now) :: schedule) [t] s = run schedule [(step now t s).1] (step now t s).2.
Proof. cbn [run lookup list_lookup]. by destruct (step now t s). Qed.

Lemma run_done fuel later outcome s :
  run (replicate fuel (0, later)) [Done outcome] s = ([Done outcome], s).
Proof. induction fuel as [|fuel IH]; [done|]. cbn [replicate]. by rewrite run_turn. Qed.

(** From the first request on, a call that runs alone goes the way of
    [retry], then of the rest of [refreshCache]. *)
Lemma run_fetching later retries : forall errors c reqs fuel,
  2 * retries + 3 <= fuel ->
  run (replicate fuel (0, later)) [Fetching (List.length reqs) errors retries]
      {| cache := c; requests := reqs ++ [releases_request (config c)] |} =
    match (body ← (retry net (config c) retries errors reqs).1;
           data ← json (config c) body; process checkPlatform later data c) with
    | Ok c' => ([Done (Ok (latestReleaseByEnvironment c'))],
                {| cache := c'; requests := (retry net (config c) retries errors reqs).2 |})
    | Throw e => ([Done (Throw e)],
                  {| cache := c; requests := (retry net (config c) retries errors reqs).2 |})
    end.
Proof.
  induction retries as [|retries IH]; intros errors c reqs fuel Hfuel.
  - do 3 (destruct fuel as [|fuel]; [lia|]). cbn [replicate retry].
    rewrite run_turn. cbn [step cache requests].
    destruct (attempt (config c) (net (List.length reqs))) as [body|e]; cbn [fst snd].
    + rewrite run_turn. cbn [step cache requests]. cbn [mbind result_bind].
      destruct (data ← json (config c) body; process checkPlatform later data c) as [c'|e];
        cbn [fst snd].
      * rewrite run_turn. cbn [step cache fst snd]. apply run_done.
      * rewrite run_turn. cbn [step fst snd]. apply run_done.
    + rewrite run_turn. cbn [step fst snd]. apply run_done.
  - do 2 (destruct fuel as [|fuel]; [lia|]). cbn [replicate retry].
    rewrite run_turn. cbn [step cache requests].
    destruct (attempt (config c) (net (List.length reqs))) as [body|e]; cbn [fst snd].
    + destruct fuel as [|fuel]; [lia|]. cbn [replicate].
      rewrite run_turn. cbn [step cache requests]. cbn [mbind result_bind].
      destruct (data ← json (config c) body; process checkPlatform later data c) as [c'|e];
        cbn [fst snd].
      * rewrite run_turn. cbn [step cache fst snd]. apply run_done.
      * rewrite run_turn. cbn [step fst snd]. apply run_done.
    + rewrite run_turn. cbn [step fst snd]. unfold issue, with_requests.
      cbn [cache requests]. apply IH. lia.
Qed.

(** A call that runs alone does what [loadCache] does. *)
Lemma run_alone now later s :
  run (alone now later) [Called] s =
    ([Done (loadCache now later s).1], (loadCache now later s).2).
Proof.
  unfold alone. rewrite run_turn. cbn [step].
  destruct (must_refresh (cache s) now) eqn:Hm; cbn [fst snd].
  - rewrite loadCache_stale, refreshCache_unfold by done.
    unfold issue, with_requests. rewrite run_fetching by lia.
    destruct ((retry net (config (cache s)) 3 [] (requests s)).1) as [body|e];
      cbn [mbind result_bind]; [|done].
    by destruct (data ← json (config (cache s)) body; process checkPlatform later data (cache s)).
  - rewrite loadCache_fresh by done. apply run_done.
Qed.

End Concurrency.

Lemma split_hyphen_free_parts s : forall p, p ∈ Str.split "-" s -> hyphen_free p.
Proof.
  unfold hyphen_free. induction s as [|a s IH]; intros p; simpl.
  - by intros ->%list_elem_of_singleton.
  - destruct (Ascii.eqb a "-") eqn:Ha.
    + intros [->|Hin]%elem_of_cons; [done|by apply IH].
    + destruct (Str.split "-" s) as [|h t] eqn:Hs.
      * intros ->%list_elem_of_singleton. simpl. by rewrite Ha.
      * intros [->|Hin]%elem_of_cons.
        -- simpl. rewrite Ha. simpl. apply IH. apply list_elem_of_here.
        -- apply IH. by apply list_elem_of_further.
Qed.

Lemma environment_of_nonempty s : environment_of s <> "".
Proof.
  unfold environment_of.
  destruct (Str.split "-" s) as [|first [|[|c segment] rest]]; done.
Qed.

Lemma environment_of_no_hyphen s : hyphen_free (environment_of s).
Proof.
  unfold environment_of. pose proof (split_hyphen_free_parts s) as Hparts.
  destruct (Str.split "-" s) as [|first [|[|c segment] rest]]; try done.
  apply Hparts. apply list_elem_of_further, list_elem_of_here.
Qed.

(** X1.  The environment read off a tag or a version,
    [split("-")[1] || "production"], is never the empty string and never
    contains a hyphen, whatever the string is. *)
Theorem environment_of_range s :
  environment_of s <> "" /\ hyphen_free (environment_of s).
Proof.
  unfold environment_of.
  pose proof (split_hyphen_free_parts s) as Hparts.
  destruct (Str.split "-" s) as [|first [|segment rest]]; try done.
  destruct segment as [|c segment]; [done|]. simpl. split; [done|].
  apply Hparts. apply list_elem_of_further, list_elem_of_here.
Qed.

Lemma consider_keys m x m' :
  consider m x = Ok m' ->
  forall e, is_Some (m' !! e) ->
    is_Some (m !! e) \/ (e = environment_of (GitHub.tag_name x) /\ e ∉ Object_prototype).
Proof.
  unfold consider, select_release. intros H e He.
  destruct (GitHub.draft x); [injection H as <-; by left|].
  destruct (_ || _); [injection H as <-; by left|].
  unfold js_get in H.
  destruct (m !! environment_of (GitHub.tag_name x)) as [cur|] eqn:Hcur.
  - simpl in H. destruct (Semver.gt _ _) as [[]|]; simpl in H; try done; injection H as <-.
    + destruct (decide (e = environment_of (GitHub.tag_name x))) as [->|Hne].
      * left. by rewrite Hcur.
      * left. by rewrite lookup_insert_ne in He.
    + by left.
  - case_bool_decide as Hp.
    + simpl in H. by destruct (Semver.new (GitHub.tag_name x)).
    + injection H as <-.
      destruct (decide (e = environment_of (GitHub.tag_name x))) as [->|Hne]; [by right|].
      left. by rewrite lookup_insert_ne in He.
Qed.

Lemma forEach_keys l : forall m m',
  forEach consider m l = Ok m' ->
  (forall e, is_Some (m !! e) -> e ∉ Object_prototype) ->
  forall e, is_Some (m' !! e) -> e ∉ Object_prototype.
Proof.
  induction l as [|x l IH]; intros m m'; simpl.
  - by intros [= <-].
  - destruct (consider m x) as [m1|] eqn:Hx; simpl; [|done].
    intros Hl Hm. apply (IH _ _ Hl). intros e He.
    destruct (consider_keys _ _ _ Hx e He) as [?|[_ ?]]; auto.
Qed.

Lemma select_latest_keys data latest e :
  select_latest data = Ok latest -> is_Some (latest !! e) -> e ∉ Object_prototype.
Proof.
  rewrite select_latest_consider. intros H. apply (forEach_keys _ _ _ H).
  intros e'. rewrite lookup_empty. by intros [? ?].
Qed.

(** ** Environments and the keys of the index *)

Section Channels.
Variable checkPlatform : string -> option string.

Lemma index_releases_well_keyed data index :
  index_releases checkPlatform data = Ok index -> well_keyed index.
Proof.
  intros (latest & Hsel & ->)%index_releases_Ok e rel (r & Hentry & Hr)%lookup_omap_Some.
  destruct (select_latest_selected _ _ _ _ Hsel Hr) as (i & _ & Hc & _).
  apply environment_entry_Some in Hentry as (-> & _). split.
  - by destruct Hc as (_ & _ & _ & ?).
  - apply (select_latest_keys _ _ _ Hsel). by rewrite Hr.
Qed.

(** X2.  Every key of a built index is the environment of the version
    stored under it; it is not empty, has no hyphen and is not the name
    of a member of [Object.prototype], so reading it from the index
    yields the stored release and never an inherited member. *)
Theorem index_keys data index e rel :
  index_releases checkPlatform data = Ok index -> index !! e = Some rel ->
  environment_of (Index.version rel) = e /\ (e ∉ Object_prototype) /\
  e <> "" /\ hyphen_free e /\ js_get index e = Own rel.
Proof.
  intros Hidx Hrel. destruct (index_releases_well_keyed _ _ Hidx e rel Hrel) as [He Hp].
  split; [done|]. split; [done|].
  rewrite <- He. split; [apply environment_of_nonempty|]. split; [apply environment_of_no_hyphen|].
  unfold js_get. by rewrite He, Hrel.
Qed.

Lemma new_TypeError v e : Semver.new v = Throw e -> name e = TypeError.
Proof.
  unfold Semver.new. case_decide; [by intros [= <-]|].
  destruct (Semver.match_full _) as [[[[[ma mi] pa] pre] bld]|]; [|by intros [= <-]].
  repeat (destruct (_ <? _)%N; [by intros [= <-]|]). done.
Qed.

Lemma gt_TypeError a b e : Semver.gt a b = Throw e -> name e = TypeError.
Proof.
  unfold Semver.gt, Semver.compare.
  destruct (Semver.new a) eqn:Ha; simpl; [|intros [= <-]; by eapply new_TypeError].
  destruct (Semver.new b) eqn:Hb; simpl; [done|intros [= <-]; by eapply new_TypeError].
Qed.

Lemma consider_TypeError m x e : consider m x = Throw e -> name e = TypeError.
Proof.
  unfold consider, select_release.
  destruct (GitHub.draft x); [done|]. destruct (_ || _); [done|].
  destruct (js_get m _) as [cur| |]; simpl; [| |done].
  - destruct (Semver.gt _ _) eqn:Hgt; simpl; [done|]. intros [= <-]. by eapply gt_TypeError.
  - destruct (Semver.new _) eqn:Hn; simpl; [by intros [= <-]|]. intros [= <-].
    by eapply new_TypeError.
Qed.

Lemma forEach_TypeError l : forall m e, forEach consider m l = Throw e -> name e = TypeError.
Proof.
  induction l as [|x l IH]; intros m e; simpl; [done|].
  destruct (consider m x) as [m1|] eqn:Hx; simpl; [apply IH|].
  intros [= <-]. by eapply consider_TypeError.
Qed.

Lemma index_releases_TypeError data e :
  index_releases checkPlatform data = Throw e -> name e = TypeError.
Proof.
  unfold index_releases. destruct (select_latest data) as [latest|] eqn:Hsel; simpl.
  - unfold build_index. case_decide; [done|]. by intros [= <-].
  - intros [= <-]. rewrite select_latest_consider in Hsel. by eapply forEach_TypeError.
Qed.

(** X3.  A published release with a tag and assets whose environment is
    the name of a member of [Object.prototype] ("constructor", "toString",
    ...) makes the whole indexing throw a [TypeError]: the inherited
    member is taken for the current release of that environment and its
    missing [tag_name] is compared. *)
Theorem inherited_name_fails data r e :
  r ∈ data -> candidate e r -> e ∈ Object_prototype ->
  exists err, index_releases checkPlatform data = Throw err /\ name err = TypeError.
Proof.
  intros Hin Hc Hp.
  destruct (index_releases checkPlatform data) as [index|err] eqn:Hidx.
  - exfalso. apply index_releases_Ok in Hidx as (latest & Hsel & _).
    destruct (latest !! e) as [r'|] eqn:Hl.
    + apply (select_latest_keys _ _ e Hsel); [by rewrite Hl|done].
    + by apply (select_latest_none _ _ _ _ Hsel Hl Hin).
  - exists err. split; [done|]. by eapply index_releases_TypeError.
Qed.

(** X4.  Drafts, releases without a tag and releases without an asset
    list have no effect: indexing a release list and indexing what is
    left of it without them give the same result, errors included. *)
Lemma consider_irrelevant m r : ~ relevant r -> consider m r = Ok m.
Proof.
  unfold relevant, consider, select_release. intros Hn.
  destruct (GitHub.draft r) eqn:Hd; [done|].
  destruct (Str.nonempty (GitHub.tag_name r)) eqn:Ht; simpl; [|done].
  case_bool_decide as Ha; simpl; [|done].
  destruct Hn. repeat split; try done. by intros Heq; rewrite Heq in Ht.
Qed.

Lemma forEach_relevant l : forall m,
  forEach consider m (filter relevant l) = forEach consider m l.
Proof.
  induction l as [|r l IH]; intros m; [done|].
  rewrite filter_cons. case_decide as Hr; simpl.
  - destruct (consider m r); simpl; [apply IH|done].
  - rewrite (consider_irrelevant _ _ Hr). simpl. apply IH.
Qed.

Theorem irrelevant_releases_ignored data :
  index_releases checkPlatform (filter relevant data) = index_releases checkPlatform data.
Proof.
  unfold index_releases. by rewrite !select_latest_consider, forEach_relevant.
Qed.

(** X5.  The entry of an environment depends on the releases of that
    environment only: indexing just those releases succeeds as well,
    gives the same entry, and no other. *)

Lemma only_lookup e m : only e m !! e = m !! e.
Proof.
  unfold only. destruct (m !! e) as [r|] eqn:Hm.
  - by apply map_lookup_filter_Some.
  - apply map_lookup_filter_None. left. done.
Qed.

Lemma only_lookup_ne e e' m : e' <> e -> only e m !! e' = None.
Proof.
  intros Hne. unfold only. apply map_lookup_filter_None. right. intros r _. simpl. done.
Qed.

Lemma only_insert e r m : only e (<[e := r]> m) = <[e := r]> (only e m).
Proof. unfold only. by rewrite map_filter_insert_True. Qed.

Lemma only_insert_ne e e' r m : e' <> e -> only e (<[e' := r]> m) = only e m.
Proof.
  intros Hne. apply map_eq. intros k. destruct (decide (k = e)) as [->|Hk].
  - by rewrite !only_lookup, lookup_insert_ne.
  - by rewrite !only_lookup_ne.
Qed.

Lemma js_get_only e (m : gmap string GitHub.Release) : js_get (only e m) e = js_get m e.
Proof. unfold js_get. by rewrite only_lookup. Qed.

Lemma consider_only e m x m' :
  consider m x = Ok m' ->
  if decide (environment_of (GitHub.tag_name x) = e)
  then consider (only e m) x = Ok (only e m')
  else only e m' = only e m.
Proof.
  unfold consider, select_release. intros H.
  destruct (GitHub.draft x); [injection H as <-; by case_decide|].
  destruct (_ || _); [injection H as <-; by case_decide|].
  case_decide as He.
  - rewrite He in *. rewrite js_get_only.
    destruct (js_get m e) as [cur| |]; simpl in *.
    + destruct (Semver.gt _ _) as [[]|]; simpl in *; try done; injection H as <-;
        by rewrite ?only_insert.
    + destruct (Semver.new _); simpl in *; done.
    + injection H as <-. by rewrite only_insert.
  - destruct (js_get m _) as [cur| |]; simpl in *.
    + destruct (Semver.gt _ _) as [[]|]; simpl in *; try done; injection H as <-;
        by rewrite ?only_insert_ne.
    + destruct (Semver.new _); simpl in *; done.
    + injection H as <-. by rewrite only_insert_ne.
Qed.

Lemma forEach_only e l : forall m m',
  forEach consider m l = Ok m' ->
  forEach consider (only e m) (of_environment e l) = Ok (only e m').
Proof.
  induction l as [|x l IH]; intros m m'; simpl.
  - by intros [= <-].
  - destruct (consider m x) as [m1|] eqn:Hx; simpl; [|done]. intros Hl.
    apply (consider_only e) in Hx. unfold of_environment. rewrite filter_cons.
    case_decide as He.
    + simpl. rewrite Hx. simpl. by apply IH.
    + rewrite <-Hx. by apply IH.
Qed.

Theorem channels_are_independent data index e :
  index_releases checkPlatform data = Ok index ->
  exists index',
    index_releases checkPlatform (of_environment e data) = Ok index' /\
    index' !! e = index !! e /\
    forall e', e' <> e -> index' !! e' = None.
Proof.
  intros (latest & Hsel & ->)%index_releases_Ok.
  exists (omap (environment_entry checkPlatform) (only e latest)).
  assert (select_latest (of_environment e data) = Ok (only e latest)) as Hsel'.
  { rewrite select_latest_consider in *. apply (forEach_only e) in Hsel.
    by replace (only e ∅) with (∅ : gmap string GitHub.Release) in Hsel
      by (symmetry; apply map_filter_empty). }
  split; [|split].
  - apply index_releases_Ok. by exists (only e latest).
  - by rewrite !lookup_omap, only_lookup.
  - intros e' Hne. by rewrite lookup_omap, only_lookup_ne.
Qed.

(** X6.  When several assets of a release resolve to the same platform,
    the platform table holds the last of them: [p] maps to [a] exactly
    when some asset yields the pair [(p, a)] and no later asset resolves
    to [p]. *)
Lemma fromEntries_last {V} (l : list (string * V)) k v :
  fromEntries l !! k = Some v <->
  exists l1 l2, l = l1 ++ (k, v) :: l2 /\ forall v', (k, v') ∉ l2.
Proof.
  induction l as [|[k' v'] l IH] using rev_ind.
  - unfold fromEntries. simpl. rewrite lookup_empty. split; [done|].
    by intros ([|] & ? & ? & _).
  - rewrite fromEntries_snoc. destruct (decide (k' = k)) as [->|Hne].
    + rewrite lookup_insert_eq. split.
      * intros [= ->]. exists l, []. split; [done|]. by intros ? ?%elem_of_nil.
      * intros (l1 & l2 & Heq & Hlast).
        destruct l2 as [|x l2 _] using rev_ind.
        -- apply app_inj_tail in Heq as [_ [= ->]]. done.
        -- rewrite app_comm_cons, (assoc_L (++)) in Heq.
           apply app_inj_tail in Heq as [_ <-].
           destruct (Hlast v'). apply elem_of_app. right. apply list_elem_of_here.
    + rewrite lookup_insert_ne by done. rewrite IH. split.
      * intros (l1 & l2 & -> & Hlast). exists l1, (l2 ++ [(k', v')]).
        split; [by rewrite <-(assoc_L (++))|].
        intros v0 [?| [= -> ->]%list_elem_of_singleton]%elem_of_app; [by eapply Hlast|done].
      * intros (l1 & l2 & Heq & Hlast).
        destruct l2 as [|x l2 _] using rev_ind.
        -- apply app_inj_tail in Heq as [_ [= -> ->]]. done.
        -- rewrite app_comm_cons, (assoc_L (++)) in Heq.
           apply app_inj_tail in Heq as [-> <-]. exists l1, l2. split; [done|].
           intros v0 Hin. apply (Hlast v0). apply elem_of_app. by left.
Qed.

Lemma omap_split {A B} (f : A -> option B) (l : list A) (k1 k2 : list B) (y : B) :
  omap f l = k1 ++ y :: k2 ->
  exists l1 x l2, l = l1 ++ x :: l2 /\ f x = Some y /\ omap f l1 = k1 /\ omap f l2 = k2.
Proof.
  revert k1. induction l as [|a l IH]; intros k1; simpl.
  - by destruct k1.
  - destruct (f a) as [b|] eqn:Hfa.
    + destruct k1 as [|b' k1]; simpl.
      * intros [= -> <-]. exists [], a, l. by rewrite Hfa.
      * intros [= -> Hrest]. destruct (IH _ Hrest) as (l1 & x & l2 & -> & Hx & <- & <-).
        exists (a :: l1), x, l2. simpl. by rewrite Hfa.
    + intros Hrest. destruct (IH _ Hrest) as (l1 & x & l2 & -> & Hx & <- & <-).
      exists (a :: l1), x, l2. simpl. by rewrite Hfa.
Qed.

Theorem last_asset_wins r rel p a :
  environment_entry checkPlatform r = Some rel ->
  Index.platforms rel !! p = Some a <->
  exists l1 x l2,
    default [] (GitHub.assets r) = l1 ++ x :: l2 /\
    platform_entry checkPlatform x = Some (p, a) /\
    forall y, y ∈ l2 -> ~ resolves checkPlatform (GitHub.name y) p.
Proof.
  unfold environment_entry. case_decide; [done|]. intros [= <-]. simpl.
  rewrite fromEntries_last. split.
  - intros (k1 & k2 & Heq & Hlast).
    destruct (omap_split _ _ _ _ _ Heq) as (l1 & x & l2 & Hl & Hx & _ & Hk2).
    exists l1, x, l2. repeat split; try done.
    intros y Hy Hres. unfold resolves in Hres.
    destruct (platform_entry checkPlatform y) as [[p' a']|] eqn:Hy'.
    + pose proof Hy' as [Hres' _]%platform_entry_Some. unfold resolves in Hres'.
      rewrite Hres in Hres'. injection Hres' as <-.
      apply (Hlast a'). rewrite <-Hk2. apply list_elem_of_omap. eauto.
    + unfold platform_entry in Hy'. by rewrite Hres in Hy'.
  - intros (l1 & x & l2 & Hl & Hx & Hlast).
    exists (omap (platform_entry checkPlatform) l1), (omap (platform_entry checkPlatform) l2).
    split.
    + rewrite Hl, omap_app. simpl. by rewrite Hx.
    + intros v' (y & Hy & Hy')%list_elem_of_omap.
      apply platform_entry_Some in Hy' as [Hres _]. by apply (Hlast y).
Qed.

End Channels.

(** ** Reading the cache *)

Section Reads.
Variable checkPlatform : string -> option string.
Variable net : nat -> FetchOutcome.

Local Abbreviation loadCache := (loadCache checkPlatform net).
Local Abbreviation refreshCache := (refreshCache checkPlatform net).

Lemma process_outcome later data c c' :
  process checkPlatform later data c = Ok c' ->
  c' = c \/
  exists releases index,
    data = Array releases /\ releases <> [] /\
    index_releases checkPlatform releases = Ok index /\ c' = install c index later.
Proof.
  destruct data as [|[|r l]]; simpl; try (intros [= <-]; by left).
  destruct (index_releases checkPlatform (r :: l)) as [index|] eqn:Hidx; simpl; [|done].
  intros [= <-]. right. by exists (r :: l), index.
Qed.

Lemma process_cache_ok later data c c' :
  process checkPlatform later data c = Ok c' ->
  cache_ok checkPlatform c -> cache_ok checkPlatform c'.
Proof.
  intros [->|(releases & index & _ & _ & Hidx & ->)]%process_outcome Hok; [done|].
  split; [|split]; simpl.
  - by eapply index_releases_resolved.
  - by eapply index_releases_well_keyed.
  - done.
Qed.

Lemma refreshCache_outcome later s r s' :
  refreshCache later s = (r, s') ->
  (cache s' = cache s) \/
  exists releases index,
    releases <> [] /\ index_releases checkPlatform releases = Ok index /\
    cache s' = install (cache s) index later /\ r = Ok tt.
Proof.
  rewrite refreshCache_unfold.
  destruct ((retry net (config (cache s)) 3 [] (requests s)).1) as [body|e];
    [|intros [= <- <-]; by left].
  destruct (json (config (cache s)) body) as [data|e]; simpl; [|intros [= <- <-]; by left].
  destruct (process checkPlatform later data (cache s)) as [c|e] eqn:Hp; simpl;
    [|intros [= <- <-]; by left].
  intros [= <- <-]. simpl.
  destruct (process_outcome _ _ _ _ Hp) as [->|(releases & index & _ & ? & ? & ->)];
    [by left|right]. by exists releases, index.
Qed.

Lemma loadCache_cases now later s r s' :
  loadCache now later s = (r, s') ->
  (cache s' = cache s /\
   (r = Ok (latestReleaseByEnvironment (cache s)) \/ exists e, r = Throw e)) \/
  (exists releases index,
     releases <> [] /\ index_releases checkPlatform releases = Ok index /\
     cache s' = install (cache s) index later /\ r = Ok index /\
     must_refresh (cache s) now = true).
Proof.
  destruct (must_refresh (cache s) now) eqn:Hm.
  - rewrite loadCache_stale by done.
    destruct (refreshCache later s) as [r0 s0] eqn:Hr. simpl. intros [= <- <-].
    destruct (refreshCache_outcome _ _ _ _ Hr) as [Hc|(releases & index & ? & ? & Hc & ->)].
    + left. split; [done|]. rewrite Hc. destruct r0; [by left|right; eauto].
    + right. exists releases, index. by rewrite Hc.
  - rewrite loadCache_fresh by done. intros [= <- <-]. left. split; [done|]. by left.
Qed.

(** X7.  What a call of [loadCache] can do: it never changes the
    configuration, issues at most four requests, and either leaves the
    cache untouched (returning the cached index, or throwing) or, the
    cache having been due for a refresh, installs the index of a
    non-empty release list and returns that index. *)
Theorem loadCache_outcome now later s r s' :
  loadCache now later s = (r, s') ->
  config (cache s') = config (cache s) /\
  (exists k, k <= 4 /\ issued s s' k) /\
  ((cache s' = cache s /\
    (r = Ok (latestReleaseByEnvironment (cache s)) \/ exists e, r = Throw e)) \/
   (exists releases index,
      releases <> [] /\ index_releases checkPlatform releases = Ok index /\
      cache s' = install (cache s) index later /\ r = Ok index /\
      must_refresh (cache s) now = true)).
Proof.
  intros Hload. split; [|split; [|by eapply loadCache_cases]].
  - destruct (loadCache_cases _ _ _ _ _ Hload) as [[-> _]|(? & ? & _ & _ & -> & _)]; done.
  - destruct (must_refresh (cache s) now) eqn:Hm.
    + rewrite loadCache_stale in Hload by done.
      destruct (refreshCache_issued checkPlatform net later s) as (k & Hk & Hissued & _).
      exists k. split; [lia|].
      destruct (refreshCache later s) as [r0 s0]. simpl in *. by injection Hload as <- <-.
    + rewrite loadCache_fresh in Hload by done. injection Hload as <- <-.
      exists 0. split; [lia|]. unfold issued. simpl. by rewrite app_nil_r.
Qed.

Lemma loadCache_cache_ok now later s :
  cache_ok checkPlatform (cache s) -> cache_ok checkPlatform (cache (loadCache now later s).2).
Proof.
  intros Hok. destruct (loadCache now later s) as [r s'] eqn:Hl. simpl.
  destruct (loadCache_cases _ _ _ _ _ Hl) as [[-> _]|(rel & index & _ & Hidx & -> & _)];
    [done|].
  split; [|split]; simpl.
  - by eapply index_releases_resolved.
  - by eapply index_releases_well_keyed.
  - done.
Qed.

Lemma loadCache_snapshot now later s snapshot s' :
  loadCache now later s = (Ok snapshot, s') -> snapshot = latestReleaseByEnvironment (cache s').
Proof.
  intros Hl.
  destruct (loadCache_cases _ _ _ _ _ Hl) as [[-> [[= ->]|[? [=]]]]|(rel & index & _ & _ & -> & [= ->] & _)];
    done.
Qed.

(** X8.  After a successful call, any call made while the interval has
    not passed since the last update (the time passed does not exceed
    what [ms] reads from the configuration, or [ms] reads no number)
    returns the same index and changes nothing, no request included. *)
Theorem read_again_within_interval now later s snapshot s' t now2 later2 :
  loadCache now later s = (Ok snapshot, s') ->
  lastUpdate (cache s') = Some t -> t <> 0%Z ->
  within_interval (config (cache s')) (now2 - t) ->
  loadCache now2 later2 s' = (Ok snapshot, s').
Proof.
  intros Hl Ht Hne Hle. rewrite (loadCache_snapshot _ _ _ _ _ Hl).
  apply loadCache_fresh. by eapply within_interval_fresh.
Qed.

(** X9.  The constructor succeeds exactly when account and repository are
    set and a token comes with a URL; the cache it returns holds the
    configuration, an empty index and no update time, and nothing else,
    so that it is well formed and the first [loadCache] issues a request
    whatever the time is. *)
Theorem new_Cache_spec cfg :
  ((exists c, new_Cache cfg = Ok c) <->
     is_Some (truthy (account cfg)) /\ is_Some (truthy (repository cfg)) /\
     (is_Some (truthy (token cfg)) -> is_Some (truthy (url cfg)))) /\
  (forall c, new_Cache cfg = Ok c ->
     c = {| config := cfg; lastUpdate := None; latestReleaseByEnvironment := ∅ |} /\
     config c = cfg /\ lastUpdate c = None /\ latestReleaseByEnvironment c = ∅ /\
     cache_ok checkPlatform c /\
     forall now later reqs,
       exists k, 1 <= k /\
         issued (mkState c reqs) (loadCache now later (mkState c reqs)).2 k).
Proof.
  unfold new_Cache. split.
  - destruct (truthy (account cfg)) as [a|], (truthy (repository cfg)) as [r|];
      [|split; [by intros [c Hc]|by intros (_ & [? ?] & _)]
       |split; [by intros [c Hc]|by intros ([? ?] & _)]
       |split; [by intros [c Hc]|by intros ([? ?] & _)]].
    assert (is_Some (Some a) /\ is_Some (Some r)) as [Ha Hr] by (split; by eexists).
    destruct (truthy (token cfg)) as [t|], (truthy (url cfg)) as [u|].
    + split; [intros _|intros _; by eexists].
      split; [done|]. split; [done|]. intros _. by eexists.
    + split; [by intros [c Hc]|]. intros (_ & _ & Hu).
      destruct Hu as [? ?]; [by eexists|done].
    + split; [intros _|intros _; by eexists].
      split; [done|]. split; [done|]. intros _. by eexists.
    + split; [intros _|intros _; by eexists].
      split; [done|]. split; [done|]. by intros [? ?].
  - intros c Hc.
    assert (c = {| config := cfg; lastUpdate := None; latestReleaseByEnvironment := ∅ |}) as ->.
    { by repeat (case_match; simplify_eq). }
    split; [done|]. split; [done|]. split; [done|]. split; [done|]. split.
    + split; [|split]; simpl; try done; intros e rel; by rewrite lookup_empty.
    + intros now later reqs. rewrite loadCache_stale by done. simpl.
      destruct (refreshCache_issued checkPlatform net later
                  (mkState {| config := cfg; lastUpdate := None;
                              latestReleaseByEnvironment := ∅ |} reqs))
        as (k & Hk & Hissued & _).
      exists k. split; [lia|done].
Qed.

Lemma step_cache_ok now t s :
  cache_ok checkPlatform (cache s) ->
  cache_ok checkPlatform (cache (step checkPlatform net now t s).2) /\
  config (cache (step checkPlatform net now t s).2) = config (cache s) /\
  exists k, k <= 1 /\ issued s (step checkPlatform net now t s).2 k.
Proof.
  intros Hok.
  assert (issued s s 0) as H0 by (unfold issued; simpl; by rewrite app_nil_r).
  assert (issued s (issue s) 1) as H1 by done.
  destruct t as [|k errors retries|errors retries|body| |outcome]; simpl.
  - destruct (must_refresh (cache s) now); simpl; eauto 6.
  - destruct (attempt _ _); [|destruct retries]; simpl; eauto 6.
  - eauto 6.
  - destruct (json (config (cache s)) body) as [data|]; simpl; [|by eauto 6].
    destruct (process checkPlatform now data (cache s)) as [c|] eqn:Hp; simpl; [|by eauto 6].
    split; [by eapply process_cache_ok|]. split; [by eapply process_config|].
    exists 0. split; [lia|]. unfold issued. simpl. rewrite app_nil_r. done.
  - eauto 6.
  - eauto 6.
Qed.

(** X10.  Under every schedule of calls in flight the cache stays well
    formed (keys are the environments of their versions, every platform
    entry is resolved from its file name), the configuration is never
    changed, and a turn issues at most one request. *)
Theorem run_cache_ok schedule : forall tasks s,
  cache_ok checkPlatform (cache s) ->
  cache_ok checkPlatform (cache (run checkPlatform net schedule tasks s).2) /\
  config (cache (run checkPlatform net schedule tasks s).2) = config (cache s) /\
  exists k, k <= List.length schedule /\
            issued s (run checkPlatform net schedule tasks s).2 k.
Proof.
  induction schedule as [|[i now] schedule IH]; intros tasks s Hok.
  - simpl. split; [done|]. split; [done|]. exists 0. split; [lia|].
    unfold issued. simpl. by rewrite app_nil_r.
  - cbn [run]. destruct (tasks !! i) as [t|].
    + destruct (step_cache_ok now t s Hok) as (Hok1 & Hc1 & k1 & Hk1 & Hi1).
      destruct (step checkPlatform net now t s) as [t' s1]. simpl in *.
      destruct (IH (<[i:=t']> tasks) s1 Hok1) as (Hok2 & Hc2 & k2 & Hk2 & Hi2).
      split; [done|]. split; [congruence|]. exists (k1 + k2). split; [lia|].
      by eapply issued_trans.
    + destruct (IH tasks s Hok) as (Hok2 & Hc2 & k2 & Hk2 & Hi2).
      split; [done|]. split; [done|]. exists k2. split; [simpl; lia|done].
Qed.

End Reads.

(** ** The handlers *)

Section Routes.
Variable checkPlatform : string -> option string.
Variable checkAlias : string -> option string.
Variable net : nat -> FetchOutcome.

Local Abbreviation loadCache := (loadCache checkPlatform net).
Local Abbreviation update := (update checkPlatform checkAlias net).
Local Abbreviation download := (download checkPlatform net).
Local Abbreviation downloadPlatform := (downloadPlatform checkPlatform checkAlias net).

Lemma js_get_Own {V} (m : gmap string V) k v : js_get m k = Own v <-> m !! k = Some v.
Proof.
  unfold js_get. destruct (m !! k); [|by case_bool_decide]. split; by intros [= ->].
Qed.

Lemma js_get_Undefined {V} (m : gmap string V) k :
  js_get m k = Undefined <-> m !! k = None /\ k ∉ Object_prototype.
Proof.
  unfold js_get. destruct (m !! k); [by split; [|intros [? _]]|].
  case_bool_decide; split; try done; by intros [_ ?].
Qed.

Lemma decide_update_replies cfg snapshot e platformName platform version reply :
  decide_update cfg snapshot e platformName platform version = Ok reply ->
  reply = NoContent \/
  exists rel,
    snapshot !! e = Some rel /\ js_get (Index.platforms rel) platform <> Undefined /\
    Semver.gt (Index.version rel) version = Ok true /\
    exists payload, reply = UpdateAvailable payload /\ payload_name payload = Index.version rel.
Proof.
  unfold decide_update.
  destruct (js_get snapshot e) as [rel| |] eqn:He; [|done|by intros [= <-]; left].
  apply js_get_Own in He.
  destruct (js_get (Index.platforms rel) platform) as [a| |] eqn:Hp;
    [| |by intros [= <-]; left].
  all: destruct (Semver.compare (Index.version rel) version) as [[]|] eqn:Hc; simpl; try done.
  all: intros [= <-]; try (by left).
  all: right; exists rel; rewrite Hp; unfold Semver.gt; rewrite Hc.
  all: repeat split; try done; by eexists.
Qed.

(** X11.  [update] validates before it reads: a version that is not
    SemVer is answered with "version_invalid", a valid version with an
    unknown platform with "invalid_platform", and whenever an error reply
    is sent the cache was not consulted and nothing was fetched. *)
Theorem update_error_reply cfg now later platformName version s :
  (Semver.valid version = false ->
     update cfg now later platformName version s
     = (Ok (ErrorReply "version_invalid" "The specified version is not SemVer-compatible"), s)) /\
  (Semver.valid version = true -> truthy (checkAlias platformName) = None ->
     update cfg now later platformName version s
     = (Ok (ErrorReply "invalid_platform" "The specified platform is not valid"), s)) /\
  (forall error message,
     (update cfg now later platformName version s).1 = Ok (ErrorReply error message) ->
     (update cfg now later platformName version s).2 = s /\
     (Semver.valid version = false \/ truthy (checkAlias platformName) = None)).
Proof.
  unfold update. split; [by intros ->|]. split; [by intros -> ->|].
  intros error message.
  destruct (Semver.valid version); simpl; [|by auto].
  destruct (truthy (checkAlias platformName)) as [platform|]; [|by auto].
  destruct (loadCache now later s) as [[snapshot|e] s']; simpl; [|done].
  intros [[=]|(? & _ & _ & _ & ? & [=] & _)]%decide_update_replies.
Qed.

(** X12.  [update] answers 204 when the environment of the requested
    version has no entry in the cache, or has one without the requested
    platform. *)
Theorem update_without_entry cfg now later platformName version s snapshot s' platform :
  Semver.valid version = true ->
  truthy (checkAlias platformName) = Some platform ->
  loadCache now later s = (Ok snapshot, s') ->
  (snapshot !! environment_of version = None /\ environment_of version ∉ Object_prototype) \/
  (exists rel, snapshot !! environment_of version = Some rel /\
               Index.platforms rel !! platform = None /\ platform ∉ Object_prototype) ->
  update cfg now later platformName version s = (Ok NoContent, s').
Proof.
  intros Hvalid Halias Hload Hmissing.
  rewrite (update_unfold checkPlatform checkAlias net cfg _ _ _ _ _ _ _ _ Hvalid Halias Hload). f_equal.
  unfold decide_update.
  destruct Hmissing as [Hnone|(rel & Hrel & Hp & Hnp)].
  - apply js_get_Undefined in Hnone. by rewrite Hnone.
  - assert (js_get snapshot (environment_of version) = Own rel) as -> by (by apply js_get_Own).
    assert (js_get (Index.platforms rel) platform = Undefined) as ->
      by (by apply js_get_Undefined). done.
Qed.

(** X13.  When the cached release of the client's environment carries a
    tag that is no version, [update] throws the error of the comparison
    instead of answering. *)
Theorem update_with_invalid_tag cfg now later platformName version s snapshot s' platform rel e :
  Semver.valid version = true ->
  truthy (checkAlias platformName) = Some platform ->
  loadCache now later s = (Ok snapshot, s') ->
  snapshot !! environment_of version = Some rel ->
  is_Some (Index.platforms rel !! platform) ->
  Semver.new (Index.version rel) = Throw e ->
  update cfg now later platformName version s = (Throw e, s').
Proof.
  intros Hvalid Halias Hload Hrel [a Ha] Hnew.
  rewrite (update_unfold checkPlatform checkAlias net cfg _ _ _ _ _ _ _ _ Hvalid Halias Hload). f_equal.
  rewrite (decide_update_found _ _ _ _ _ _ _ _ Hrel Ha).
  unfold Semver.compare. by rewrite Hnew.
Qed.

(** X14.  On a well-formed cache, the version [update] offers belongs to
    the environment of the client's version and is strictly greater than
    it. *)
Theorem update_stays_in_channel cfg now later platformName version s payload :
  cache_ok checkPlatform (cache s) ->
  (update cfg now later platformName version s).1 = Ok (UpdateAvailable payload) ->
  environment_of (payload_name payload) = environment_of version /\
  Semver.gt (payload_name payload) version = Ok true /\
  Semver.valid version = true.
Proof.
  intros Hok. unfold update.
  destruct (Semver.valid version); simpl; [|done].
  destruct (truthy (checkAlias platformName)) as [platform|]; [|done].
  pose proof (loadCache_cache_ok checkPlatform net now later s Hok) as (_ & Hkeyed & _).
  destruct (loadCache now later s) as [[snapshot|e] s'] eqn:Hload; simpl; [|done].
  apply loadCache_snapshot in Hload as ->. simpl in Hkeyed.
  intros [[=]|(rel & Hrel & _ & Hgt & p & [= <-] & Hname)]%decide_update_replies.
  rewrite Hname. split; [|done]. by apply Hkeyed.
Qed.

Lemma sniffed_platform_own userAgent isUpdate p :
  sniffed_platform userAgent isUpdate = Some p ->
  (p ∉ Object_prototype) /\
  (p = "darwin" /\ isMac userAgent = true /\ isUpdate = true \/
   p = "dmg" /\ isMac userAgent = true /\ isUpdate = false \/
   p = "exe" /\ isMac userAgent = false /\ isWindows userAgent = true).
Proof.
  unfold sniffed_platform.
  destruct (isMac userAgent), isUpdate, (isWindows userAgent); simpl; intros [= <-].
  all: split; [by apply (bool_decide_unpack _)|]; auto.
Qed.

Lemma js_get_own_key {V} (m : gmap string V) k :
  k ∉ Object_prototype -> js_get m k = match m !! k with Some v => Own v | None => Undefined end.
Proof. intros Hk. unfold js_get. destruct (m !! k); [done|]. by rewrite bool_decide_eq_false_2. Qed.

Lemma js_get_Inherited {V} (m : gmap string V) k :
  js_get m k = Inherited <-> m !! k = None /\ k ∈ Object_prototype.
Proof.
  unfold js_get. destruct (m !! k); [by split; [|intros [? _]]|].
  case_bool_decide; split; try done; by intros [_ ?].
Qed.

Lemma serve_Redirect cfg asset location :
  serve cfg asset = Ok (Redirect location) ->
  has_token cfg = false /\ exists a, asset = Own a /\ location = Index.url a.
Proof.
  unfold serve. destruct (has_token cfg), asset as [a| |]; try done.
  intros [= <-]. eauto.
Qed.

(** X15.  When the cached release of the requested environment has an
    asset for the platform sniffed from the user agent, [download] hands
    it to the proxy in private mode and redirects to its download
    address otherwise. *)
Theorem download_found cfg now later userAgent params s snapshot s' e p rel a :
  truthy (q_environmentName params) = Some e ->
  sniffed_platform userAgent (bool_decide (is_Some (truthy (q_update params)))) = Some p ->
  loadCache now later s = (Ok snapshot, s') ->
  snapshot !! e = Some rel ->
  Index.platforms rel !! p = Some a ->
  download cfg now later userAgent params s
  = (Ok (if has_token cfg then Proxied (proxy_url cfg a) else Redirect (Index.url a)), s').
Proof.
  intros He Hp Hload Hrel Ha. unfold download. rewrite He, Hp, Hload. f_equal.
  unfold download_reply.
  apply js_get_Own in Hrel as ->. apply js_get_Own in Ha as ->.
  unfold serve. by destruct (has_token cfg).
Qed.

(** X16.  A redirect of [download] is only sent in public mode, and its
    [Location] is always present: it is the address of the asset that
    the cached release of the requested environment holds for the
    sniffed platform, an asset whose file name resolves to that
    platform. *)
Theorem download_redirect cfg now later userAgent params s location :
  cache_ok checkPlatform (cache s) ->
  (download cfg now later userAgent params s).1 = Ok (Redirect location) ->
  has_token cfg = false /\
  exists e p rel a,
    truthy (q_environmentName params) = Some e /\
    sniffed_platform userAgent (bool_decide (is_Some (truthy (q_update params)))) = Some p /\
    latestReleaseByEnvironment (cache (download cfg now later userAgent params s).2) !! e
      = Some rel /\
    environment_of (Index.version rel) = e /\
    Index.platforms rel !! p = Some a /\
    resolves checkPlatform (Index.name a) p /\
    location = Index.url a.
Proof.
  intros Hok. unfold download.
  destruct (truthy (q_environmentName params)) as [e|]; [|done].
  pose proof (loadCache_cache_ok checkPlatform net now later s Hok) as (Hres & Hkeyed & _).
  destruct (loadCache now later s) as [[snapshot|err] s'] eqn:Hload; simpl; [|done].
  apply loadCache_snapshot in Hload as ->. simpl in Hres, Hkeyed.
  unfold download_reply.
  destruct (js_get _ e) as [rel| |] eqn:Hrel; [|by destruct (sniffed_platform _ _)|done].
  apply js_get_Own in Hrel.
  destruct (sniffed_platform _ _) as [p|] eqn:Hp; [|done].
  apply sniffed_platform_own in Hp as [Hp _].
  rewrite (js_get_own_key _ _ Hp).
  destruct (Index.platforms rel !! p) as [a|] eqn:Ha; [|done].
  intros (Htoken & ? & [= <-] & ->)%serve_Redirect. split; [done|].
  exists e, p, rel, a. repeat split; try done.
  - by apply Hkeyed.
  - by apply (Hres e rel).
Qed.

(** X17.  [downloadPlatform] loads the cache before it validates the
    platform: for an unknown platform it answers 500 only if the load
    succeeds, fails as the load fails, and a cache that is due is
    refreshed from the network all the same. *)
Theorem downloadPlatform_validates_late cfg now later platform params s e :
  truthy (q_environment params) = Some e ->
  truthy (checkAlias (installer_platform platform
                        (bool_decide (is_Some (truthy (q_update params)))))) = None ->
  downloadPlatform cfg now later platform params s
  = (_ ← (loadCache now later s).1; Ok (ServerError "The specified platform is not valid"),
     (loadCache now later s).2) /\
  (must_refresh (cache s) now = true ->
   exists k, 1 <= k /\ issued s (downloadPlatform cfg now later platform params s).2 k).
Proof.
  intros He Hp.
  assert (downloadPlatform cfg now later platform params s
          = (_ ← (loadCache now later s).1; Ok (ServerError "The specified platform is not valid"),
             (loadCache now later s).2)) as Heq.
  { unfold downloadPlatform. rewrite He.
    destruct (loadCache now later s) as [[snapshot|err] s']; simpl; [|done].
    unfold downloadPlatform_reply. by rewrite Hp. }
  split; [done|]. intros Hstale. rewrite Heq. simpl.
  rewrite loadCache_stale by done.
  destruct (refreshCache_issued checkPlatform net later s) as (k & [Hk _] & Hissued & _).
  exists k. split; [done|].
  by destruct (refreshCache checkPlatform net later s) as [[?|?] ?].
Qed.

(** X18.  A redirect of [downloadPlatform] is only sent in public mode,
    and its [Location] is the address of the asset that the cached
    release of the requested environment holds for the aliased platform,
    an asset whose file name resolves to that platform.  When the
    aliased platform is the name of a member of [Object.prototype] that
    the platform table of that release does not hold, the handler sends
    nothing and throws a [TypeError]. *)
Theorem downloadPlatform_redirect cfg now later platform params s :
  cache_ok checkPlatform (cache s) ->
  (forall location,
     (downloadPlatform cfg now later platform params s).1 = Ok (Redirect location) ->
     has_token cfg = false /\
     exists e p rel a,
       truthy (q_environment params) = Some e /\
       truthy (checkAlias (installer_platform platform
                             (bool_decide (is_Some (truthy (q_update params)))))) = Some p /\
       latestReleaseByEnvironment
         (cache (downloadPlatform cfg now later platform params s).2) !! e = Some rel /\
       environment_of (Index.version rel) = e /\
       Index.platforms rel !! p = Some a /\
       resolves checkPlatform (Index.name a) p /\
       location = Index.url a) /\
  (forall e p snapshot s' rel,
     truthy (q_environment params) = Some e ->
     truthy (checkAlias (installer_platform platform
                           (bool_decide (is_Some (truthy (q_update params)))))) = Some p ->
     loadCache now later s = (Ok snapshot, s') ->
     snapshot !! e = Some rel ->
     Index.platforms rel !! p = None -> p ∈ Object_prototype ->
     exists err, downloadPlatform cfg now later platform params s = (Throw err, s') /\
                 name err = TypeError).
Proof.
  intros Hok. split.
  - intros location. unfold downloadPlatform.
    destruct (truthy (q_environment params)) as [e|]; [|done].
    pose proof (loadCache_cache_ok checkPlatform net now later s Hok) as (Hres & Hkeyed & _).
    destruct (loadCache now later s) as [[snapshot|err] s'] eqn:Hload; simpl; [|done].
    apply loadCache_snapshot in Hload as ->. simpl in Hres, Hkeyed.
    unfold downloadPlatform_reply.
    destruct (truthy (checkAlias _)) as [p|]; [|done].
    destruct (js_get _ e) as [rel| |] eqn:Hrel; [|done|done].
    apply js_get_Own in Hrel.
    destruct (js_get (Index.platforms rel) p) as [a| |] eqn:Ha; [| |done].
    2:{ by intros (_ & ? & [=] & _)%serve_Redirect. }
    intros (Htoken & ? & [= <-] & ->)%serve_Redirect. split; [done|].
    apply js_get_Own in Ha. exists e, p, rel, a. repeat split; try done.
    + by apply Hkeyed.
    + by apply (Hres e rel).
  - intros e p snapshot s' rel He Hp Hload Hrel Ha Hin. unfold downloadPlatform.
    rewrite He, Hload. unfold downloadPlatform_reply. rewrite Hp.
    apply js_get_Own in Hrel as ->.
    assert (js_get (Index.platforms rel) p = Inherited) as -> by (by apply js_get_Inherited).
    unfold serve. destruct (has_token cfg); by eexists.
Qed.

(** X19.  For an environment named like a member of [Object.prototype]
    the three handlers differ: [download] and [update] throw a
    [TypeError] on the inherited member, [downloadPlatform] answers
    404. *)
Theorem inherited_environment cfg now later s snapshot s' e :
  cache_ok checkPlatform (cache s) ->
  loadCache now later s = (Ok snapshot, s') ->
  e ∈ Object_prototype ->
  (forall userAgent params p,
     truthy (q_environmentName params) = Some e ->
     sniffed_platform userAgent (bool_decide (is_Some (truthy (q_update params)))) = Some p ->
     exists err, download cfg now later userAgent params s = (Throw err, s') /\
                 name err = TypeError) /\
  (forall platform params p,
     truthy (q_environment params) = Some e ->
     truthy (checkAlias (installer_platform platform
                           (bool_decide (is_Some (truthy (q_update params)))))) = Some p ->
     downloadPlatform cfg now later platform params s
     = (Ok (NotFound "No download available for your platform"), s')) /\
  (forall platformName version p,
     Semver.valid version = true ->
     environment_of version = e ->
     truthy (checkAlias platformName) = Some p ->
     exists err, update cfg now later platformName version s = (Throw err, s') /\
                 name err = TypeError).
Proof.
  intros Hok Hload He.
  pose proof (loadCache_cache_ok checkPlatform net now later s Hok) as (_ & Hkeyed & _).
  rewrite Hload in Hkeyed. simpl in Hkeyed.
  pose proof (loadCache_snapshot checkPlatform net _ _ _ _ _ Hload) as Hsnap. rewrite <- Hsnap in Hkeyed.
  assert (js_get snapshot e = Inherited) as Hget.
  { apply js_get_Inherited. split; [|done].
    destruct (snapshot !! e) as [rel|] eqn:Hrel; [|done].
    by destruct (Hkeyed e rel Hrel) as [_ []]. }
  split; [|split].
  - intros userAgent params p Henv Hp. eexists. unfold download.
    rewrite Henv, Hp, Hload. unfold download_reply. rewrite Hget. done.
  - intros platform params p Henv Hp. unfold downloadPlatform.
    rewrite Henv, Hload. unfold downloadPlatform_reply. by rewrite Hp, Hget.
  - intros platformName version p Hvalid Henv Hp. eexists.
    rewrite (update_unfold checkPlatform checkAlias net cfg _ _ _ _ _ _ _ _ Hvalid Hp Hload).
    unfold decide_update. rewrite Henv, Hget. done.
Qed.

(** X20.  In private mode the address [update] hands out leads back to
    [downloadPlatform], which serves it: requested with the same
    platform name, [update=true] and the environment of the client's
    version while the cache is still fresh, it proxies the asset of the
    release that was offered. *)
Theorem update_address_is_served cfg now later platformName version s payload s' p now2 later2 :
  has_token cfg = true ->
  update cfg now later platformName version s = (Ok (UpdateAvailable payload), s') ->
  truthy (checkAlias platformName) = Some p ->
  p ∉ Object_prototype ->
  must_refresh (cache s') now2 = false ->
  payload_url payload
  = Some (interpolate (url cfg) +:+ "/download/" +:+ platformName
            +:+ "?update=true&environment=" +:+ environment_of version) /\
  exists rel a,
    latestReleaseByEnvironment (cache s') !! environment_of version = Some rel /\
    Index.platforms rel !! p = Some a /\
    payload_name payload = Index.version rel /\
    downloadPlatform cfg now2 later2 platformName
      (mkQuery (Some "true") None (Some (environment_of version))) s'
    = (Ok (Proxied (proxy_url cfg a)), s').
Proof.
  intros Htoken Hupdate Hp Hown Hfresh. revert Hupdate. unfold update.
  destruct (Semver.valid version); simpl; [|done]. rewrite Hp.
  destruct (loadCache now later s) as [[snapshot|err] s0] eqn:Hload; [|done].
  intros [= Hdecide ->]. apply loadCache_snapshot in Hload as ->.
  revert Hdecide. unfold decide_update.
  destruct (js_get _ (environment_of version)) as [rel| |] eqn:Hrel; [|done|done].
  rewrite (js_get_own_key _ _ Hown).
  destruct (Index.platforms rel !! p) as [a|] eqn:Ha; [|done].
  destruct (Semver.compare _ _) as [[]|]; simpl; try done.
  intros [= <-]. simpl. rewrite Htoken. split; [done|].
  exists rel, a. apply js_get_Own in Hrel. repeat split; try done.
  unfold downloadPlatform. cbn [q_environment q_update].
  pose proof (environment_of_nonempty version) as Hne.
  assert (truthy (Some (environment_of version)) = Some (environment_of version)) as ->.
  { simpl. by destruct (environment_of version). }
  rewrite loadCache_fresh by done.
  unfold downloadPlatform_reply.
  assert (forall b, installer_platform platformName (bool_decide (is_Some (truthy (Some "true")))) = b
                    -> b = platformName) as Hsame.
  { intros b <-. unfold installer_platform. by rewrite !andb_false_r. }
  rewrite (Hsame _ eq_refl).
  rewrite Hp. apply js_get_Own in Hrel as ->. apply js_get_Own in Ha as ->.
  unfold serve. by rewrite Htoken.
Qed.

(** X21.  Whatever a handler answers, it leaves a well-formed cache well
    formed. *)
Theorem handlers_keep_cache_ok cfg now later s :
  cache_ok checkPlatform (cache s) ->
  (forall userAgent params,
     cache_ok checkPlatform (cache (download cfg now later userAgent params s).2)) /\
  (forall platform params,
     cache_ok checkPlatform (cache (downloadPlatform cfg now later platform params s).2)) /\
  (forall platformName version,
     cache_ok checkPlatform (cache (update cfg now later platformName version s).2)) /\
  cache_ok checkPlatform (cache (overview checkPlatform net now later s).2).
Proof.
  intros Hok.
  pose proof (loadCache_cache_ok checkPlatform net now later s Hok) as Hload.
  split; [|split; [|split]]; try intros ? ?.
  - unfold download. destruct (truthy _); [|done].
    by destruct (loadCache now later s) as [[?|?] ?].
  - unfold downloadPlatform. destruct (truthy _); [|done].
    by destruct (loadCache now later s) as [[?|?] ?].
  - unfold update. destruct (negb _); [done|]. destruct (truthy _); [|done].
    by destruct (loadCache now later s) as [[?|?] ?].
  - done.
Qed.

End Routes.

(** ** The address of a private download *)

Section Proxy.

Lemma strip_prefix_app p rest : JsString.strip_prefix p (p +:+ rest) = Some rest.
Proof. induction p as [|a p IH]; simpl; [by destruct rest|]. by rewrite Ascii.eqb_refl. Qed.

Lemma find_unfold pattern s :
  JsString.find pattern s =
  match JsString.strip_prefix pattern s with
  | Some rest => Some (EmptyString, rest)
  | None =>
      match s with
      | EmptyString => None
      | String a s' =>
          match JsString.find pattern s' with
          | Some (before, after) => Some (String a before, after)
          | None => None
          end
      end
  end.
Proof. by destruct s. Qed.

Lemma substitute_other matched before after a r :
  Ascii.eqb a "$" = false ->
  JsString.substitute matched before after (String a r)
  = String a (JsString.substitute matched before after r).
Proof. destruct a as [[] [] [] [] [] [] [] []]; done. Qed.

Lemma substitute_dollar_free matched before after r :
  dollar_free r -> JsString.substitute matched before after r = r.
Proof.
  unfold dollar_free. induction r as [|a r IH]; [done|].
  intros H. simpl in H. apply andb_true_iff in H as [Ha Hr]. apply negb_true_iff in Ha.
  rewrite substitute_other by done. by rewrite IH.
Qed.

Lemma forallb_append f a b : Str.forallb f (a +:+ b) = Str.forallb f a && Str.forallb f b.
Proof. induction a as [|c a IH]; simpl; [done|]. by rewrite IH, andb_assoc. Qed.

Lemma append_assoc (a b c : string) : (a +:+ b) +:+ c = a +:+ (b +:+ c).
Proof.
  induction a as [|x a IH]; [done|].
  change (String x ((a +:+ b) +:+ c) = String x (a +:+ (b +:+ c))). by rewrite IH.
Qed.

(** X22.  For a token without a dollar sign, the address that
    [proxyPrivateDownload] fetches is the API address of the asset with
    the token put in front of the host. *)
Theorem proxy_url_embeds_token cfg asset secret rest :
  token cfg = Some secret ->
  dollar_free secret ->
  Index.api_url asset = "https://api.github.com/" +:+ rest ->
  proxy_url cfg asset = "https://" +:+ secret +:+ "@api.github.com/" +:+ rest.
Proof.
  intros Htoken Hfree Hurl. unfold proxy_url, JsString.replace.
  rewrite Hurl, find_unfold, strip_prefix_app, Htoken.
  change (interpolate (Some secret)) with secret.
  rewrite substitute_dollar_free.
  - by rewrite !append_assoc.
  - unfold dollar_free in *. by rewrite !forallb_append, Hfree.
Qed.

End Proxy.

(** * Concrete runs *)

Example semver_new_plain :
  Semver.new "1.2.0" = Ok (Semver.mkSemVer 1 2 0 [] []).
Proof. reflexivity. Qed.

Example semver_new_v_beta :
  Semver.new "v1.1.0-beta.2+exp.sha" = Ok (Semver.mkSemVer 1 1 0 ["beta"; "2"] ["exp"; "sha"]).
Proof. reflexivity. Qed.

Example semver_valid_samples :
  Semver.valid "1.0.0--x" = true /\ Semver.valid "1.0.0-rc-beta" = true /\
  Semver.valid "nightly" = false /\ Semver.valid "1.0" = false /\
  Semver.valid "01.0.0" = false /\ Semver.valid "1.0.0-01" = false /\
  Semver.valid "1.0.0-" = false /\ Semver.valid " 1.0.0" = false.
Proof. repeat split; reflexivity. Qed.

Example to_double_samples :
  Semver.to_double (2 ^ 53 - 1) = (2 ^ 53 - 1)%N /\
  Semver.to_double (2 ^ 53 + 1) = (2 ^ 53)%N /\
  Semver.to_double (2 ^ 53 + 2) = (2 ^ 53 + 2)%N /\
  Semver.to_double (2 ^ 53 + 3) = (2 ^ 53 + 4)%N /\
  Semver.to_double (2 ^ 54 + 2) = (2 ^ 54)%N /\
  Semver.to_double (2 ^ 54 + 6) = (2 ^ 54 + 8)%N.
Proof. repeat split; vm_compute; reflexivity. Qed.

Example semver_gt_samples :
  Semver.gt "1.2.0" "1.1.0-beta" = Ok true /\
  Semver.gt "1.0.0-beta" "1.0.0" = Ok false /\
  Semver.gt "1.0.0-beta.11" "1.0.0-beta.2" = Ok true /\
  Semver.gt "1.0.0-rc" "1.0.0-beta" = Ok true /\
  Semver.gt " v1.0.1 " "1.0.0" = Ok true /\
  Semver.gt "1.0.0+a" "1.0.0+b" = Ok false.
Proof. repeat split; reflexivity. Qed.

Example environment_of_samples :
  environment_of "v1.2.0" = "production" /\
  environment_of "1.1.0-beta" = "beta" /\
  environment_of "1.1.0-beta.3" = "beta.3" /\
  environment_of "1.0.0-rc-beta" = "rc" /\
  environment_of "1.0.0--x" = "production" /\
  environment_of "1.0.0+build-7" = "7".
Proof. repeat split; reflexivity. Qed.

Example scenario_index :
  index_releases Sample.checkPlatform Sample.scenario
  = Ok (fromEntries
          [ ("production", Sample.entry "v1.2.0" "stable" [("exe", "app-win.exe")]);
            ("beta", Sample.entry "v1.1.0-beta" "preview" [("dmg", "app-mac.dmg")]) ]).
Proof. vm_compute. reflexivity. Qed.

Example mainError_most_frequent :
  mainError [mkError PlainError "a"; mkError FetchError "a"; mkError PlainError "b";
             mkError PlainError "c"] = Some (mkError FetchError "a").
Proof. vm_compute. reflexivity. Qed.

Example history_is_indexed :
  index_releases Sample.checkPlatform Sample.history = Ok Sample.history_index.
Proof. vm_compute. reflexivity. Qed.

(** A tag is never validated while indexing: the only release of its
    environment is retained whatever its tag (C1). *)
Lemma invalid_tag_is_indexed :
  Semver.valid "nightly" = false /\
  index_releases Sample.checkPlatform [Sample.release "nightly" "built at night" ["app-win.exe"]]
  = Ok (fromEntries
          [("production", Sample.entry "nightly" "built at night" [("exe", "app-win.exe")])]).
Proof. split; vm_compute; reflexivity. Qed.

(** And a tag that is not a version, met by a comparison, fails the whole
    indexing. *)
Example invalid_tag_fails_comparison :
  index_releases Sample.checkPlatform
    [Sample.release "v1.0.0" "" ["app-win.exe"]; Sample.release "nightly" "" ["app-win.exe"]]
  = Throw (mkError TypeError "Invalid Version: nightly").
Proof. vm_compute. reflexivity. Qed.

Lemma latest_is_maximum_witness :
  exists i r,
    Sample.history !! i = Some r /\ GitHub.draft r = false /\ candidate "production" r /\
    environment_entry Sample.checkPlatform r = Some Sample.production /\
    Index.version Sample.production = GitHub.tag_name r /\
    Index.notes Sample.production = GitHub.body r /\
    Index.pub_date Sample.production = GitHub.published_at r /\
    forall j c, Sample.history !! j = Some c -> candidate "production" c -> j <> i ->
      version_ge (GitHub.tag_name r) (GitHub.tag_name c).
Proof.
  destruct (latest_is_maximum Sample.checkPlatform Sample.history Sample.history_index
              "production") as (Hheld & _ & _).
  - vm_compute; reflexivity.
  - apply (Hheld Sample.production). vm_compute; reflexivity.
Defined.

(** The channel whose only release has no installer has no entry, and a
    lone release is chosen without a look at its tag. *)
Example lone_releases :
  index_releases Sample.checkPlatform [Sample.release "nightly" "" ["README.md"]] = Ok ∅ /\
  index_releases Sample.checkPlatform
    [Sample.release "nightly" "" ["app-win.exe"]; Sample.release "also-nightly" "" ["app-mac.dmg"]]
  = Ok (fromEntries
          [("production", Sample.entry "nightly" "" [("exe", "app-win.exe")]);
           ("nightly", Sample.entry "also-nightly" "" [("dmg", "app-mac.dmg")])]).
Proof. split; vm_compute; reflexivity. Qed.

(** Of two releases with the same version, the first is kept (C4). *)
Lemma tie_keeps_first :
  index_releases Sample.checkPlatform
    [Sample.release "1.0.0" "first" ["app-win.exe"];
     Sample.release "1.0.0" "second" ["app-win.exe"]]
  = Ok (fromEntries [("production", Sample.entry "1.0.0" "first" [("exe", "app-win.exe")])]).
Proof. vm_compute. reflexivity. Qed.

Lemma tie_keeps_earlier_witness :
  exists k r,
    Sample.history !! k = Some r /\ candidate "production" r /\
    Sample.history_index !! "production" = environment_entry Sample.checkPlatform r /\
    (forall rel, Sample.history_index !! "production" = Some rel ->
       Index.version rel = GitHub.tag_name r /\ Index.notes rel = GitHub.body r /\
       Index.pub_date rel = GitHub.published_at r) /\
    k <> 4 /\
    (forall m c, Sample.history !! m = Some c -> candidate "production" c ->
       same_version (GitHub.tag_name c) (GitHub.tag_name r) -> k <= m).
Proof.
  apply (tie_keeps_earlier Sample.checkPlatform Sample.history Sample.history_index
           "production" 2 4
           (Sample.release "v1.2.0" "stable" ["app-win.exe"; "notes.txt"])
           (Sample.release "v1.2.0" "again" ["app-win.exe"])).
  - vm_compute; reflexivity.
  - reflexivity.
  - reflexivity.
  - lia.
  - repeat split; [done|by eexists].
  - repeat split; [done|by eexists].
  - eexists _, _. repeat split; vm_compute; reflexivity.
Defined.

Lemma platform_filtering_witness :
  platforms_resolved Sample.checkPlatform Sample.history_index /\
  forall latest e r,
    select_latest Sample.history = Ok latest -> latest !! e = Some r ->
    (forall asset, asset ∈ default [] (GitHub.assets r) ->
                   truthy (Sample.checkPlatform (GitHub.name asset)) = None) ->
    Sample.history_index !! e = None.
Proof.
  apply (platform_filtering Sample.checkPlatform Sample.history Sample.history_index).
  vm_compute; reflexivity.
Defined.

Example docs_environment_is_absent :
  (exists r, select_latest Sample.history ≫= (fun latest => Ok (latest !! "docs")) = Ok (Some r)) /\
  Sample.history_index !! "docs" = None.
Proof. split; [eexists|]; vm_compute; reflexivity. Qed.

(** A refresh that fails, fails the call, also when the cache holds the
    index of an earlier refresh (C2). *)
Lemma stale_data_is_not_served :
  must_refresh Sample.filled_cache Sample.late = true /\
  latestReleaseByEnvironment Sample.filled_cache = Sample.history_index /\
  loadCache Sample.checkPlatform Sample.down Sample.late Sample.late Sample.filled
  = (Throw (status_error Sample.cfg 500), Sample.after_requests Sample.filled 4).
Proof. repeat split; vm_compute; reflexivity. Qed.

Lemma failed_refresh_propagates_witness :
  loadCache Sample.checkPlatform Sample.offline Sample.late Sample.late Sample.filled
  = (Throw (mkError FetchError
              ("request to " +:+ Sample.releases +:+ " failed, reason: ECONNREFUSED")),
     Sample.after_requests Sample.filled 4)
  /\ cache (Sample.after_requests Sample.filled 4) = cache Sample.filled.
Proof.
  apply (failed_refresh_propagates Sample.checkPlatform Sample.offline);
    vm_compute; reflexivity.
Defined.

Lemma failed_fetch_is_retried_witness :
  loadCache Sample.checkPlatform Sample.down Sample.late Sample.late Sample.filled
  = (Throw (status_error Sample.cfg 500),
     {| cache := cache Sample.filled;
        requests := replicate 4 (releases_request Sample.cfg) |}) /\
  forall s2 now2 later2,
    cache s2 = cache Sample.filled -> (Sample.late <= now2)%Z ->
    must_refresh (cache s2) now2 = true /\
    exists k, 1 <= k /\
      issued s2 (loadCache Sample.checkPlatform Sample.down now2 later2 s2).2 k.
Proof.
  apply (failed_fetch_is_retried Sample.checkPlatform Sample.down Sample.filled);
    vm_compute; reflexivity.
Defined.

(** The fourth attempt is made, and counts; and the error of a failed
    refresh is the most frequent one, not the last (C6). *)
Lemma fourth_attempt_and_main_error :
  refreshCache Sample.checkPlatform Sample.up_at_fourth 5000 Sample.start
  = (Ok tt,
     {| cache := {| config := Sample.cfg; lastUpdate := Some 5000%Z;
                    latestReleaseByEnvironment :=
                      fromEntries
                        [("production", Sample.entry "v1.2.0" "stable" [("exe", "app-win.exe")]);
                         ("beta", Sample.entry "v1.1.0-beta" "preview" [("dmg", "app-mac.dmg")])] |};
        requests := replicate 4 (releases_request Sample.cfg) |}) /\
  Sample.mixed_failures 3 = Response 503 (Json NotArray) /\
  refreshCache Sample.checkPlatform Sample.mixed_failures 5000 Sample.start
  = (Throw (status_error Sample.cfg 500), Sample.after_requests Sample.start 4).
Proof. repeat split; vm_compute; reflexivity. Qed.

(** A 200 reply whose body is not JSON at all is an error. *)
Example unparsable_body_is_an_error :
  refreshCache Sample.checkPlatform
    (Sample.always (Response 200 (BadJson "Unexpected end of JSON input"))) 5000 Sample.start
  = (Throw (mkError FetchError
              ("invalid json response body at " +:+ Sample.releases
                 +:+ " reason: Unexpected end of JSON input")),
     Sample.after_requests Sample.start 1).
Proof. vm_compute. reflexivity. Qed.

Lemma fetch_retries_witness :
  (cache (Sample.after_requests Sample.filled 4) = cache Sample.filled /\
   issued Sample.filled (Sample.after_requests Sample.filled 4) 4 /\
   exists e i,
     @Throw unit (status_error Sample.cfg 500) = Throw e /\
     main_at [status_error Sample.cfg 500; status_error Sample.cfg 500;
              status_error Sample.cfg 404; status_error Sample.cfg 503] i e /\
     ((forall e', e' ∈ [status_error Sample.cfg 500; status_error Sample.cfg 500;
                        status_error Sample.cfg 404] ->
         count_message (message e')
           [status_error Sample.cfg 500; status_error Sample.cfg 500;
            status_error Sample.cfg 404; status_error Sample.cfg 503]
         <= count_message (message (status_error Sample.cfg 503))
              [status_error Sample.cfg 500; status_error Sample.cfg 500;
               status_error Sample.cfg 404; status_error Sample.cfg 503]) ->
      e = status_error Sample.cfg 503)) /\
  (Ok tt = Ok tt /\ cache (Sample.after_requests Sample.filled 2) = cache Sample.filled /\
   issued Sample.filled (Sample.after_requests Sample.filled 2) 2).
Proof.
  split.
  - destruct (fetch_retries Sample.checkPlatform Sample.mixed_failures Sample.filled Sample.late
                (Throw (status_error Sample.cfg 500)) (Sample.after_requests Sample.filled 4))
      as (_ & Hall & _); [vm_compute; reflexivity|].
    apply Hall; reflexivity.
  - destruct (fetch_retries Sample.checkPlatform Sample.empty_array Sample.filled Sample.late
                (Ok tt) (Sample.after_requests Sample.filled 2))
      as (_ & _ & _ & Hempty); [vm_compute; reflexivity|].
    apply (Hempty 1 (Array [])); [lia| |reflexivity|by right].
    intros i Hi. assert (i = 0) as -> by lia. by eexists.
Defined.

(** The limit is what [ms] computes, in floating point: 1.001 minutes
    are 60060 milliseconds, the limit computed for them is the double
    just below, and a cache of exactly that age counts as outdated; a
    text that [ms] cannot read gives no limit, and the cache is never
    refreshed again (C7). *)
Lemma interval_is_what_ms_reads :
  isOutdated (Sample.every "1") (1000000 + 60000) = false /\
  isOutdated (Sample.every "1.001") (1000000 + 60060) = true /\
  interval_ms (config (Sample.every "15min")) = None /\
  isOutdated (Sample.every "15min") 1000000000000 = false /\
  loadCache Sample.checkPlatform Sample.offline 1000000000000 1000000000000
    {| cache := Sample.every "15min"; requests := [] |}
  = (Ok Sample.history_index, {| cache := Sample.every "15min"; requests := [] |}).
Proof. repeat split; vm_compute; reflexivity. Qed.

Lemma staleness_witness :
  (isOutdated Sample.filled_cache Sample.late = true <->
   (Sample.late - 1000000 > 15 * 60 * 1000)%Z) /\
  (isOutdated (Sample.every "60") 4600001 = true <->
   (4600001 - 1000000 > Z.of_N (Str.digits "60") * 60 * 1000)%Z) /\
  isOutdated Sample.empty_cache Sample.late = false /\
  must_refresh Sample.empty_cache Sample.late = true /\
  loadCache Sample.checkPlatform Sample.offline Sample.soon Sample.late Sample.filled
  = (Ok Sample.history_index, Sample.filled).
Proof.
  destruct (staleness Sample.checkPlatform Sample.offline Sample.filled Sample.late Sample.late)
    as (Hdefault & _).
  destruct (staleness Sample.checkPlatform Sample.offline
              {| cache := Sample.every "60"; requests := [] |} 4600001 Sample.late)
    as (Hhour & _).
  destruct (staleness Sample.checkPlatform Sample.offline Sample.filled Sample.soon Sample.late)
    as (_ & _ & _ & _ & _ & _ & Hfresh).
  destruct (staleness Sample.checkPlatform Sample.offline Sample.start Sample.late Sample.late)
    as (_ & _ & Hunset & _).
  split; [|split; [|split; [|split]]].
  - destruct (Hdefault 1000000%Z) as (H & _); [reflexivity|lia|]. by apply H.
  - destruct (Hhour 1000000%Z) as (_ & H & _); [reflexivity|lia|].
    apply (H "60"); [reflexivity|reflexivity|simpl; lia|vm_compute; reflexivity].
  - apply Hunset. by left.
  - apply Hunset. by left.
  - apply Hfresh. vm_compute; reflexivity.
Defined.

(** Half a minute is 30000 milliseconds. *)
Example half_a_minute :
  isOutdated (Sample.every "0.5") 1030000 = false /\
  isOutdated (Sample.every "0.5") 1030001 = true.
Proof. split; vm_compute; reflexivity. Qed.

(** [semver] trims the white space of Unicode around a tag: here a
    no-break space before it and a byte order mark after it. *)
Example semver_trims_unicode :
  Semver.new (String "194" (String "160" ("1.2.3" +:+ String "239" (String "187" (String "191" "")))))
  = Ok (Semver.mkSemVer 1 2 3 [] []).
Proof. vm_compute. reflexivity. Qed.

Lemma update_iff_newer_witness :
  let reply := (update Sample.checkPlatform Sample.checkAlias Sample.offline Sample.cfg
                  Sample.soon Sample.late "win" "1.1.0" Sample.filled).1 in
  ((exists payload, reply = Ok (UpdateAvailable payload)) <->
     Semver.gt (Index.version Sample.production) "1.1.0" = Ok true) /\
  (Semver.gt (Index.version Sample.production) "1.1.0" = Ok true ->
     reply = Ok (UpdateAvailable
                   (update_payload Sample.cfg Sample.production (Sample.indexed "app-win.exe")
                      "win" (environment_of "1.1.0")))) /\
  (Semver.gt (Index.version Sample.production) "1.1.0" = Ok false -> reply = Ok NoContent) /\
  (Index.version Sample.production = "1.1.0" -> reply = Ok NoContent).
Proof.
  apply (update_iff_newer Sample.checkPlatform Sample.checkAlias Sample.offline Sample.cfg
           Sample.soon Sample.late "win" "1.1.0" Sample.filled Sample.history_index
           Sample.filled "exe" Sample.production (Sample.indexed "app-win.exe"));
    vm_compute; reflexivity.
Defined.

(** The scenarios of the specification for the update check. *)
Example update_scenarios :
  let ask platformName version :=
    (update Sample.checkPlatform Sample.checkAlias Sample.offline Sample.cfg
       Sample.soon Sample.late platformName version Sample.filled).1 in
  ask "win" "1.1.0"
  = Ok (UpdateAvailable
          {| payload_name := "v1.2.0"; payload_notes := "stable";
             payload_pub_date := "2021-03-01T00:00:00Z";
             payload_url := Some "https://dl.example/app-win.exe" |}) /\
  ask "win" "1.2.0" = Ok NoContent /\
  ask "win" "1.3.0" = Ok NoContent /\
  ask "bogus-platform" "1.0.0"
  = Ok (ErrorReply "invalid_platform" "The specified platform is not valid") /\
  ask "win" "1.0" = Ok (ErrorReply "version_invalid" "The specified version is not SemVer-compatible") /\
  ask "dmg" "1.0.0-beta" = Ok (UpdateAvailable
          {| payload_name := "v1.1.0-beta"; payload_notes := "preview";
             payload_pub_date := "2021-03-01T00:00:00Z";
             payload_url := Some "https://dl.example/app-mac.dmg" |}) /\
  ask "win" "1.0.0-beta" = Ok NoContent /\
  ask "win" "1.0.0-constructor" = Throw (mkError TypeError "Cannot read properties of undefined").
Proof. repeat split; vm_compute; reflexivity. Qed.

Lemma environment_from_version_witness :
  environment_of "1.1.0-beta" = "beta" /\
  environment_of ("1.0.0" +:+ "-" +:+ "rc" +:+ "-beta") = "rc" /\
  (update Sample.checkPlatform Sample.checkAlias Sample.offline Sample.cfg
     Sample.soon Sample.late "dmg" "1.0.0-beta" Sample.filled).1 =
  (c ← Semver.compare (Index.version Sample.beta) "1.0.0-beta";
   Ok (match c with
       | Gt => UpdateAvailable
                 (update_payload Sample.cfg Sample.beta (Sample.indexed "app-mac.dmg") "dmg"
                    (environment_of "1.0.0-beta"))
       | _ => NoContent
       end)).
Proof.
  destruct (environment_from_version Sample.checkPlatform Sample.checkAlias Sample.offline)
    as (_ & _ & Hbeta & Hchannel & _ & _ & Hlookup).
  split; [|split].
  - apply (Hbeta "1.1.0"). reflexivity.
  - apply (Hchannel "1.0.0" "rc"); [reflexivity|reflexivity|done].
  - apply (Hlookup Sample.cfg Sample.soon Sample.late "dmg" "1.0.0-beta" Sample.filled
             Sample.history_index Sample.filled "dmg" Sample.beta (Sample.indexed "app-mac.dmg"));
      vm_compute; reflexivity.
Defined.

(** A valid version may end in "-beta" and yet not be filed under
    "beta": after an earlier hyphen it is filed under what follows that
    hyphen, here a channel without releases, so that the client is told
    there is nothing although "beta" holds a greater release; and after
    two hyphens it is filed under "production" and offered production's
    release (C10). *)
Lemma beta_suffix_in_other_channels :
  let ask platformName version :=
    (update Sample.checkPlatform Sample.checkAlias Sample.offline Sample.cfg
       Sample.soon Sample.late platformName version Sample.filled).1 in
  Semver.valid "1.0.0-rc-beta" = true /\
  environment_of "1.0.0-rc-beta" = "rc" /\
  Sample.history_index !! "beta" = Some Sample.beta /\
  Semver.gt (Index.version Sample.beta) "1.0.0-rc-beta" = Ok true /\
  ask "dmg" "1.0.0-rc-beta" = Ok NoContent /\
  Semver.valid "1.0.0--beta" = true /\
  environment_of "1.0.0--beta" = "production" /\
  ask "win" "1.0.0--beta"
  = Ok (UpdateAvailable
          {| payload_name := "v1.2.0"; payload_notes := "stable";
             payload_pub_date := "2021-03-01T00:00:00Z";
             payload_url := Some "https://dl.example/app-win.exe" |}).
Proof. repeat split; vm_compute; reflexivity. Qed.

(** Two calls that both find the cache stale issue a request each, and
    do not end alike: the first returns the index of its refresh, the
    second fails with the error of its own attempts (C9). *)
Lemma two_stale_calls_two_fetches :
  run Sample.checkPlatform Sample.first_only
    [(0, Sample.late); (1, Sample.late)] [Called; Called] Sample.filled
  = ([Fetching 0 [] 3; Fetching 1 [] 3], Sample.after_requests Sample.filled 2) /\
  run Sample.checkPlatform Sample.first_only
    ([(0, Sample.late); (1, Sample.late)]
       ++ replicate 3 (0, Sample.late) ++ replicate 8 (1, Sample.late))
    [Called; Called] Sample.filled
  = ([Done (Ok (fromEntries
                  [("production", Sample.entry "v1.2.0" "stable" [("exe", "app-win.exe")]);
                   ("beta", Sample.entry "v1.1.0-beta" "preview" [("dmg", "app-mac.dmg")])]));
      Done (Throw (status_error Sample.cfg 500))],
     {| cache := {| config := Sample.cfg; lastUpdate := Some Sample.late;
                    latestReleaseByEnvironment :=
                      fromEntries
                        [("production", Sample.entry "v1.2.0" "stable" [("exe", "app-win.exe")]);
                         ("beta", Sample.entry "v1.1.0-beta" "preview" [("dmg", "app-mac.dmg")])] |};
        requests := replicate 5 (releases_request Sample.cfg) |}).
Proof. split; vm_compute; reflexivity. Qed.

Lemma every_stale_call_fetches_witness :
  run Sample.checkPlatform Sample.first_only
    (call_all [Sample.late; Sample.late; (Sample.late + 5)%Z])
    (replicate 3 Called) Sample.filled
  = ([Fetching 0 [] 3; Fetching 1 [] 3; Fetching 2 [] 3],
     with_requests Sample.filled (replicate 3 (releases_request Sample.cfg))) /\
  (exists k, 3 <= k /\
     issued Sample.filled
       (run Sample.checkPlatform Sample.first_only
          (call_all [Sample.late; Sample.late; (Sample.late + 5)%Z]
             ++ [(1, Sample.late); (0, Sample.late); (1, Sample.late); (2, Sample.late)])
          (replicate 3 Called) Sample.filled).2 k) /\
  unshared
    (run Sample.checkPlatform Sample.first_only
       (call_all [Sample.late; Sample.late; (Sample.late + 5)%Z]
          ++ [(1, Sample.late); (0, Sample.late); (1, Sample.late); (2, Sample.late)])
       (replicate 3 Called) Sample.filled).1
    (run Sample.checkPlatform Sample.first_only
       (call_all [Sample.late; Sample.late; (Sample.late + 5)%Z]
          ++ [(1, Sample.late); (0, Sample.late); (1, Sample.late); (2, Sample.late)])
       (replicate 3 Called) Sample.filled).2.
Proof.
  destruct (every_stale_call_fetches Sample.checkPlatform Sample.first_only
              [Sample.late; Sample.late; (Sample.late + 5)%Z]
              [(1, Sample.late); (0, Sample.late); (1, Sample.late); (2, Sample.late)]
              Sample.filled) as (Hfirst & Hcount & Hunshared & _).
  - repeat constructor.
  - split; [exact Hfirst|]. split; [exact Hcount|exact Hunshared].
Defined.

(** Two calls whose first turns are not next to each other: the second
    starts while the first awaits its timer, finds the cache still
    stale, and issues a request of its own. *)
Example stale_calls_counted :
  stale_calls Sample.checkPlatform Sample.down
    [(0, Sample.late); (0, Sample.late); (1, Sample.late); (0, Sample.late)]
    [Called; Called] Sample.filled = 2 /\
  (run Sample.checkPlatform Sample.down
     [(0, Sample.late); (0, Sample.late); (1, Sample.late); (0, Sample.late)]
     [Called; Called] Sample.filled).2
  = Sample.after_requests Sample.filled 3.
Proof. split; vm_compute; reflexivity. Qed.

(** A call can return the index that another call's refresh installed:
    both replies arrive, the first call parses its body, then the second
    parses its own and installs it, and only then is the first resumed. *)
Example returns_the_other_refresh :
  (run Sample.checkPlatform
     (Sample.replies [Sample.ok Sample.scenario]
        (Sample.ok [Sample.release "v2.0.0" "next" ["app-win.exe"]]))
     [(0, Sample.late); (1, Sample.late); (0, Sample.late); (1, Sample.late);
      (0, Sample.late); (1, Sample.late); (0, Sample.late)]
     [Called; Called] Sample.filled).1
  = [Done (Ok (fromEntries
                 [("production", Sample.entry "v2.0.0" "next" [("exe", "app-win.exe")])]));
     Returning].
Proof. vm_compute. reflexivity. Qed.

(** Two prerelease numbers beyond 2^53 that round to the same double
    compare equal though they differ, and what follows them is not looked
    at: the second and the third tag below compare equal, yet the third
    is greater than the first and replaces it.  This is why the tie of C4
    is stated for tags that carry the same version. *)
Example equal_by_rounding :
  Semver.compare "1.0.0-b-x.9007199254740993.1" "1.0.0-b-x.9007199254740992.5" = Ok Eq /\
  index_releases Sample.checkPlatform
    [ Sample.release "1.0.0-b-x.9007199254740992.0" "first" ["app-win.exe"];
      Sample.release "1.0.0-b-x.9007199254740993.1" "second" ["app-win.exe"];
      Sample.release "1.0.0-b-x.9007199254740992.5" "third" ["app-win.exe"] ]
  = Ok (fromEntries
          [("b", Sample.entry "1.0.0-b-x.9007199254740992.5" "third" [("exe", "app-win.exe")])]).
Proof. split; vm_compute; reflexivity. Qed.

(** ** The index, the cache and the handlers *)

Lemma empty_cache_ok cp cfg : cache_ok cp {| config := cfg; lastUpdate := None; latestReleaseByEnvironment := ∅ |}.
Proof. split; [|split]; [intros e rel; simpl; by rewrite lookup_empty..|done]. Qed.

Lemma indexed_cache_ok cp cfg t data index :
  index_releases cp data = Ok index ->
  cache_ok cp {| config := cfg; lastUpdate := Some t; latestReleaseByEnvironment := index |}.
Proof.
  intros H. split; [|split]; simpl; [by eapply index_releases_resolved| |done].
  by eapply index_releases_well_keyed.
Qed.

Lemma filled_cache_ok : cache_ok Sample.checkPlatform Sample.filled_cache.
Proof. apply (indexed_cache_ok _ _ _ Sample.history). vm_compute. reflexivity. Qed.

Lemma index_keys_witness :
  environment_of (Index.version Sample.beta) = "beta" /\
  ("beta" ∉ Object_prototype) /\ "beta" <> "" /\ hyphen_free "beta" /\
  js_get Sample.history_index "beta" = Own Sample.beta.
Proof.
  apply (index_keys Sample.checkPlatform Sample.history Sample.history_index "beta" Sample.beta);
    vm_compute; reflexivity.
Defined.

Lemma inherited_name_fails_witness :
  exists err,
    index_releases Sample.checkPlatform
      [Sample.release "v1.0.0" "" ["app-win.exe"];
       Sample.release "v1.0.0-constructor" "" ["app-win.exe"]] = Throw err /\
    name err = TypeError.
Proof.
  apply (inherited_name_fails Sample.checkPlatform _
           (Sample.release "v1.0.0-constructor" "" ["app-win.exe"]) "constructor").
  - apply list_elem_of_further, list_elem_of_here.
  - repeat split; [done|by eexists].
  - apply list_elem_of_here.
Defined.

Lemma channels_are_independent_witness :
  exists index',
    index_releases Sample.checkPlatform (of_environment "beta" Sample.history) = Ok index' /\
    index' !! "beta" = Sample.history_index !! "beta" /\
    forall e', e' <> "beta" -> index' !! e' = None.
Proof.
  apply (channels_are_independent Sample.checkPlatform Sample.history Sample.history_index "beta").
  vm_compute. reflexivity.
Defined.

Lemma last_asset_wins_witness :
  Index.platforms (Sample.entry "v2.0.0" "" [("exe", "new.exe")]) !! "exe"
    = Some (Sample.indexed "new.exe") <->
  exists l1 x l2,
    default [] (GitHub.assets Sample.twice) = l1 ++ x :: l2 /\
    platform_entry Sample.checkPlatform x = Some ("exe", Sample.indexed "new.exe") /\
    forall y, y ∈ l2 -> ~ resolves Sample.checkPlatform (GitHub.name y) "exe".
Proof.
  apply (last_asset_wins Sample.checkPlatform Sample.twice).
  vm_compute. reflexivity.
Defined.

Lemma loadCache_outcome_witness :
  config (cache (loadCache Sample.checkPlatform Sample.first_only Sample.late Sample.late Sample.filled).2)
  = config (cache Sample.filled) /\
  (exists k, k <= 4 /\
     issued Sample.filled
       (loadCache Sample.checkPlatform Sample.first_only Sample.late Sample.late Sample.filled).2 k) /\
  ((cache (loadCache Sample.checkPlatform Sample.first_only Sample.late Sample.late Sample.filled).2
    = cache Sample.filled /\
    ((loadCache Sample.checkPlatform Sample.first_only Sample.late Sample.late Sample.filled).1
     = Ok (latestReleaseByEnvironment (cache Sample.filled)) \/
     exists e,
       (loadCache Sample.checkPlatform Sample.first_only Sample.late Sample.late Sample.filled).1
       = Throw e)) \/
   (exists releases index,
      releases <> [] /\ index_releases Sample.checkPlatform releases = Ok index /\
      cache (loadCache Sample.checkPlatform Sample.first_only Sample.late Sample.late Sample.filled).2
      = install (cache Sample.filled) index Sample.late /\
      (loadCache Sample.checkPlatform Sample.first_only Sample.late Sample.late Sample.filled).1
      = Ok index /\
      must_refresh (cache Sample.filled) Sample.late = true)).
Proof.
  apply (loadCache_outcome Sample.checkPlatform Sample.first_only Sample.late Sample.late
           Sample.filled).
  apply surjective_pairing.
Defined.

Lemma read_again_within_interval_witness :
  loadCache Sample.checkPlatform Sample.offline 1500000 1500000 Sample.filled
  = (Ok Sample.history_index, Sample.filled).
Proof.
  apply (read_again_within_interval Sample.checkPlatform Sample.offline
           Sample.soon Sample.soon Sample.filled Sample.history_index Sample.filled 1000000).
  - vm_compute. reflexivity.
  - reflexivity.
  - lia.
  - apply within_interval_default; [reflexivity|lia].
Defined.

Lemma new_Cache_spec_witness :
  (exists c, new_Cache Sample.cfg = Ok c) /\
  lastUpdate Sample.empty_cache = None /\
  latestReleaseByEnvironment Sample.empty_cache = ∅ /\
  forall now later reqs,
    exists k, 1 <= k /\
      issued (mkState Sample.empty_cache reqs)
        (loadCache Sample.checkPlatform Sample.offline now later
           (mkState Sample.empty_cache reqs)).2 k.
Proof.
  destruct (new_Cache_spec Sample.checkPlatform Sample.offline Sample.cfg) as [Hiff Hnew].
  split.
  - apply Hiff. repeat split; try (by eexists). intros [? H]. discriminate H.
  - destruct (Hnew Sample.empty_cache) as (_ & _ & Hupdate & Hindex & _ & Hfirst);
      [reflexivity|]. done.
Defined.

Lemma run_cache_ok_witness :
  cache_ok Sample.checkPlatform
    (cache (run Sample.checkPlatform Sample.first_only
              [(0, Sample.late); (1, Sample.late); (0, Sample.late); (0, Sample.late);
               (1, Sample.late); (1, Sample.late)]
              (replicate 2 Called) Sample.filled).2) /\
  config (cache (run Sample.checkPlatform Sample.first_only
              [(0, Sample.late); (1, Sample.late); (0, Sample.late); (0, Sample.late);
               (1, Sample.late); (1, Sample.late)]
              (replicate 2 Called) Sample.filled).2) = config (cache Sample.filled) /\
  exists k, k <= 6 /\
    issued Sample.filled
      (run Sample.checkPlatform Sample.first_only
              [(0, Sample.late); (1, Sample.late); (0, Sample.late); (0, Sample.late);
               (1, Sample.late); (1, Sample.late)]
              (replicate 2 Called) Sample.filled).2 k.
Proof.
  apply (run_cache_ok Sample.checkPlatform Sample.first_only
           [(0, Sample.late); (1, Sample.late); (0, Sample.late); (0, Sample.late);
            (1, Sample.late); (1, Sample.late)]).
  apply filled_cache_ok.
Defined.

Lemma update_error_reply_witness :
  update Sample.checkPlatform Sample.checkAlias Sample.down Sample.cfg Sample.late Sample.late
    "bogus-platform" "1.0.0" Sample.filled
  = (Ok (ErrorReply "invalid_platform" "The specified platform is not valid"), Sample.filled).
Proof.
  apply (update_error_reply Sample.checkPlatform Sample.checkAlias Sample.down Sample.cfg
           Sample.late Sample.late "bogus-platform" "1.0.0" Sample.filled); reflexivity.
Defined.

Lemma update_without_entry_witness :
  update Sample.checkPlatform Sample.checkAlias Sample.offline Sample.cfg Sample.soon Sample.soon
    "win" "1.0.0-alpha" Sample.filled
  = (Ok NoContent, Sample.filled).
Proof.
  apply (update_without_entry Sample.checkPlatform Sample.checkAlias Sample.offline Sample.cfg
           Sample.soon Sample.soon "win" "1.0.0-alpha" Sample.filled Sample.history_index
           Sample.filled "exe").
  - reflexivity.
  - reflexivity.
  - vm_compute. reflexivity.
  - left. split; [vm_compute; reflexivity|]. by apply (bool_decide_unpack _).
Defined.

Lemma update_with_invalid_tag_witness :
  update Sample.checkPlatform Sample.checkAlias Sample.offline Sample.cfg Sample.soon Sample.soon
    "win" "1.0.0" Sample.nightly_state
  = (Throw (mkError TypeError "Invalid Version: nightly"), Sample.nightly_state).
Proof.
  apply (update_with_invalid_tag Sample.checkPlatform Sample.checkAlias Sample.offline Sample.cfg
           Sample.soon Sample.soon "win" "1.0.0" Sample.nightly_state
           (fromEntries [("production", Sample.nightly)]) Sample.nightly_state
           "exe" Sample.nightly).
  - reflexivity.
  - reflexivity.
  - vm_compute. reflexivity.
  - vm_compute. reflexivity.
  - eexists. vm_compute. reflexivity.
  - vm_compute. reflexivity.
Defined.

Lemma update_stays_in_channel_witness :
  environment_of "v1.1.0-beta" = environment_of "1.0.0-beta" /\
  Semver.gt "v1.1.0-beta" "1.0.0-beta" = Ok true /\
  Semver.valid "1.0.0-beta" = true.
Proof.
  apply (update_stays_in_channel Sample.checkPlatform Sample.checkAlias Sample.offline Sample.cfg
           Sample.soon Sample.soon "dmg" "1.0.0-beta" Sample.filled
           (update_payload Sample.cfg Sample.beta (Sample.indexed "app-mac.dmg") "dmg" "beta")).
  - apply filled_cache_ok.
  - vm_compute. reflexivity.
Defined.

Lemma download_found_witness :
  download Sample.checkPlatform Sample.offline Sample.private_cfg Sample.soon Sample.soon
    Sample.mac (Sample.for_download "beta") Sample.filled
  = (Ok (if has_token Sample.private_cfg
         then Proxied (proxy_url Sample.private_cfg (Sample.indexed "app-mac.dmg"))
         else Redirect (Index.url (Sample.indexed "app-mac.dmg"))), Sample.filled).
Proof.
  apply (download_found Sample.checkPlatform Sample.offline Sample.private_cfg
           Sample.soon Sample.soon Sample.mac (Sample.for_download "beta") Sample.filled
           Sample.history_index Sample.filled "beta" "dmg" Sample.beta).
  - reflexivity.
  - reflexivity.
  - vm_compute. reflexivity.
  - vm_compute. reflexivity.
  - vm_compute. reflexivity.
Defined.

Lemma download_redirect_witness :
  has_token Sample.cfg = false /\
  exists e p rel a,
    truthy (q_environmentName (Sample.for_download "production")) = Some e /\
    sniffed_platform Sample.windows
      (bool_decide (is_Some (truthy (q_update (Sample.for_download "production"))))) = Some p /\
    latestReleaseByEnvironment
      (cache (download Sample.checkPlatform Sample.offline Sample.cfg Sample.soon Sample.soon
                Sample.windows (Sample.for_download "production") Sample.filled).2) !! e
      = Some rel /\
    environment_of (Index.version rel) = e /\
    Index.platforms rel !! p = Some a /\
    resolves Sample.checkPlatform (Index.name a) p /\
    "https://dl.example/app-win.exe" = Index.url a.
Proof.
  apply (download_redirect Sample.checkPlatform Sample.offline Sample.cfg Sample.soon Sample.soon
           Sample.windows (Sample.for_download "production") Sample.filled).
  - apply filled_cache_ok.
  - vm_compute. reflexivity.
Defined.

Lemma downloadPlatform_validates_late_witness :
  downloadPlatform Sample.checkPlatform Sample.checkAlias Sample.down Sample.cfg
    Sample.late Sample.late "bogus-platform" (Sample.for_platform "production") Sample.filled
  = (_ ← (loadCache Sample.checkPlatform Sample.down Sample.late Sample.late Sample.filled).1;
     Ok (ServerError "The specified platform is not valid"),
     (loadCache Sample.checkPlatform Sample.down Sample.late Sample.late Sample.filled).2) /\
  (must_refresh (cache Sample.filled) Sample.late = true ->
   exists k, 1 <= k /\
     issued Sample.filled
       (downloadPlatform Sample.checkPlatform Sample.checkAlias Sample.down Sample.cfg
          Sample.late Sample.late "bogus-platform" (Sample.for_platform "production")
          Sample.filled).2 k).
Proof.
  apply (downloadPlatform_validates_late Sample.checkPlatform Sample.checkAlias Sample.down
           Sample.cfg Sample.late Sample.late "bogus-platform" (Sample.for_platform "production")
           Sample.filled "production"); reflexivity.
Defined.

Lemma downloadPlatform_redirect_witness :
  has_token Sample.cfg = false /\
  exists e p rel a,
    truthy (q_environment (Sample.for_platform "production")) = Some e /\
    truthy (Sample.checkAlias
              (installer_platform "win"
                 (bool_decide (is_Some (truthy (q_update (Sample.for_platform "production")))))))
      = Some p /\
    latestReleaseByEnvironment
      (cache (downloadPlatform Sample.checkPlatform Sample.checkAlias Sample.offline Sample.cfg
                Sample.soon Sample.soon "win" (Sample.for_platform "production")
                Sample.filled).2) !! e = Some rel /\
    environment_of (Index.version rel) = e /\
    Index.platforms rel !! p = Some a /\
    resolves Sample.checkPlatform (Index.name a) p /\
    "https://dl.example/app-win.exe" = Index.url a.
Proof.
  destruct (downloadPlatform_redirect Sample.checkPlatform Sample.checkAlias Sample.offline
              Sample.cfg Sample.soon Sample.soon "win" (Sample.for_platform "production")
              Sample.filled) as [Hredirect _].
  - apply filled_cache_ok.
  - apply Hredirect. vm_compute. reflexivity.
Defined.

(** An alias module that lets the name of an inherited member through
    makes [downloadPlatform] throw, in public mode from [res.writeHead]. *)
Example inherited_platform :
  downloadPlatform Sample.checkPlatform (fun platform => Some platform) Sample.offline
    Sample.cfg Sample.soon Sample.soon "constructor" (Sample.for_platform "production")
    Sample.filled
  = (Throw (mkError TypeError
              ("Invalid value " +:+ quoted "undefined" +:+ " for header " +:+ quoted "Location")),
     Sample.filled).
Proof. vm_compute. reflexivity. Qed.

Lemma inherited_environment_witness :
  (exists err,
     download Sample.checkPlatform Sample.offline Sample.cfg Sample.soon Sample.soon
       Sample.windows (Sample.for_download "constructor") Sample.filled
     = (Throw err, Sample.filled) /\ name err = TypeError) /\
  downloadPlatform Sample.checkPlatform Sample.checkAlias Sample.offline Sample.cfg
    Sample.soon Sample.soon "win" (Sample.for_platform "constructor") Sample.filled
  = (Ok (NotFound "No download available for your platform"), Sample.filled) /\
  (exists err,
     update Sample.checkPlatform Sample.checkAlias Sample.offline Sample.cfg
       Sample.soon Sample.soon "win" "1.0.0-constructor" Sample.filled
     = (Throw err, Sample.filled) /\ name err = TypeError).
Proof.
  destruct (inherited_environment Sample.checkPlatform Sample.checkAlias Sample.offline Sample.cfg
              Sample.soon Sample.soon Sample.filled Sample.history_index Sample.filled
              "constructor") as (Hdownload & Hplatform & Hupdate).
  - apply filled_cache_ok.
  - vm_compute. reflexivity.
  - apply list_elem_of_here.
  - split; [|split].
    + apply (Hdownload Sample.windows (Sample.for_download "constructor") "exe"); reflexivity.
    + apply (Hplatform "win" (Sample.for_platform "constructor") "exe"); reflexivity.
    + apply (Hupdate "win" "1.0.0-constructor" "exe"); reflexivity.
Defined.

Lemma update_address_is_served_witness :
  payload_url (update_payload Sample.private_cfg Sample.production
                 (Sample.indexed "app-win.exe") "win" "production")
  = Some (interpolate (url Sample.private_cfg) +:+ "/download/" +:+ "win"
            +:+ "?update=true&environment=" +:+ environment_of "1.0.0") /\
  exists rel a,
    latestReleaseByEnvironment (cache Sample.filled) !! environment_of "1.0.0" = Some rel /\
    Index.platforms rel !! "exe" = Some a /\
    payload_name (update_payload Sample.private_cfg Sample.production
                    (Sample.indexed "app-win.exe") "win" "production") = Index.version rel /\
    downloadPlatform Sample.checkPlatform Sample.checkAlias Sample.offline Sample.private_cfg
      1500000 1500000 "win" (mkQuery (Some "true") None (Some (environment_of "1.0.0")))
      Sample.filled
    = (Ok (Proxied (proxy_url Sample.private_cfg a)), Sample.filled).
Proof.
  apply (update_address_is_served Sample.checkPlatform Sample.checkAlias Sample.offline
           Sample.private_cfg Sample.soon Sample.soon "win" "1.0.0" Sample.filled
           (update_payload Sample.private_cfg Sample.production
              (Sample.indexed "app-win.exe") "win" "production")
           Sample.filled "exe" 1500000 1500000).
  - reflexivity.
  - vm_compute. reflexivity.
  - reflexivity.
  - by apply (bool_decide_unpack _).
  - vm_compute. reflexivity.
Defined.

Lemma handlers_keep_cache_ok_witness :
  cache_ok Sample.checkPlatform
    (cache (overview Sample.checkPlatform Sample.first_only Sample.late Sample.late
              Sample.filled).2).
Proof.
  apply (handlers_keep_cache_ok Sample.checkPlatform Sample.checkAlias Sample.first_only
           Sample.cfg Sample.late Sample.late Sample.filled).
  apply filled_cache_ok.
Defined.

Lemma proxy_url_embeds_token_witness :
  proxy_url Sample.private_cfg (Sample.indexed "app-win.exe")
  = "https://" +:+ "s3cret" +:+ "@api.github.com/" +:+ "assets/app-win.exe".
Proof.
  apply (proxy_url_embeds_token Sample.private_cfg (Sample.indexed "app-win.exe")
           "s3cret" "assets/app-win.exe"); reflexivity.
Defined.

(** A token with a dollar pattern is not embedded as it is. *)
Example proxy_url_dollar :
  proxy_url
    {| account := Some "belay-labs"; repository := Some "app";
       token := Some "a$&b"; url := Some "https://updates.example"; interval := None |}
    (Sample.indexed "app-win.exe")
  = "https://ahttps://api.github.com/b@api.github.com/assets/app-win.exe".
Proof. vm_compute. reflexivity. Qed.
